(** * SocketCommunicator of DGL's distributed-training transport

    A shallow embedding of [src/rpc/network/socket_communicator.cc]:
    the framing codec ([SendCore], [RecvDataSize], [RecvData]), the
    sender ([AddReceiver], [Connect], [Send], [SendLoop]) and the receiver
    ([Wait], [Recv], [RecvFrom], [RecvLoop]).

    Conventions.
    - C++ [int] and [int64_t] values are [Z]; the only cast the code
      performs ([static_cast<size_t>]) is written out as a reduction
      modulo 2^64.
    - Everything the operating system decides (how many bytes a socket
      accepts or delivers at a call, whether connect/bind/listen/accept
      succeed, which socket the multiplexer reports) is an explicit
      script consumed call by call.  A loop that needs one more answer
      than the script holds ends as [Pending]: it is still blocked.
    - [CHECK_*] failures and [LOG(FATAL)] end a run as [Fatal]; an
      exception of the C++ library that leaves the function ends it as
      [Thrown]; C++ undefined behaviour (null dereference, division by
      zero, indexing past the end of a vector) ends it as [Undefined]. *)

From Stdlib Require Import ZArith List Lia Ascii String.
From stdpp Require Import gmap strings list pretty.

Open Scope string_scope.
Open Scope list_scope.
Open Scope Z_scope.

(** ** Bytes and the native layout of [int64_t] *)

Definition byte_of_Z (z : Z) : Byte.byte :=
  default Byte.x00 (Byte.of_N (Z.to_N (z mod 256))).

Definition Z_of_byte (b : Byte.byte) : Z := Z.of_N (Byte.to_N b).

#[global] Instance byte_eq_dec : EqDecision Byte.byte := Byte.byte_eq_dec.

(** The object representation of an [int64_t] as [reinterpret_cast<char*>]
    sees it on the little-endian targets DGL is built for: eight bytes,
    least significant first, two's complement. *)
Definition int64_bytes (z : Z) : list Byte.byte :=
  map (fun i => byte_of_Z (Z.shiftr z (8 * i))) [0; 1; 2; 3; 4; 5; 6; 7].

Fixpoint unsigned_of_bytes (bs : list Byte.byte) : Z :=
  match bs with
  | [] => 0
  | b :: bs' => Z_of_byte b + 256 * unsigned_of_bytes bs'
  end.

(** Reading the eight bytes back as an [int64_t]. *)
Definition int64_of_bytes (bs : list Byte.byte) : Z :=
  let u := unsigned_of_bytes bs in
  if u <? 2 ^ 63 then u else u - 2 ^ 64.

(** [static_cast<size_t>(x)] for an [int64_t] x. *)
Definition to_size_t (x : Z) : Z := x mod 2 ^ 64.

(** ** Messages, status codes, events *)

(** [STATUS]: the codes of the queue's header that this file tests or
    passes through. *)
Inductive STATUS : Type :=
| ADD_SUCCESS
| QUEUE_CLOSE
| QUEUE_FULL
| REMOVE_SUCCESS
| QUEUE_EMPTY.

#[global] Instance STATUS_eq_dec : EqDecision STATUS.
Proof. solve_decision. Defined.

(** The deallocator of a [Message] is a [std::function]; it is modelled
    by its name, [None] being [nullptr]. *)
Record Message : Type := mkMessage {
  data : option (list Byte.byte);   (* char*: [None] is nullptr, [Some b] the buffer pointed to *)
  size : Z;                         (* int64_t *)
  receiver_id : Z;                  (* int *)
  deallocator : option string;
}.

#[global] Instance Message_eq_dec : EqDecision Message.
Proof. solve_decision. Defined.

(** A default-constructed [Message msg;]. *)
Definition Message_default : Message :=
  {| data := None; size := 0; receiver_id := 0; deallocator := None |}.

Definition set_size (m : Message) (n : Z) : Message :=
  {| data := data m; size := n; receiver_id := receiver_id m;
     deallocator := deallocator m |}.

Definition set_receiver_id (m : Message) (r : Z) : Message :=
  {| data := data m; size := size m; receiver_id := r;
     deallocator := deallocator m |}.

(** What a run does to the world outside of its own state. *)
Inductive event : Type :=
| EvSend (fd : Z) (bytes : list Byte.byte)  (* TCPSocket::Send accepted these bytes on socket fd *)
| EvDealloc (m : Message)                   (* msg.deallocator(&msg) *)
| EvAdd (sender : Z) (m : Message)          (* queues[sender]->Add(m) was called *)
| EvPost                                    (* queue_sem->Post() *)
| EvLog (level : string) (text : string).   (* LOG(INFO), LOG(WARNING) *)

#[global] Instance event_eq_dec : EqDecision event.
Proof. solve_decision. Defined.

(** ** Runs: a trace of events and how the run ended *)

Inductive ending (A : Type) : Type :=
| Done (a : A)
| Fatal (why : string)
| Thrown (what : string)
| Pending
| Undefined (why : string).

Arguments Done {A} a.
Arguments Fatal {A} why.
Arguments Thrown {A} what.
Arguments Pending {A}.
Arguments Undefined {A} why.

Definition ending_map {A B : Type} (f : A -> B) (e : ending A) : ending B :=
  match e with
  | Done a => Done (f a)
  | Fatal why => Fatal why
  | Thrown what => Thrown what
  | Pending => Pending
  | Undefined why => Undefined why
  end.

Definition run (A : Type) : Type := (list event * ending A)%type.

Definition ret {A : Type} (a : A) : run A := ([], Done a).
Definition emit (e : event) : run unit := ([e], Done tt).
Definition fatal {A : Type} (why : string) : run A := ([], Fatal why).
Definition pending {A : Type} : run A := ([], Pending).
Definition undefined {A : Type} (why : string) : run A := ([], Undefined why).
Definition thrown {A : Type} (what : string) : run A := ([], Thrown what).
Definition lift {A : Type} (e : ending A) : run A := ([], e).

Definition bind {A B : Type} (c : run A) (k : A -> run B) : run B :=
  match snd c with
  | Done a => (fst c ++ fst (k a), snd (k a))
  | Fatal why => (fst c, Fatal why)
  | Thrown what => (fst c, Thrown what)
  | Pending => (fst c, Pending)
  | Undefined why => (fst c, Undefined why)
  end.

Notation "x <- c ;; k" := (bind c (fun x => k))
  (at level 100, c at next level, right associativity).
Notation "c ;;; k" := (bind c (fun _ => k))
  (at level 100, right associativity).

Definition is_fatal {A : Type} (e : ending A) : Prop :=
  match e with Fatal _ => True | _ => False end.

Definition is_done {A : Type} (e : ending A) : Prop :=
  match e with Done _ => True | _ => False end.

(** ** The raw socket primitive *)

(** A [TCPSocket] as this file uses it.  [send_ready] scripts the
    outbound direction: at each [Send] call the head says how many bytes
    the kernel takes (a negative entry is the error return).  [inbound]
    holds the bytes travelling towards this endpoint that were not read
    yet and [recv_ready] scripts the inbound direction: how many of them
    have arrived at each [Receive] call (a negative entry: none, the call
    returns -1). *)
Record TCPSocket : Type := mkSocket {
  fd : Z;
  send_ready : list Z;
  inbound : list Byte.byte;
  recv_ready : list Z;
}.

Definition set_send_ready (s : TCPSocket) (r : list Z) : TCPSocket :=
  {| fd := fd s; send_ready := r; inbound := inbound s; recv_ready := recv_ready s |}.

Definition set_inbound (s : TCPSocket) (w : list Byte.byte) (r : list Z) : TCPSocket :=
  {| fd := fd s; send_ready := send_ready s; inbound := w; recv_ready := r |}.

(** Return value of [TCPSocket::Send(buf, len)] when the script says [r]. *)
Definition Send_result (r len : Z) : Z :=
  if r <? 0 then -1 else Z.min r len.

(** Return value of [TCPSocket::Receive(buf, len)] when the script says
    [r] and [avail] bytes are still on the wire. *)
Definition Receive_result (r len avail : Z) : Z :=
  if r <? 0 then -1 else Z.min (Z.min r len) avail.

(** Reading [len] bytes at offset [off] of the buffer a [char*] points to;
    [None] when the pointer is null or the range leaves the buffer. *)
Definition buf_read (p : option (list Byte.byte)) (off len : Z) : option (list Byte.byte) :=
  match p with
  | None => None
  | Some buf =>
      if (0 <=? off) && (0 <=? len) && (off + len <=? Z.of_nat (length buf))
      then Some (take (Z.to_nat len) (drop (Z.to_nat off) buf))
      else None
  end.

(** ** SendCore *)

Definition check_ne_failed : string := "Check failed: tmp != -1".

(** First loop of [SendCore]: the 8-byte size. *)
Fixpoint SendCore_size (sock_fd : Z) (msg_size : Z) (ready : list Z)
    (sent_bytes : Z) {struct ready} : run (list Z) :=
  if to_size_t sent_bytes <? 8 then
    match ready with
    | [] => pending
    | r :: ready' =>
        let max_len := 8 - sent_bytes in
        let tmp := Send_result r max_len in
        if tmp =? -1 then fatal check_ne_failed
        else
          emit (EvSend sock_fd
                  (take (Z.to_nat tmp) (drop (Z.to_nat sent_bytes) (int64_bytes msg_size)))) ;;;
          SendCore_size sock_fd msg_size ready' (sent_bytes + tmp)
    end
  else ret ready.

(** Second loop of [SendCore]: the payload. *)
Fixpoint SendCore_data (sock_fd : Z) (msg : Message) (ready : list Z)
    (sent_bytes : Z) {struct ready} : run (list Z) :=
  if sent_bytes <? size msg then
    match ready with
    | [] => pending
    | r :: ready' =>
        let max_len := size msg - sent_bytes in
        let tmp := Send_result r max_len in
        if tmp =? -1 then fatal check_ne_failed
        else
          match buf_read (data msg) sent_bytes tmp with
          | None => undefined "msg.data + sent_bytes read outside the buffer"
          | Some bs =>
              emit (EvSend sock_fd bs) ;;;
              SendCore_data sock_fd msg ready' (sent_bytes + tmp)
          end
    end
  else ret ready.

Definition SendCore (msg : Message) (socket : TCPSocket) : run TCPSocket :=
  ready1 <- SendCore_size (fd socket) (size msg) (send_ready socket) 0 ;;
  ready2 <- SendCore_data (fd socket) msg ready1 0 ;;
  match deallocator msg with
  | Some _ => emit (EvDealloc msg)
  | None => ret tt
  end ;;;
  ret (set_send_ready socket ready2).

(** ** RecvDataSize and RecvData *)

(** Storing [bs] at offset [off] of a buffer. *)
Definition buf_write (buf : list Byte.byte) (off : Z) (bs : list Byte.byte) : list Byte.byte :=
  take (Z.to_nat off) buf ++ bs ++ drop (Z.to_nat off + length bs) buf.

(** The loop of [RecvDataSize].  [repr] is the object representation of
    the local [data_size], which the received bytes overwrite in place;
    [wire] and [ready] are the socket's [inbound] and [recv_ready]. *)
Fixpoint RecvDataSize_loop (wire : list Byte.byte) (ready : list Z)
    (received_bytes : Z) (repr : list Byte.byte) {struct ready}
    : ending (Z * (list Byte.byte * list Z)) :=
  if to_size_t received_bytes <? 8 then
    match ready with
    | [] => Pending
    | r :: ready' =>
        let max_len := 8 - received_bytes in
        let tmp := Receive_result r max_len (Z.of_nat (length wire)) in
        if tmp =? -1 then
          if received_bytes >? 0 then
            RecvDataSize_loop wire ready' received_bytes repr
          else Done (-1, (wire, ready'))
        else
          RecvDataSize_loop (drop (Z.to_nat tmp) wire) ready'
            (received_bytes + tmp)
            (buf_write repr received_bytes (take (Z.to_nat tmp) wire))
    end
  else Done (int64_of_bytes repr, (wire, ready)).

Definition RecvDataSize (socket : TCPSocket) : ending (Z * TCPSocket) :=
  ending_map (fun '(n, (wire, ready)) => (n, set_inbound socket wire ready))
    (RecvDataSize_loop (inbound socket) (recv_ready socket) 0 (int64_bytes 0)).

(** Storing into the buffer a [char*] points to; [None] when the pointer
    is null or the bytes do not fit. *)
Definition ptr_write (p : option (list Byte.byte)) (off : Z) (bs : list Byte.byte)
    : option (list Byte.byte) :=
  match p with
  | None => None
  | Some buf =>
      if (0 <=? off) && (off + Z.of_nat (length bs) <=? Z.of_nat (length buf))
      then Some (buf_write buf off bs)
      else None
  end.

(** The loop of [RecvData]; returns the socket's new [inbound] and
    [recv_ready], the buffer and [*received_bytes]. *)
Fixpoint RecvData_loop (wire : list Byte.byte) (ready : list Z)
    (buffer : option (list Byte.byte)) (data_size received_bytes : Z)
    {struct ready}
    : ending ((list Byte.byte * list Z) * (option (list Byte.byte) * Z)) :=
  if received_bytes <? data_size then
    match ready with
    | [] => Pending
    | r :: ready' =>
        let max_len := data_size - received_bytes in
        let tmp := Receive_result r max_len (Z.of_nat (length wire)) in
        if tmp =? -1 then Done ((wire, ready'), (buffer, received_bytes))
        else
          match ptr_write buffer received_bytes (take (Z.to_nat tmp) wire) with
          | None => Undefined "buffer + *received_bytes written outside the buffer"
          | Some buffer' =>
              RecvData_loop (drop (Z.to_nat tmp) wire) ready' (Some buffer') data_size
                (received_bytes + tmp)
          end
    end
  else Done ((wire, ready), (buffer, received_bytes)).

Definition RecvData (socket : TCPSocket) (buffer : option (list Byte.byte))
    (data_size received_bytes : Z)
    : ending (TCPSocket * (option (list Byte.byte) * Z)) :=
  ending_map (fun '((wire, ready), out) => (set_inbound socket wire ready, out))
    (RecvData_loop (inbound socket) (recv_ready socket) buffer data_size received_bytes).

(** ** The message queue *)

(** Modelled from the spec: [MessageQueue] is declared in msg_queue.h,
    which is not among the source files; this is section 4.1.  A bounded
    FIFO ([capacity] 0 is unbounded) with a set of producers that have
    signalled they are finished; the queue is finished once all
    [num_producers] (default 1) have. *)
Record MessageQueue : Type := mkQueue {
  items : list Message;
  capacity : Z;
  num_producers : Z;
  finished_producers : gset Z;
}.

Definition MessageQueue_new (queue_size : Z) : MessageQueue :=
  {| items := []; capacity := queue_size; num_producers := 1;
     finished_producers := ∅ |}.

Definition set_items (q : MessageQueue) (l : list Message) : MessageQueue :=
  {| items := l; capacity := capacity q; num_producers := num_producers q;
     finished_producers := finished_producers q |}.

Definition queue_finished (q : MessageQueue) : bool :=
  num_producers q <=? Z.of_nat (base.size (finished_producers q)).

(** Modelled from the spec: [Add] fails with the closed status once the
    finished signal is recorded, blocks while the queue is full, and
    otherwise appends and returns OK. *)
Definition Queue_Add (q : MessageQueue) (msg : Message) : ending (STATUS * MessageQueue) :=
  if queue_finished q then Done (QUEUE_CLOSE, q)
  else if (0 <? capacity q) && (capacity q <=? Z.of_nat (length (items q)))
  then Pending
  else Done (ADD_SUCCESS, set_items q (items q ++ [msg])).

(** Modelled from the spec: [Remove(out, blocking)].  Not blocking and
    empty: [QUEUE_EMPTY] at once.  Blocking and empty: [QUEUE_CLOSE] when
    finished, suspended otherwise.  Not empty: the oldest item is popped
    into [out]. *)
Definition Queue_Remove (q : MessageQueue) (out : Message) (is_blocking : bool)
    : ending (STATUS * Message * MessageQueue) :=
  match items q with
  | [] =>
      if negb is_blocking then Done (QUEUE_EMPTY, out, q)
      else if queue_finished q then Done (QUEUE_CLOSE, out, q)
      else Pending
  | m :: rest => Done (REMOVE_SUCCESS, m, set_items q rest)
  end.

Definition Queue_Empty (q : MessageQueue) : bool :=
  match items q with [] => true | _ => false end.

Definition Queue_EmptyAndNoMoreAdd (q : MessageQueue) : bool :=
  Queue_Empty q && queue_finished q.

Definition Queue_SignalFinished (q : MessageQueue) (producer_id : Z) : MessageQueue :=
  {| items := items q; capacity := capacity q; num_producers := num_producers q;
     finished_producers := {[producer_id]} ∪ finished_producers q |}.

(** Queues keyed by sender id, in the iteration order of the
    [std::unordered_map] that holds them. *)
Fixpoint queue_lookup (id : Z) (qs : list (Z * MessageQueue)) : option MessageQueue :=
  match qs with
  | [] => None
  | (k, q) :: qs' => if k =? id then Some q else queue_lookup id qs'
  end.

Fixpoint queue_store (id : Z) (q : MessageQueue) (qs : list (Z * MessageQueue))
    : list (Z * MessageQueue) :=
  match qs with
  | [] => [(id, q)]
  | (k, q0) :: qs' =>
      if k =? id then (k, q) :: qs' else (k, q0) :: queue_store id q qs'
  end.

(** ** Addresses *)

Record IPAddr : Type := mkIPAddr { ip : string; port : Z }.

(** [ip << ":" << port] as the log lines print it. *)
Definition endpoint (a : IPAddr) : string :=
  (ip a ++ ":" ++ pretty (port a))%string.

(** [std::stoi]: leading white space is skipped, an optional sign and the
    longest run of decimal digits are converted; [std::invalid_argument]
    when there is no digit, [std::out_of_range] when the value does not
    fit an [int]. *)
Definition is_space (c : ascii) : bool :=
  let n := nat_of_ascii c in
  (n =? 32)%nat || ((9 <=? n)%nat && (n <=? 13)%nat).

Definition digit_of (c : ascii) : option Z :=
  let n := Z.of_nat (nat_of_ascii c) in
  if (48 <=? n) && (n <=? 57) then Some (n - 48) else None.

Fixpoint skip_spaces (s : string) : string :=
  match s with
  | String c s' => if is_space c then skip_spaces s' else s
  | EmptyString => s
  end.

Fixpoint digits_value (s : string) (acc : option Z) : option Z :=
  match s with
  | String c s' =>
      match digit_of c with
      | Some d => digits_value s' (Some (10 * default 0 acc + d))
      | None => acc
      end
  | EmptyString => acc
  end.

Definition stoi (s : string) : ending Z :=
  let s1 := skip_spaces s in
  let '(neg, s2) :=
    match s1 with
    | String "-" t => (true, t)
    | String "+" t => (false, t)
    | _ => (false, s1)
    end in
  match digits_value s2 None with
  | None => Thrown "std::invalid_argument: stoi"
  | Some v =>
      let n := if neg then - v else v in
      if (- 2 ^ 31 <=? n) && (n <? 2 ^ 31) then Done n
      else Thrown "std::out_of_range: stoi"
  end.

Definition address_format_error (addr : string) : string :=
  ("Incorrect address format:" ++ addr ++
   " Please provide right address format, e.g, 'socket://127.0.0.1:50051'. ")%string.

(** The address check that [AddReceiver] (lines 35-53) and [Wait] (lines
    192-209) both carry, word for word.  [SplitStringUsing] is defined in
    a file that is not among the sources and is a parameter here: it
    returns the pieces it appends to the (empty) vector. *)
Definition parse_address (SplitStringUsing : string -> string -> list string)
    (addr : string) : run IPAddr :=
  let substring := SplitStringUsing addr "//" in
  match substring with
  | [] => undefined "substring[0] of an empty vector"
  | scheme :: _ =>
      if negb (String.eqb scheme "socket:") || negb (Nat.eqb (length substring) 2)
      then fatal (address_format_error addr)
      else
        let ip_and_port := SplitStringUsing (default "" (substring !! 1%nat)) ":" in
        if negb (Nat.eqb (length ip_and_port) 2)
        then fatal (address_format_error addr)
        else
          p <- lift (stoi (default "" (ip_and_port !! 1%nat))) ;;
          ret {| ip := default "" (ip_and_port !! 0%nat); port := p |}
  end.

(** Modelled from the spec: [SplitStringUsing] itself, for running the
    address check on concrete strings.  The pieces of [full] between the
    occurrences of the delimiter string [delim] ("[//]-delimited
    segments", "[:]-delimited split"). *)
Fixpoint is_prefix (p s : string) : bool :=
  match p, s with
  | EmptyString, _ => true
  | String a p', String b s' => Ascii.eqb a b && is_prefix p' s'
  | String _ _, EmptyString => false
  end.

Fixpoint split_at_delim (delim : string) (skip : nat) (cur : string) (s : string)
    : list string :=
  match s with
  | EmptyString => [cur]
  | String c s' =>
      match skip with
      | S k => split_at_delim delim k cur s'
      | O =>
          if is_prefix delim s
          then cur :: split_at_delim delim (String.length delim - 1) "" s'
          else split_at_delim delim O (cur ++ String c "")%string s'
      end
  end.

Definition split_on_delimiter (full delim : string) : list string :=
  split_at_delim delim O "" full.

(** [std::vector::resize(n)] with an [int] argument: a negative [n]
    converts to a [size_t] beyond [max_size()]. *)
Definition vector_resize {A : Type} (n : Z) (dflt : A) (v : list A) : ending (list A) :=
  if n <? 0 then Thrown "std::length_error: vector::resize"
  else Done (take (Z.to_nat n) v ++ replicate (Z.to_nat n - length v) dflt).

(** The shard count both sides choose from the configured thread count
    and the number of peers (lines 60-62 and 213-215). *)
Definition adjust_thread_count (max_thread_count count : Z) : Z :=
  if (max_thread_count =? 0) || (max_thread_count >? count) then count
  else max_thread_count.

(** * SocketSender *)

Module Sender.

Record SocketSender : Type := mkSender {
  receiver_addrs_ : gmap Z IPAddr;
  max_thread_count_ : Z;
  queue_size_ : Z;
  sockets_ : list (gmap Z TCPSocket);
  msg_queue_ : list MessageQueue;
  (* one entry per thread: the socket map handed to its SendLoop and the
     index of its queue in [msg_queue_] *)
  threads_ : list (gmap Z TCPSocket * nat);
}.

(** Modelled from the spec: the constructor is in the header, which is
    not among the sources; section 6 gives the configuration (thread
    count, default 0 meaning one per peer, and queue capacity). *)
Definition SocketSender_new (queue_size max_thread_count : Z) : SocketSender :=
  {| receiver_addrs_ := ∅; max_thread_count_ := max_thread_count;
     queue_size_ := queue_size; sockets_ := []; msg_queue_ := [];
     threads_ := [] |}.

Definition AddReceiver (SplitStringUsing : string -> string -> list string)
    (addr : option string) (recv_id : Z) (s : SocketSender) : run SocketSender :=
  match addr with
  | None => fatal "Check notnull: addr"
  | Some a =>
      if recv_id <? 0 then fatal "recv_id cannot be a negative number."
      else
        address <- parse_address SplitStringUsing a ;;
        ret {| receiver_addrs_ := <[recv_id := address]> (receiver_addrs_ s);
               max_thread_count_ := max_thread_count_ s;
               queue_size_ := queue_size_ s; sockets_ := sockets_ s;
               msg_queue_ := msg_queue_ s; threads_ := threads_ s |}
  end.

(** The retry loop of [Connect] (lines 73-88) for one receiver.
    [script] holds the results of the successive
    [client_socket->Connect(ip, port)] calls; the sleeps are not modelled. *)
Fixpoint Connect_retry (kMaxTryCount : Z) (a : IPAddr) (script : list bool)
    (try_count : Z) {struct script} : run (bool * list bool) :=
  if try_count <? kMaxTryCount then
    match script with
    | [] => pending
    | true :: script' => ret (true, script')
    | false :: script' =>
        (if (Z.rem try_count 200 =? 0) && negb (try_count =? 0)
         then emit (EvLog "INFO" ("Try to connect to: " ++ endpoint a)%string)
         else ret tt) ;;;
        Connect_retry kMaxTryCount a script' (try_count + 1)
    end
  else ret (false, script).

(** The loop over [receiver_addrs_] (lines 64-92).  [new_socket] gives
    the socket [std::make_shared<TCPSocket>()] creates for a receiver. *)
Fixpoint Connect_sockets (kMaxTryCount : Z) (new_socket : Z -> TCPSocket)
    (max_thread_count : Z) (rs : list (Z * IPAddr))
    (sockets : list (gmap Z TCPSocket)) (script : list bool) {struct rs}
    : run (bool * (list (gmap Z TCPSocket) * list bool)) :=
  match rs with
  | [] => ret (true, (sockets, script))
  | (receiver_id, a) :: rs' =>
      if max_thread_count =? 0 then undefined "receiver_id % 0"
      else
        let thread_id := Z.rem receiver_id max_thread_count in
        if thread_id <? 0 then undefined "sockets_[thread_id] with a negative index"
        else
          match sockets !! Z.to_nat thread_id with
          | None => undefined "sockets_[thread_id] past the end"
          | Some m =>
              let sockets1 :=
                <[Z.to_nat thread_id := <[receiver_id := new_socket receiver_id]> m]> sockets in
              r <- Connect_retry kMaxTryCount a script 0 ;;
              if fst r
              then Connect_sockets kMaxTryCount new_socket max_thread_count rs'
                     sockets1 (snd r)
              else ret (false, (sockets1, snd r))
          end
  end.

(** The loop that creates one queue and one thread per shard (lines
    94-101); [n] counts the iterations left. *)
Fixpoint Connect_threads (n : nat) (thread_id : Z) (queue_size : Z)
    (sockets : list (gmap Z TCPSocket)) (msg_queue : list MessageQueue)
    (threads : list (gmap Z TCPSocket * nat)) {struct n}
    : run (list MessageQueue * list (gmap Z TCPSocket * nat)) :=
  match n with
  | O => ret (msg_queue, threads)
  | S n' =>
      let msg_queue1 := msg_queue ++ [MessageQueue_new queue_size] in
      match sockets !! Z.to_nat thread_id, msg_queue1 !! Z.to_nat thread_id with
      | Some m, Some _ =>
          Connect_threads n' (thread_id + 1) queue_size sockets msg_queue1
            (threads ++ [(m, Z.to_nat thread_id)])
      | _, _ => undefined "sockets_[thread_id] or msg_queue_[thread_id] past the end"
      end
  end.

Definition Connect (kMaxTryCount : Z) (new_socket : Z -> TCPSocket)
    (script : list bool) (s : SocketSender) : run (bool * SocketSender) :=
  let receiver_count := Z.of_nat (base.size (receiver_addrs_ s)) in
  let max_thread_count := adjust_thread_count (max_thread_count_ s) receiver_count in
  sockets0 <- lift (vector_resize max_thread_count ∅ (sockets_ s)) ;;
  r <- Connect_sockets kMaxTryCount new_socket max_thread_count
         (map_to_list (receiver_addrs_ s)) sockets0 script ;;
  let s1 := {| receiver_addrs_ := receiver_addrs_ s;
               max_thread_count_ := max_thread_count;
               queue_size_ := queue_size_ s; sockets_ := fst (snd r);
               msg_queue_ := msg_queue_ s; threads_ := threads_ s |} in
  if fst r then
    qt <- Connect_threads (Z.to_nat max_thread_count) 0 (queue_size_ s)
            (sockets_ s1) (msg_queue_ s1) (threads_ s1) ;;
    ret (true, {| receiver_addrs_ := receiver_addrs_ s1;
                  max_thread_count_ := max_thread_count_ s1;
                  queue_size_ := queue_size_ s1; sockets_ := sockets_ s1;
                  msg_queue_ := fst qt; threads_ := snd qt |})
  else ret (false, s1).

Definition Send (msg : Message) (recv_id : Z) (s : SocketSender)
    : run (STATUS * SocketSender) :=
  match data msg with
  | None => fatal "Check notnull: msg.data"
  | Some _ =>
      if negb (size msg >? 0) then fatal "Check failed: msg.size > 0"
      else if negb (recv_id >=? 0) then fatal "Check failed: recv_id >= 0"
      else
        let msg1 := set_receiver_id msg recv_id in
        if max_thread_count_ s =? 0 then undefined "recv_id % 0"
        else
          let i := Z.rem recv_id (max_thread_count_ s) in
          if i <? 0 then undefined "msg_queue_[i] with a negative index"
          else
            match msg_queue_ s !! Z.to_nat i with
            | None => undefined "msg_queue_[i] past the end"
            | Some q =>
                r <- lift (Queue_Add q msg1) ;;
                ret (fst r,
                     {| receiver_addrs_ := receiver_addrs_ s;
                        max_thread_count_ := max_thread_count_ s;
                        queue_size_ := queue_size_ s; sockets_ := sockets_ s;
                        msg_queue_ := <[Z.to_nat i := snd r]> (msg_queue_ s);
                        threads_ := threads_ s |})
            end
  end.

(** The [QUEUE_CLOSE] branch of [SendLoop]: the end signal goes to each
    socket of the map in turn. *)
Fixpoint SendLoop_close (msg : Message) (l : list (Z * TCPSocket))
    (sockets : gmap Z TCPSocket) {struct l} : run (gmap Z TCPSocket) :=
  match l with
  | [] => ret sockets
  | (id, socket) :: l' =>
      socket' <- SendCore msg socket ;;
      SendLoop_close msg l' (<[id := socket']> sockets)
  end.

(** [SendLoop].  [removes] holds what the successive blocking
    [queue->Remove(&msg)] calls give: the status and the content of
    [msg] after the call. *)
Fixpoint SendLoop (sockets : gmap Z TCPSocket) (removes : list (STATUS * Message))
    {struct removes} : run (gmap Z TCPSocket) :=
  match removes with
  | [] => pending
  | (code, msg) :: removes' =>
      if decide (code = QUEUE_CLOSE)
      then SendLoop_close (set_size msg 0) (map_to_list sockets) sockets
      else
        match sockets !! receiver_id msg with
        | None => undefined "SendCore on the null socket that sockets[msg.receiver_id] inserted"
        | Some socket =>
            socket' <- SendCore msg socket ;;
            SendLoop (<[receiver_id msg := socket']> sockets) removes'
        end
  end.

(** What the blocking [Remove] calls of a [SendLoop] give on a queue that
    no producer touches any more: its items in order, then [QUEUE_CLOSE]
    if it is finished. *)
Definition drain (q : MessageQueue) : list (STATUS * Message) :=
  map (fun m => (REMOVE_SUCCESS, m)) (items q) ++
  (if queue_finished q then [(QUEUE_CLOSE, Message_default)] else []).

(** The first loop of [Finalize] (lines 118-131): for each queue in
    turn, wait until it is empty, then signal that producer 0 has
    finished.  A queue that is not empty is emptied by its [SendLoop]
    thread only: taken alone, the loop waits.  The join of the threads
    and the [Close] of the sockets (lines 132-141) are not part of this
    definition.  [n] counts the iterations left and [i] is the loop
    variable. *)
Fixpoint Finalize_queues (n : nat) (i : Z) (msg_queue : list MessageQueue)
    {struct n} : ending (list MessageQueue) :=
  match n with
  | O => Done msg_queue
  | S n' =>
      match msg_queue !! Z.to_nat i with
      | None => Undefined "msg_queue_[i] past the end"
      | Some mq =>
          if Queue_Empty mq
          then Finalize_queues n' (i + 1)
                 (<[Z.to_nat i := Queue_SignalFinished mq 0]> msg_queue)
          else Pending
      end
  end.

End Sender.

(** * SocketReceiver *)

Module Receiver.

Record SocketReceiver : Type := mkReceiver {
  num_sender_ : Z;
  max_thread_count_ : Z;
  queue_size_ : Z;
  sockets_ : list (gmap Z TCPSocket);
  (* std::unordered_map<int, std::shared_ptr<MessageQueue>>, in iteration order *)
  msg_queue_ : list (Z * MessageQueue);
  (* the iterator mq_iter_ as a position in [msg_queue_]; end() is [length msg_queue_] *)
  mq_iter_ : nat;
  (* the count of the semaphore queue_sem_ *)
  queue_sem_ : Z;
  (* one entry per thread: the socket map handed to its RecvLoop *)
  threads_ : list (gmap Z TCPSocket);
}.

(** Modelled from the spec: the constructor is in the header, which is
    not among the sources; section 6 gives the configuration. *)
Definition SocketReceiver_new (queue_size max_thread_count : Z) : SocketReceiver :=
  {| num_sender_ := 0; max_thread_count_ := max_thread_count;
     queue_size_ := queue_size; sockets_ := []; msg_queue_ := [];
     mq_iter_ := 0%nat; queue_sem_ := 0; threads_ := [] |}.

(** What the operating system answers during [Wait]: whether [Bind] and
    [Listen] succeed, and for each [Accept] call the connected socket, or
    [None] when the call fails. *)
Record WaitEnv : Type := mkWaitEnv {
  bind_ok : bool;
  listen_ok : bool;
  accepts : list (option TCPSocket);
}.

(** A socket that [std::make_shared<TCPSocket>()] created and no
    [Accept] filled in. *)
Definition unconnected : TCPSocket :=
  {| fd := -1; send_ready := []; inbound := []; recv_ready := [] |}.

(** The accept loop of [Wait] (lines 234-243); [n] counts the iterations
    left and [i] is the loop variable. *)
Fixpoint Wait_accept (n : nat) (i : Z) (max_thread_count queue_size : Z)
    (acc : list (option TCPSocket)) (sockets : list (gmap Z TCPSocket))
    (msg_queue : list (Z * MessageQueue)) {struct n}
    : run (bool * (list (gmap Z TCPSocket) * list (Z * MessageQueue))) :=
  match n with
  | O => ret (true, (sockets, msg_queue))
  | S n' =>
      if max_thread_count =? 0 then undefined "i % 0"
      else
        let thread_id := Z.rem i max_thread_count in
        if thread_id <? 0 then undefined "sockets_[thread_id] with a negative index"
        else
          match sockets !! Z.to_nat thread_id with
          | None => undefined "sockets_[thread_id] past the end"
          | Some m =>
              let msg_queue1 := queue_store i (MessageQueue_new queue_size) msg_queue in
              match acc with
              | [] => pending
              | None :: _ =>
                  emit (EvLog "WARNING" "Error on accept socket.") ;;;
                  ret (false,
                       (<[Z.to_nat thread_id := <[i := unconnected]> m]> sockets,
                        msg_queue1))
              | Some socket :: acc' =>
                  Wait_accept n' (i + 1) max_thread_count queue_size acc'
                    (<[Z.to_nat thread_id := <[i := socket]> m]> sockets) msg_queue1
              end
          end
  end.

(** The loop that starts one thread per shard (lines 246-253). *)
Fixpoint Wait_threads (n : nat) (thread_id : Z) (sockets : list (gmap Z TCPSocket))
    (threads : list (gmap Z TCPSocket)) {struct n} : run (list (gmap Z TCPSocket)) :=
  match n with
  | O => ret threads
  | S n' =>
      match sockets !! Z.to_nat thread_id with
      | Some m => Wait_threads n' (thread_id + 1) sockets (threads ++ [m])
      | None => undefined "sockets_[thread_id] past the end"
      end
  end.

(** [Wait].  [USE_EPOLL] is the build flag of lines 212-218. *)
Definition Wait (USE_EPOLL : bool)
    (SplitStringUsing : string -> string -> list string) (env : WaitEnv)
    (addr : option string) (num_sender : Z) (r : SocketReceiver)
    : run (bool * SocketReceiver) :=
  match addr with
  | None => fatal "Check notnull: addr"
  | Some a =>
      if negb (num_sender >? 0) then fatal "Check failed: num_sender > 0"
      else
        address <- parse_address SplitStringUsing a ;;
        let max_thread_count :=
          if USE_EPOLL then adjust_thread_count (max_thread_count_ r) num_sender
          else num_sender in
        if negb (bind_ok env)
        then fatal ("Cannot bind to " ++ endpoint address)%string
        else if negb (listen_ok env)
        then fatal ("Cannot listen on " ++ endpoint address)%string
        else
          sockets0 <- lift (vector_resize max_thread_count ∅ (sockets_ r)) ;;
          acc <- Wait_accept (Z.to_nat num_sender) 0 max_thread_count (queue_size_ r)
                   (accepts env) sockets0 (msg_queue_ r) ;;
          let r1 := {| num_sender_ := num_sender;
                       max_thread_count_ := max_thread_count;
                       queue_size_ := queue_size_ r;
                       sockets_ := fst (snd acc); msg_queue_ := snd (snd acc);
                       mq_iter_ := mq_iter_ r; queue_sem_ := queue_sem_ r;
                       threads_ := threads_ r |} in
          if fst acc then
            threads <- Wait_threads (Z.to_nat max_thread_count) 0 (sockets_ r1)
                         (threads_ r1) ;;
            ret (true,
                 {| num_sender_ := num_sender_ r1;
                    max_thread_count_ := max_thread_count_ r1;
                    queue_size_ := queue_size_ r1; sockets_ := sockets_ r1;
                    msg_queue_ := msg_queue_ r1; mq_iter_ := 0%nat;
                    queue_sem_ := queue_sem_ r1; threads_ := threads |})
          else ret (false, r1)
  end.

Definition set_queues (r : SocketReceiver) (qs : list (Z * MessageQueue))
    (it : nat) (sem : Z) : SocketReceiver :=
  {| num_sender_ := num_sender_ r; max_thread_count_ := max_thread_count_ r;
     queue_size_ := queue_size_ r; sockets_ := sockets_ r;
     msg_queue_ := qs; mq_iter_ := it; queue_sem_ := sem;
     threads_ := threads_ r |}.

(** The two nested loops of [Recv] (lines 264-276), one iterator step or
    one wrap-around per unit of [fuel]; out of fuel the scan is still
    running. *)
Fixpoint Recv_scan (fuel : nat) (qs : list (Z * MessageQueue)) (it : nat)
    (msg : Message) {struct fuel}
    : ending (STATUS * Message * Z * (list (Z * MessageQueue) * nat)) :=
  match fuel with
  | O => Pending
  | S fuel' =>
      match qs !! it with
      | None => Recv_scan fuel' qs 0%nat msg
      | Some (id, q) =>
          match Queue_Remove q msg false with
          | Done (code, msg', q') =>
              let qs' := <[it := (id, q')]> qs in
              if decide (code = QUEUE_EMPTY)
              then Recv_scan fuel' qs' (S it) msg'
              else Done (code, msg', id, (qs', S it))
          | Fatal why => Fatal why
          | Thrown what => Thrown what
          | Pending => Pending
          | Undefined why => Undefined why
          end
      end
  end.

(** [Recv]: the new [*msg] and [*send_id] come with the status. *)
Definition Recv (fuel : nat) (msg : Message) (r : SocketReceiver)
    : ending (STATUS * Message * Z * SocketReceiver) :=
  if queue_sem_ r <=? 0 then Pending
  else
    ending_map
      (fun '(code, msg', id, (qs, it)) =>
         (code, msg', id, set_queues r qs it (queue_sem_ r - 1)))
      (Recv_scan fuel (msg_queue_ r) (mq_iter_ r) msg).

Definition RecvFrom (msg : Message) (send_id : Z) (r : SocketReceiver)
    : ending (STATUS * Message * SocketReceiver) :=
  if queue_sem_ r <=? 0 then Pending
  else
    match queue_lookup send_id (msg_queue_ r) with
    | None => Undefined "Remove on the null queue that msg_queue_[send_id] inserted"
    | Some q =>
        ending_map
          (fun '(code, msg', q') =>
             (code, msg',
              set_queues r (queue_store send_id q' (msg_queue_ r)) (mq_iter_ r)
                (queue_sem_ r - 1)))
          (Queue_Remove q msg true)
    end.

(** Modelled from the spec: [RecvContext] is declared in the header,
    which is not among the sources; section 3: the expected size with the
    sentinel -1 for "awaiting new frame header", the bytes so far, and a
    buffer allocated once the size is known. *)
Record RecvContext : Type := mkRecvContext {
  data_size : Z;
  received_bytes : Z;
  buffer : option (list Byte.byte);
}.

Definition RecvContext_new : RecvContext :=
  {| data_size := -1; received_bytes := 0; buffer := None |}.

(** Modelled from the spec: [SocketPool] is declared in socket_pool.h,
    which is not among the source files; this is section 4.3.
    [AddSocket] registers a socket, [RemoveSocket] deregisters it and
    returns how many remain, [GetActiveSocket] reports one ready socket.
    The pool is the set [w_pool] of the sender ids it monitors, and
    which socket it reports at each call is given by a schedule.

    The record is what one [RecvLoop] thread works on: its copy of the
    socket map, the queues and the semaphore it shares with the
    consumer, its receive contexts, and its pool. *)
Record RecvWorld : Type := mkRecvWorld {
  w_sockets : gmap Z TCPSocket;
  w_queues : list (Z * MessageQueue);
  w_sem : Z;
  w_contexts : gmap Z RecvContext;
  w_pool : gset Z;
}.

(** Modelled from the spec: [SocketPool::RemoveSocket] deregisters the
    socket and returns how many sockets remain monitored. *)
Definition SocketPool_RemoveSocket (pool : gset Z) (sender_id : Z) : Z * gset Z :=
  let pool' := pool ∖ {[sender_id]} in
  (Z.of_nat (base.size pool'), pool').

(** How an iteration of a [for (;;)] body ends. *)
Inductive step (A : Type) : Type :=
| Continue (a : A)
| Return (a : A).

Arguments Continue {A} a.
Arguments Return {A} a.

(** Lines 354-358: every socket of the map is added to the pool and gets
    a fresh context. *)
Definition RecvLoop_init (sockets : gmap Z TCPSocket)
    (queues : list (Z * MessageQueue)) (sem : Z) : RecvWorld :=
  {| w_sockets := sockets; w_queues := queues; w_sem := sem;
     w_contexts := (fun _ => RecvContext_new) <$> sockets;
     w_pool := dom sockets |}.

(** Lines 380-397: the size of a new message.  [max_alloc] is the largest
    [new char[n]] that succeeds. *)
Definition RecvLoop_header (max_alloc : Z) (sender_id : Z) (socket : TCPSocket)
    (ctx : RecvContext) (pool : gset Z)
    : run (step (TCPSocket * RecvContext * gset Z)) :=
  if data_size ctx =? -1 then
    r <- lift (RecvDataSize socket) ;;
    let n := fst r in
    if n >? 0 then
      if n >? max_alloc
      then fatal "Cannot allocate enough memory for message"
      else ret (Continue (snd r,
                          {| data_size := n; received_bytes := 0;
                             buffer := Some (replicate (Z.to_nat n) Byte.x00) |},
                          pool))
    else if n =? 0 then
      let rm := SocketPool_RemoveSocket pool sender_id in
      let ctx' := {| data_size := n; received_bytes := received_bytes ctx;
                     buffer := buffer ctx |} in
      if fst rm =? 0 then ret (Return (snd r, ctx', snd rm))
      else ret (Continue (snd r, ctx', snd rm))
    else
      ret (Continue (snd r,
                     {| data_size := n; received_bytes := received_bytes ctx;
                        buffer := buffer ctx |},
                     pool))
  else ret (Continue (socket, ctx, pool)).

(** Lines 399-413: more payload, and the message once it is complete. *)
Definition RecvLoop_payload (sender_id : Z) (socket : TCPSocket)
    (ctx : RecvContext) (pool : gset Z) (q : MessageQueue) (w : RecvWorld)
    : run RecvWorld :=
  rd <- lift (RecvData socket (buffer ctx) (data_size ctx) (received_bytes ctx)) ;;
  let socket' := fst rd in
  let buffer' := fst (snd rd) in
  let received' := snd (snd rd) in
  if received' >=? data_size ctx then
    let msg := {| data := buffer'; size := data_size ctx;
                  receiver_id := receiver_id Message_default;
                  deallocator := Some "DefaultMessageDeleter" |} in
    emit (EvAdd sender_id msg) ;;;
    added <- lift (Queue_Add q msg) ;;
    emit EvPost ;;;
    ret {| w_sockets := <[sender_id := socket']> (w_sockets w);
           w_queues := queue_store sender_id (snd added) (w_queues w);
           w_sem := w_sem w + 1;
           w_contexts :=
             <[sender_id := {| data_size := -1; received_bytes := received';
                               buffer := buffer' |}]> (w_contexts w);
           w_pool := pool |}
  else
    ret {| w_sockets := <[sender_id := socket']> (w_sockets w);
           w_queues := w_queues w; w_sem := w_sem w;
           w_contexts :=
             <[sender_id := {| data_size := data_size ctx;
                               received_bytes := received';
                               buffer := buffer' |}]> (w_contexts w);
           w_pool := pool |}.

(** One iteration of the main loop (lines 361-414) for the socket
    [GetActiveSocket] reported. *)
Definition RecvLoop_body (max_alloc : Z) (sender_id : Z) (w : RecvWorld)
    : run (step RecvWorld) :=
  match w_sockets w !! sender_id, queue_lookup sender_id (w_queues w),
        w_contexts w !! sender_id with
  | Some socket, Some q, Some ctx =>
      if Queue_EmptyAndNoMoreAdd q then
        let rm := SocketPool_RemoveSocket (w_pool w) sender_id in
        let w' := {| w_sockets := w_sockets w; w_queues := w_queues w;
                     w_sem := w_sem w; w_contexts := w_contexts w;
                     w_pool := snd rm |} in
        if fst rm =? 0 then ret (Return w') else ret (Continue w')
      else
        h <- RecvLoop_header max_alloc sender_id socket ctx (w_pool w) ;;
        match h with
        | Return (socket', ctx', pool') =>
            ret (Return {| w_sockets := <[sender_id := socket']> (w_sockets w);
                           w_queues := w_queues w; w_sem := w_sem w;
                           w_contexts := <[sender_id := ctx']> (w_contexts w);
                           w_pool := pool' |})
        | Continue (socket', ctx', pool') =>
            w' <- RecvLoop_payload sender_id socket' ctx' pool' q w ;;
            ret (Continue w')
        end
  | _, _, _ => undefined "null socket, queue or context for sender_id"
  end.

(** The main loop; [schedule] holds the sender ids the successive
    [GetActiveSocket] calls report. *)
Fixpoint RecvLoop_main (max_alloc : Z) (schedule : list Z) (w : RecvWorld)
    {struct schedule} : run RecvWorld :=
  match schedule with
  | [] => pending
  | sender_id :: schedule' =>
      s <- RecvLoop_body max_alloc sender_id w ;;
      match s with
      | Return w' => ret w'
      | Continue w' => RecvLoop_main max_alloc schedule' w'
      end
  end.

Definition RecvLoop (max_alloc : Z) (schedule : list Z)
    (sockets : gmap Z TCPSocket) (queues : list (Z * MessageQueue)) (queue_sem : Z)
    : run RecvWorld :=
  RecvLoop_main max_alloc schedule (RecvLoop_init sockets queues queue_sem).

(** The first loop of [Finalize] (lines 288-298): for each queue in
    iteration order, wait until it is empty, then signal that the
    producer with the sender's id has finished.  Taken alone, the loop
    waits on a queue that is not empty.  The join of the threads and the
    [Close] of the sockets (lines 299-310) are not part of this
    definition. *)
Fixpoint Finalize_queues (msg_queue : list (Z * MessageQueue))
    : ending (list (Z * MessageQueue)) :=
  match msg_queue with
  | [] => Done []
  | (id, mq) :: msg_queue' =>
      if Queue_Empty mq
      then ending_map (cons (id, Queue_SignalFinished mq id))
             (Finalize_queues msg_queue')
      else Pending
  end.

End Receiver.

(** * Vocabulary of the statements *)

(** How many entries of a send or receive script let at least one byte
    through. *)
Definition count_positive (ready : list Z) : Z :=
  Z.of_nat (length (List.filter (fun r => 0 <? r) ready)).

(** The deallocator call at the end of [SendCore], if there is one. *)
Definition dealloc_events (msg : Message) : list event :=
  match deallocator msg with
  | Some _ => [EvDealloc msg]
  | None => []
  end.

(** The bytes a message carries: the first [size] bytes of its buffer. *)
Definition payload (msg : Message) : list Byte.byte :=
  take (Z.to_nat (size msg)) (default [] (data msg)).

(** The events of a trace that are writes on a socket. *)
Definition sends (sock_fd : Z) (chunks : list (list Byte.byte)) : list event :=
  map (EvSend sock_fd) chunks.

(** The very first [Receive] attempt of a socket yields nothing: it
    returns -1. *)
Definition first_attempt_yields_nothing (socket : TCPSocket) : Prop :=
  exists r rest, recv_ready socket = r :: rest /\ r < 0.

(** A [Receive] attempt returns -1 while no byte of the size field was
    accumulated: the attempts before it, if any, all returned 0 bytes.
    [rest] is the script left after that attempt. *)
Definition gives_up_before_any_byte (socket : TCPSocket) (rest : list Z) : Prop :=
  exists zeros r,
    recv_ready socket = zeros ++ r :: rest /\ r < 0 /\
    Forall (fun z => Receive_result z 8 (Z.of_nat (length (inbound socket))) = 0) zeros.

(** A socket lets a whole size field through: it never fails and takes
    at least one byte at eight calls or more. *)
Definition takes_size_field (s : TCPSocket) : Prop :=
  Forall (fun r => 0 <= r) (send_ready s) /\ 8 <= count_positive (send_ready s).

(** The trace [t] is one end-of-stream frame on socket [s]: writes on [s]
    that add up to the eight bytes of the size 0 and no payload byte,
    followed by the deallocator call of [SendCore] if [msg] has one. *)
Definition end_of_stream_frame (msg : Message) (s : TCPSocket) (t : list event) : Prop :=
  exists chunks,
    t = sends (fd s) chunks ++ dealloc_events (set_size msg 0) /\
    concat chunks = int64_bytes 0.

(** The positions [Recv] visits in one round over [len] queues when its
    cursor is at [cursor]: from the cursor to the end, then from the
    beginning up to the cursor. *)
Definition scan_order (cursor len : nat) : list nat :=
  seq cursor (len - cursor) ++ seq 0 cursor.

(** The non-blocking [Remove] of a queue returns [QUEUE_EMPTY]. *)
Definition returns_empty (msg : Message) (q : MessageQueue) : Prop :=
  exists msg' q', Queue_Remove q msg false = Done (QUEUE_EMPTY, msg', q').

(** The socket stored for peer [id] in shard [shard] of a [sockets_]
    vector, if any. *)
Definition socket_at (sockets : list (gmap Z TCPSocket)) (shard : nat) (id : Z)
    : option TCPSocket :=
  match sockets !! shard with
  | Some m => m !! id
  | None => None
  end.

(** min(configured thread count, peer count), with a configured value
    of 0 meaning one shard per peer. *)
Definition shard_count (configured peers : Z) : Z :=
  if configured =? 0 then peers else Z.min configured peers.

(** A sender whose queues are replaced by [mq]. *)
Definition with_msg_queue (s : Sender.SocketSender) (mq : list MessageQueue)
    : Sender.SocketSender :=
  {| Sender.receiver_addrs_ := Sender.receiver_addrs_ s;
     Sender.max_thread_count_ := Sender.max_thread_count_ s;
     Sender.queue_size_ := Sender.queue_size_ s;
     Sender.sockets_ := Sender.sockets_ s;
     Sender.msg_queue_ := mq;
     Sender.threads_ := Sender.threads_ s |}.

(** A sender on which [Connect] was not called yet. *)
Definition not_connected (s : Sender.SocketSender) : Prop :=
  Sender.sockets_ s = [] /\ Sender.msg_queue_ s = [] /\ Sender.threads_ s = [].

(** The ids of the registered receivers are not negative, as
    [AddReceiver] checks. *)
Definition ids_nonnegative (s : Sender.SocketSender) : Prop :=
  forall r a, Sender.receiver_addrs_ s !! r = Some a -> 0 <= r.

(** The number of registered receivers. *)
Definition receiver_count (s : Sender.SocketSender) : Z :=
  Z.of_nat (base.size (Sender.receiver_addrs_ s)).

(** The shard count [Wait] chooses: with [USE_EPOLL] the same rule as
    the sender, without it one shard per sender. *)
Definition Wait_shard_count (USE_EPOLL : bool) (configured num_sender : Z) : Z :=
  if USE_EPOLL then shard_count configured num_sender else num_sender.

(** The value a run returned, without the state. *)
Definition returned {A B : Type} (c : run (A * B)) : ending A :=
  ending_map fst (snd c).

(** * Concrete inputs *)

(** The two bytes of "hi". *)
Definition hi : list Byte.byte := [Byte.x68; Byte.x69].

Definition msg_hi : Message :=
  {| data := Some hi; size := 2; receiver_id := 7;
     deallocator := Some "DefaultMessageDeleter" |}.

(** A socket that takes 3 bytes, then none, then as many as offered. *)
Definition slow_socket : TCPSocket :=
  {| fd := 5; send_ready := [3; 0; 100; 1; 1; 1; 1; 1; 1; 1; 1; 1];
     inbound := []; recv_ready := [] |}.

(** A socket that takes 3 bytes and then fails. *)
Definition broken_socket : TCPSocket :=
  {| fd := 5; send_ready := [3; -1; 100]; inbound := []; recv_ready := [] |}.

(** A socket on which the eight bytes 0xff arrive at once. *)
Definition all_ones_socket : TCPSocket :=
  {| fd := 6; send_ready := []; inbound := int64_bytes (-1); recv_ready := [8] |}.

(** A socket on which the size field 2 arrives in pieces of 3, 0 and
    five times 1 byte, with moments where nothing is there, followed by
    "hi". *)
Definition trickling_socket : TCPSocket :=
  {| fd := 6; send_ready := []; inbound := int64_bytes 2 ++ hi;
     recv_ready := [3; -1; 0; -1; 1; 1; 1; 1; 1; 2; 2] |}.

(** A socket whose first attempt yields nothing. *)
Definition idle_socket : TCPSocket :=
  {| fd := 6; send_ready := []; inbound := int64_bytes 2 ++ hi;
     recv_ready := [-1; 8] |}.

(** The sockets of a shard that owns the peers 7 and 9. *)
Definition shard_sockets : gmap Z TCPSocket :=
  <[7 := {| fd := 5; send_ready := [4; 4; 1; 1; 1; 1; 1; 1; 8; 8; 8];
            inbound := []; recv_ready := [] |}]>
    (<[9 := {| fd := 8; send_ready := [1; 1; 1; 1; 1; 1; 1; 1];
               inbound := []; recv_ready := [] |}]> ∅).

(** A receiver with three senders; the queues of the senders 4 and 6
    are empty, that of sender 5 holds "hi"; the cursor is on the last
    queue and two messages were announced. *)
Definition three_queues : Receiver.SocketReceiver :=
  {| Receiver.num_sender_ := 3; Receiver.max_thread_count_ := 3;
     Receiver.queue_size_ := 0; Receiver.sockets_ := [];
     Receiver.msg_queue_ :=
       [(4, MessageQueue_new 0);
        (5, set_items (MessageQueue_new 0) [msg_hi]);
        (6, MessageQueue_new 0)];
     Receiver.mq_iter_ := 2%nat; Receiver.queue_sem_ := 2;
     Receiver.threads_ := [] |}.

Definition localhost : IPAddr := {| ip := "127.0.0.1"; port := 50051 |}.

(** The socket created for a peer: its descriptor is 100 + the peer id
    and it takes every byte offered for a while. *)
Definition fresh_socket (id : Z) : TCPSocket :=
  {| fd := 100 + id; send_ready := [64; 64; 64; 64]; inbound := []; recv_ready := [] |}.

(** A sender configured for at most two threads, with the receivers 0, 1
    and 2 registered. *)
Definition sender3 : Sender.SocketSender :=
  {| Sender.receiver_addrs_ := <[0 := localhost]> (<[1 := localhost]> (<[2 := localhost]> ∅));
     Sender.max_thread_count_ := 2; Sender.queue_size_ := 0;
     Sender.sockets_ := []; Sender.msg_queue_ := []; Sender.threads_ := [] |}.

(** Its [Connect]: the first connection attempt fails, the next three
    succeed. *)
Definition connect3 : run (bool * Sender.SocketSender) :=
  Sender.Connect 1024 fresh_socket [false; true; true; true] sender3.

Definition connected3 : Sender.SocketSender :=
  match snd connect3 with
  | Done (_, s') => s'
  | _ => sender3
  end.

(** A receiver configured for one thread that waits for two senders, and
    an environment in which everything succeeds. *)
Definition receiver2 : Receiver.SocketReceiver := Receiver.SocketReceiver_new 0 1.

(** The connections the receiver accepts.  Sender 0 sends the frame of
    "hi" and then its end-of-stream frame; every other sender sends its
    end-of-stream frame only.  Each part arrives whole when it is read. *)
Definition accepted (id : Z) : TCPSocket :=
  if id =? 0
  then {| fd := 200; send_ready := [];
          inbound := int64_bytes 2 ++ hi ++ int64_bytes 0;
          recv_ready := [8; 2; 8] |}
  else {| fd := 200 + id; send_ready := [];
          inbound := int64_bytes 0; recv_ready := [8] |}.

Definition friendly_env : Receiver.WaitEnv :=
  {| Receiver.bind_ok := true; Receiver.listen_ok := true;
     Receiver.accepts := [Some (accepted 0); Some (accepted 1)] |}.

Definition wait2 : run (bool * Receiver.SocketReceiver) :=
  Receiver.Wait true split_on_delimiter friendly_env (Some "socket://127.0.0.1:50051")
    2 receiver2.

Definition waited2 : Receiver.SocketReceiver :=
  match snd wait2 with
  | Done (_, r') => r'
  | _ => receiver2
  end.

(** An environment in which the second [Accept] fails. *)
Definition refusing_env : Receiver.WaitEnv :=
  {| Receiver.bind_ok := true; Receiver.listen_ok := true;
     Receiver.accepts := [Some (accepted 0); None] |}.

(** Environments in which [Bind], respectively [Listen], fails. *)
Definition no_bind_env : Receiver.WaitEnv :=
  {| Receiver.bind_ok := false; Receiver.listen_ok := true; Receiver.accepts := [] |}.

Definition no_listen_env : Receiver.WaitEnv :=
  {| Receiver.bind_ok := true; Receiver.listen_ok := false; Receiver.accepts := [] |}.

(** The one [RecvLoop] thread of [waited2], which owns the sockets of
    both senders: the multiplexer reports sender 0 twice, then sender 1. *)
Definition recv_thread : run Receiver.RecvWorld :=
  Receiver.RecvLoop 4096 [0; 0; 1]
    (default ∅ (Receiver.threads_ waited2 !! 0%nat))
    (Receiver.msg_queue_ waited2) (Receiver.queue_sem_ waited2).

(** The receiver as the consumer finds it when that thread has ended. *)
Definition received2 : Receiver.SocketReceiver :=
  match snd recv_thread with
  | Done w =>
      Receiver.set_queues waited2 (Receiver.w_queues w) (Receiver.mq_iter_ waited2)
        (Receiver.w_sem w)
  | _ => waited2
  end.

(** The message made from the frame of "hi", and the one made from the
    end-of-stream frame. *)
Definition hi_received : Message :=
  {| data := Some hi; size := 2; receiver_id := 0;
     deallocator := Some "DefaultMessageDeleter" |}.

Definition zero_length_message : Message :=
  {| data := Some hi; size := 0; receiver_id := 0;
     deallocator := Some "DefaultMessageDeleter" |}.

(** * Vocabulary of the further properties *)

(** The bytes a trace wrote on the socket [sock_fd], in order. *)
Definition bytes_on (sock_fd : Z) (tr : list event) : list Byte.byte :=
  flat_map (fun e => match e with
                     | EvSend f bs => if f =? sock_fd then bs else []
                     | _ => []
                     end) tr.

(** The frame of a message on the wire: the eight bytes of its size,
    then its payload. *)
Definition frame_bytes (msg : Message) : list Byte.byte :=
  int64_bytes (size msg) ++ payload msg.

(** The buffer of a message is large enough for its size. *)
Definition buffer_holds_size (msg : Message) : Prop :=
  0 <= size msg /\ size msg <= Z.of_nat (length (default [] (data msg))).

(** A socket on which "hi" arrives one byte at a time, with a moment
    where nothing is there after the first byte. *)
Definition interrupted_socket : TCPSocket :=
  {| fd := 6; send_ready := []; inbound := hi; recv_ready := [1; -1; 1] |}.

(** A socket on which "hi" arrives one byte at a time. *)
Definition steady_socket : TCPSocket :=
  {| fd := 6; send_ready := []; inbound := hi; recv_ready := [1; 0; 1] |}.

(** A receiving socket on which the frame of "hi" and one more byte
    arrive one byte at a time. *)
Definition echo_socket : TCPSocket :=
  {| fd := 9; send_ready := [];
     inbound := int64_bytes 2 ++ hi ++ [Byte.x2a];
     recv_ready := [1; 1; 1; 1; 1; 1; 1; 1; 1; 1] |}.

(** The messages a [SendLoop] dispatches: those removed before the first
    [QUEUE_CLOSE]. *)
Fixpoint dispatched (removes : list (STATUS * Message)) : list Message :=
  match removes with
  | [] => []
  | (code, msg) :: removes' =>
      if decide (code = QUEUE_CLOSE) then [] else msg :: dispatched removes'
  end.

(** What a connection carries for peer [id] when the messages [msgs] were
    dispatched and the stream was ended: the frames of the messages
    tagged [id], in order, then the frame of size 0. *)
Definition stream_for (id : Z) (msgs : list Message) : list Byte.byte :=
  flat_map frame_bytes (List.filter (fun m => receiver_id m =? id) msgs)
  ++ int64_bytes 0.

(** No two sockets of a map share a descriptor. *)
Definition distinct_fds (sockets : gmap Z TCPSocket) : Prop :=
  forall i j si sj,
    sockets !! i = Some si -> sockets !! j = Some sj -> fd si = fd sj -> i = j.

(** A thread's state for the sender [sender_id] while the payload
    [frame_payload] of a frame is arriving: the size is known, the
    buffer has that many bytes, its first [received_bytes] bytes are the
    first bytes of the payload, and the rest of the payload is still on
    the wire, followed by [more]. *)
Definition receiving (frame_payload more : list Byte.byte) (socket : TCPSocket)
    (ctx : Receiver.RecvContext) : Prop :=
  exists buf,
    Receiver.buffer ctx = Some buf /\
    length buf = length frame_payload /\
    Receiver.data_size ctx = Z.of_nat (length frame_payload) /\
    0 <= Receiver.received_bytes ctx < Receiver.data_size ctx /\
    take (Z.to_nat (Receiver.received_bytes ctx)) buf
    = take (Z.to_nat (Receiver.received_bytes ctx)) frame_payload /\
    inbound socket
    = drop (Z.to_nat (Receiver.received_bytes ctx)) frame_payload ++ more.

(** The message [RecvLoop] builds from a buffer and a size. *)
Definition received_message (buffer : option (list Byte.byte)) (data_size : Z) : Message :=
  {| data := buffer; size := data_size; receiver_id := 0;
     deallocator := Some "DefaultMessageDeleter" |}.

(** An iteration handed the payload [frame_payload] to the queue of
    [sender_id], announced it, reset the context and left [more] on the
    wire. *)
Definition delivered (sender_id : Z) (frame_payload more : list Byte.byte)
    (tr : list event) (socket : TCPSocket) (ctx : Receiver.RecvContext) : Prop :=
  tr = [EvAdd sender_id
          (received_message (Some frame_payload) (Z.of_nat (length frame_payload)));
        EvPost] /\
  Receiver.data_size ctx = -1 /\
  inbound socket = more.

(** A trace is a sequence of pairs: a message added to a queue, then
    the semaphore posted. *)
Fixpoint adds_then_posts (tr : list event) : bool :=
  match tr with
  | [] => true
  | EvAdd _ _ :: EvPost :: tr' => adds_then_posts tr'
  | _ => false
  end.

(** The number of times a trace posts the semaphore. *)
Definition posts (tr : list event) : Z :=
  Z.of_nat (length (List.filter (fun e => match e with EvPost => true | _ => false end) tr)).

(** The senders whose queues a trace adds to. *)
Definition adders (tr : list event) : list Z :=
  flat_map (fun e => match e with EvAdd id _ => [id] | _ => [] end) tr.

(** The state of a thread that owns the one socket of sender 0, with a
    new unbounded queue. *)
Definition one_socket_world (socket : TCPSocket) : Receiver.RecvWorld :=
  Receiver.RecvLoop_init {[0 := socket]} [(0, MessageQueue_new 0)] 0.

(** The state of a thread for sender 0 after the first byte of "hi"
    arrived: the second byte and one byte of the next frame are on the
    wire. *)
Definition half_received_world : Receiver.RecvWorld :=
  {| Receiver.w_sockets :=
       {[0 := {| fd := 6; send_ready := [];
                 inbound := drop 1 hi ++ [Byte.x2a]; recv_ready := [1; 1] |}]};
     Receiver.w_queues := [(0, MessageQueue_new 0)];
     Receiver.w_sem := 0;
     Receiver.w_contexts :=
       {[0 := {| Receiver.data_size := 2; Receiver.received_bytes := 1;
                 Receiver.buffer := Some (take 1 hi ++ [Byte.x00]) |}]};
     Receiver.w_pool := {[0]} |}.

(** The number of positive multiples of 200 below [try_count]: how many
    times the retry loop of [Connect] has logged when [try_count]
    attempts have failed. *)
Definition retry_logs (try_count : Z) : Z := (Z.max try_count 1 - 1) / 200.

(** The line the retry loop logs. *)
Definition retry_line (a : IPAddr) : event :=
  EvLog "INFO" ("Try to connect to: " ++ endpoint a)%string.

(** A sender with the one registered receiver 4, not connected. *)
Definition sender1 : Sender.SocketSender :=
  {| Sender.receiver_addrs_ := {[4 := localhost]};
     Sender.max_thread_count_ := 0; Sender.queue_size_ := 0;
     Sender.sockets_ := []; Sender.msg_queue_ := []; Sender.threads_ := [] |}.

(** The receiver [three_queues] after its one message was taken: every
    queue is empty, but the semaphore still counts one. *)
Definition overcounted_queues : Receiver.SocketReceiver :=
  Receiver.set_queues three_queues
    [(4, MessageQueue_new 0); (5, MessageQueue_new 0); (6, MessageQueue_new 0)]
    2%nat 1.

(** A receive context between two iterations of [RecvLoop]: it awaits a
    size field, or it has a buffer that holds the announced size and a
    count of received bytes within it. *)
Definition context_ok (ctx : Receiver.RecvContext) : Prop :=
  0 <= Receiver.received_bytes ctx /\
  (Receiver.data_size ctx = -1 \/
   exists buf,
     Receiver.buffer ctx = Some buf /\
     Receiver.received_bytes ctx <= Receiver.data_size ctx /\
     Receiver.data_size ctx <= Z.of_nat (length buf)).

(** The state of a [RecvLoop] thread between two iterations: every
    socket of its map has a context and a queue, and every context is as
    above. *)
Definition world_ok (w : Receiver.RecvWorld) : Prop :=
  (forall id, id ∈ dom (Receiver.w_sockets w) ->
              is_Some (Receiver.w_contexts w !! id) /\
              is_Some (queue_lookup id (Receiver.w_queues w))) /\
  (forall id ctx, Receiver.w_contexts w !! id = Some ctx -> context_ok ctx).

(** An ending without undefined behaviour and without a C++ exception:
    the run returned, is still waiting, or stopped in a fatal check. *)
Definition well_defined {A : Type} (e : ending A) : Prop :=
  match e with
  | Undefined _ | Thrown _ => False
  | _ => True
  end.

(** A queue with at most one producer, as the queues that [Connect] and
    [Wait] create are. *)
Definition single_producer (q : MessageQueue) : Prop := num_producers q <= 1.

(** A connected sender whose two queues are empty. *)
Definition idle_sender : Sender.SocketSender :=
  {| Sender.receiver_addrs_ := <[7 := localhost]> (<[9 := localhost]> ∅);
     Sender.max_thread_count_ := 2; Sender.queue_size_ := 0;
     Sender.sockets_ := [shard_sockets; ∅];
     Sender.msg_queue_ := [MessageQueue_new 0; MessageQueue_new 0];
     Sender.threads_ := [(shard_sockets, 0%nat); (∅, 1%nat)] |}.

(** The queues of two senders, both empty, and the sockets of a thread
    that owns both senders, with data still on the wire. *)
Definition two_empty_queues : list (Z * MessageQueue) :=
  [(0, MessageQueue_new 0); (1, MessageQueue_new 0)].

Definition two_sockets : gmap Z TCPSocket :=
  <[0 := trickling_socket]> (<[1 := idle_socket]> ∅).

(* ================================================================== *)
(** * Properties *)

(** ** Runs *)

Lemma bind_done {A B : Type} (c : run A) (k : A -> run B) (t : list event) (a : A) :
  c = (t, Done a) -> bind c k = (t ++ fst (k a), snd (k a)).
Proof. intros ->. reflexivity. Qed.

Lemma bind_emit {B : Type} (e : event) (c : run B) :
  bind (emit e) (fun _ => c) = (e :: fst c, snd c).
Proof. reflexivity. Qed.

Lemma bind_lift_done {A B : Type} (a : A) (k : A -> run B) :
  bind (lift (Done a)) k = k a.
Proof. unfold bind, lift. simpl. destruct (k a). reflexivity. Qed.

(** Case analysis on a lookup [H] in a map written out with inserts: one
    goal per entry, with the key and the value substituted. *)
Ltac lookup_cases H :=
  repeat (apply lookup_insert_Some in H; destruct H as [[? ?]|[_ H]]; [subst|]);
  try (rewrite lookup_empty in H; discriminate).

(** ** The size field *)

Lemma to_size_t_small (x : Z) : 0 <= x < 2 ^ 64 -> to_size_t x = x.
Proof. intros H. unfold to_size_t. apply Z.mod_small. exact H. Qed.

Lemma length_int64_bytes (z : Z) : length (int64_bytes z) = 8%nat.
Proof. reflexivity. Qed.

Lemma Send_result_range (r len : Z) :
  0 <= r -> 0 <= len -> 0 <= Send_result r len <= len.
Proof.
  intros Hr Hl. unfold Send_result.
  destruct (Z.ltb_spec r 0); lia.
Qed.

Lemma Send_result_error (r len : Z) : r < 0 -> Send_result r len = -1.
Proof.
  intros Hr. unfold Send_result. destruct (Z.ltb_spec r 0); lia.
Qed.

Lemma Send_result_positive (r len : Z) :
  0 < r -> 0 < len -> 0 < Send_result r len.
Proof.
  intros Hr Hl. unfold Send_result. destruct (Z.ltb_spec r 0); lia.
Qed.

Lemma take_drop_step {A : Type} (l : list A) (k n : Z) :
  0 <= k -> 0 <= n ->
  take (Z.to_nat n) (drop (Z.to_nat k) l) ++ drop (Z.to_nat (k + n)) l
  = drop (Z.to_nat k) l.
Proof.
  intros Hk Hn. rewrite Z2Nat.inj_add by lia.
  rewrite <- drop_drop. apply take_drop.
Qed.

Lemma Z_of_byte_of_Z (x : Z) : Z_of_byte (byte_of_Z x) = x mod 256.
Proof.
  unfold Z_of_byte, byte_of_Z.
  pose proof (Z.mod_pos_bound x 256 ltac:(lia)) as Hb.
  destruct (Byte.of_N (Z.to_N (x mod 256))) as [b|] eqn:E; simpl.
  - apply Byte.to_of_N in E. rewrite E. lia.
  - apply Byte.of_N_None_iff in E. lia.
Qed.

Lemma unsigned_of_int64_bytes (z : Z) :
  unsigned_of_bytes (int64_bytes z) = z mod 2 ^ 64.
Proof.
  unfold int64_bytes. cbn [map unsigned_of_bytes].
  rewrite !Z_of_byte_of_Z. rewrite !Z.shiftr_div_pow2 by lia.
  change (2 ^ 64) with (256 * (256 * (256 * (256 * (256 * (256 * (256 * 256))))))).
  rewrite !Z.rem_mul_r by lia.
  rewrite !Z.div_div by lia.
  change (8 * 0) with 0. change (2 ^ 0) with 1. rewrite Z.div_1_r.
  change (2 ^ (8 * 1)) with 256.
  change (2 ^ (8 * 2)) with (256 * 256).
  change (2 ^ (8 * 3)) with (256 * (256 * 256)).
  change (2 ^ (8 * 4)) with (256 * (256 * (256 * 256))).
  change (2 ^ (8 * 5)) with (256 * (256 * (256 * (256 * 256)))).
  change (2 ^ (8 * 6)) with (256 * (256 * (256 * (256 * (256 * 256))))).
  change (2 ^ (8 * 7)) with (256 * (256 * (256 * (256 * (256 * (256 * 256)))))).
  rewrite Z.mul_0_r, Z.add_0_r. reflexivity.
Qed.

(** What [RecvDataSize] decodes is what [SendCore] encoded. *)
Lemma int64_of_bytes_int64_bytes (z : Z) :
  - 2 ^ 63 <= z < 2 ^ 63 -> int64_of_bytes (int64_bytes z) = z.
Proof.
  intros Hz. unfold int64_of_bytes. rewrite unsigned_of_int64_bytes.
  destruct (Z.ltb_spec (z mod 2 ^ 64) (2 ^ 63)) as [H|H].
  - destruct (Z.lt_ge_cases z 0) as [Hneg|Hpos].
    + rewrite <- (Z.mod_add z 1 (2 ^ 64)) in H by lia.
      rewrite Z.mod_small in H by lia. lia.
    + apply Z.mod_small. lia.
  - destruct (Z.lt_ge_cases z 0) as [Hneg|Hpos].
    + rewrite <- (Z.mod_add z 1 (2 ^ 64)) by lia.
      rewrite Z.mod_small by lia. lia.
    + rewrite Z.mod_small in H by lia. lia.
Qed.

(** ** SendCore *)

(** When the first loop ends, the chunks it wrote make up the rest of the
    size field, and whatever it did, it only wrote on its socket. *)
Lemma SendCore_size_spec (sock_fd msg_size : Z) (ready : list Z) :
  forall k, 0 <= k <= 8 ->
    exists chunks,
      fst (SendCore_size sock_fd msg_size ready k) = sends sock_fd chunks /\
      forall ready', snd (SendCore_size sock_fd msg_size ready k) = Done ready' ->
        concat chunks = drop (Z.to_nat k) (int64_bytes msg_size).
Proof.
  induction ready as [|r ready IH]; intros k Hk; simpl.
  - rewrite to_size_t_small by lia.
    destruct (Z.ltb_spec k 8).
    + exists []. split; [reflexivity | intros ? [=]].
    + exists []. split; [reflexivity|]. intros _ _.
      assert (k = 8) as -> by lia. reflexivity.
  - rewrite to_size_t_small by lia.
    destruct (Z.ltb_spec k 8) as [Hlt|Hge].
    + destruct (Z.eqb_spec (Send_result r (8 - k)) (-1)) as [He|Hne].
      * exists []. split; [reflexivity | intros ? [=]].
      * assert (0 <= Send_result r (8 - k) <= 8 - k) as Ht.
        { unfold Send_result in *. destruct (Z.ltb_spec r 0); lia. }
        destruct (IH (k + Send_result r (8 - k))) as [chunks [Htr Hdone]]; [lia|].
        rewrite bind_emit. simpl.
        eexists (_ :: chunks). split.
        { simpl. rewrite Htr. reflexivity. }
        intros ready' Hd. simpl. rewrite (Hdone ready' Hd).
        apply take_drop_step; lia.
    + exists []. split; [reflexivity|]. intros _ _.
      assert (k = 8) as -> by lia. reflexivity.
Qed.

(** The same for the second loop and the payload. *)
Lemma SendCore_data_spec (sock_fd : Z) (msg : Message) (ready : list Z) :
  size msg <= Z.of_nat (length (default [] (data msg))) ->
  forall k, 0 <= k ->
    exists chunks,
      fst (SendCore_data sock_fd msg ready k) = sends sock_fd chunks /\
      forall ready', snd (SendCore_data sock_fd msg ready k) = Done ready' ->
        concat chunks = drop (Z.to_nat k) (payload msg).
Proof.
  intros Hbuf.
  induction ready as [|r ready IH]; intros k Hk; simpl.
  - destruct (Z.ltb_spec k (size msg)).
    + exists []. split; [reflexivity | intros ? [=]].
    + exists []. split; [reflexivity|]. intros _ _.
      unfold payload. rewrite drop_ge; [reflexivity|].
      rewrite length_take. lia.
  - destruct (Z.ltb_spec k (size msg)) as [Hlt|Hge].
    + destruct (Z.eqb_spec (Send_result r (size msg - k)) (-1)) as [He|Hne].
      * exists []. split; [reflexivity | intros ? [=]].
      * assert (0 <= Send_result r (size msg - k) <= size msg - k) as Ht.
        { unfold Send_result in *. destruct (Z.ltb_spec r 0); lia. }
        set (tmp := Send_result r (size msg - k)) in *.
        unfold buf_read.
        destruct (data msg) as [buf|] eqn:Hdata; simpl in Hbuf; [|lia].
        replace ((0 <=? k) && (0 <=? tmp) && (k + tmp <=? Z.of_nat (length buf)))
          with true by (symmetry; rewrite !andb_true_iff, !Z.leb_le; lia).
        destruct (IH (k + tmp)) as [chunks [Htr Hdone]]; [lia|].
        rewrite bind_emit. simpl.
        eexists (_ :: chunks). split.
        { simpl. rewrite Htr. reflexivity. }
        intros ready' Hd. simpl. rewrite (Hdone ready' Hd).
        unfold payload. rewrite Hdata. simpl.
        rewrite <- (take_drop_step (take (Z.to_nat (size msg)) buf) k tmp) by lia.
        f_equal.
        rewrite !take_drop_commute. f_equal.
        rewrite take_take. f_equal. lia.
    + exists []. split; [reflexivity|]. intros _ _.
      unfold payload. rewrite drop_ge; [reflexivity|].
      rewrite length_take. lia.
Qed.

Lemma count_positive_cons (r : Z) (ready : list Z) :
  count_positive (r :: ready) = (if 0 <? r then 1 else 0) + count_positive ready.
Proof.
  unfold count_positive. simpl.
  destruct (0 <? r); simpl length; lia.
Qed.

(** The first loop completes on a socket that never fails and lets a
    byte through often enough, and leaves the rest of the script. *)
Lemma SendCore_size_progress (sock_fd msg_size : Z) (ready : list Z) :
  forall k, 0 <= k <= 8 ->
    Forall (fun r => 0 <= r) ready ->
    8 - k <= count_positive ready ->
    exists ready',
      snd (SendCore_size sock_fd msg_size ready k) = Done ready' /\
      Forall (fun r => 0 <= r) ready' /\
      count_positive ready - (8 - k) <= count_positive ready'.
Proof.
  induction ready as [|r ready IH]; intros k Hk Hall Hcnt.
  - assert (k = 8) as -> by (unfold count_positive in Hcnt; simpl in Hcnt; lia).
    exists []. simpl. repeat split; [constructor | unfold count_positive; simpl; lia].
  - simpl. rewrite to_size_t_small by lia.
    destruct (Z.ltb_spec k 8) as [Hlt|Hge].
    + inversion Hall as [|? ? Hr Hall']; subst.
      rewrite count_positive_cons in *.
      destruct (Z.eqb_spec (Send_result r (8 - k)) (-1)) as [He|Hne].
      { pose proof (Send_result_range r (8 - k)). lia. }
      rewrite bind_emit. simpl.
      destruct (Z.ltb_spec 0 r) as [Hpos|Hzero].
      * pose proof (Send_result_positive r (8 - k) Hpos).
        pose proof (Send_result_range r (8 - k) Hr).
        destruct (IH (k + Send_result r (8 - k))) as [ready' [Hd [Hf Hc]]];
          [lia | assumption | lia |].
        exists ready'. repeat split; [assumption | assumption | lia].
      * assert (r = 0) as -> by lia.
        replace (Send_result 0 (8 - k)) with 0 by (unfold Send_result; simpl; lia).
        rewrite Z.add_0_r.
        destruct (IH k) as [ready' [Hd [Hf Hc]]]; [lia | assumption | lia |].
        exists ready'. repeat split; [assumption | assumption | lia].
    + exists (r :: ready). repeat split; [assumption | lia].
Qed.

Lemma SendCore_data_progress (sock_fd : Z) (msg : Message) (ready : list Z) :
  size msg <= Z.of_nat (length (default [] (data msg))) ->
  forall k, 0 <= k ->
    Forall (fun r => 0 <= r) ready ->
    size msg - k <= count_positive ready ->
    exists ready', snd (SendCore_data sock_fd msg ready k) = Done ready'.
Proof.
  intros Hbuf.
  induction ready as [|r ready IH]; intros k Hk Hall Hcnt.
  - simpl. unfold count_positive in Hcnt. simpl in Hcnt.
    destruct (Z.ltb_spec k (size msg)); [lia|]. eexists. reflexivity.
  - simpl.
    destruct (Z.ltb_spec k (size msg)) as [Hlt|Hge]; [|eexists; reflexivity].
    inversion Hall as [|? ? Hr Hall']; subst.
    rewrite count_positive_cons in Hcnt.
    pose proof (Send_result_range r (size msg - k) Hr) as Hrange.
    destruct (Z.eqb_spec (Send_result r (size msg - k)) (-1)) as [He|Hne]; [lia|].
    unfold buf_read.
    destruct (data msg) as [buf|] eqn:Hdata; simpl in Hbuf; [|lia].
    replace ((0 <=? k) && (0 <=? Send_result r (size msg - k)) &&
             (k + Send_result r (size msg - k) <=? Z.of_nat (length buf)))
      with true by (symmetry; rewrite !andb_true_iff, !Z.leb_le; lia).
    rewrite bind_emit. simpl.
    destruct (Z.ltb_spec 0 r) as [Hpos|Hzero].
    + pose proof (Send_result_positive r (size msg - k) Hpos).
      apply IH; [lia | assumption | lia].
    + assert (r = 0) as -> by lia.
      replace (Send_result 0 (size msg - k)) with 0 by (unfold Send_result; simpl; lia).
      rewrite Z.add_0_r. apply IH; [lia | assumption | lia].
Qed.

(** A loop that was still waiting for the socket when the script [pre]
    ran out ends in the fatal check if the next answer is the error
    return; one that had finished is not affected by a longer script. *)
Lemma SendCore_size_error (sock_fd msg_size : Z) (r : Z) (post : list Z) :
  r < 0 ->
  forall pre k tr,
    SendCore_size sock_fd msg_size pre k = (tr, Pending) ->
    SendCore_size sock_fd msg_size (pre ++ r :: post) k = (tr, Fatal check_ne_failed).
Proof.
  intros Hr. induction pre as [|a pre IH]; intros k tr H; simpl in *.
  - destruct (to_size_t k <? 8); [|discriminate].
    rewrite (Send_result_error r _ Hr). simpl.
    unfold pending in H. inversion H; subst. reflexivity.
  - destruct (to_size_t k <? 8); [|discriminate].
    destruct (Send_result a (8 - k) =? -1); [discriminate|].
    rewrite bind_emit in *.
    destruct (SendCore_size sock_fd msg_size pre (k + Send_result a (8 - k)))
      as [tr' e'] eqn:Hrec.
    simpl in H. inversion H; subst.
    rewrite (IH _ _ Hrec). reflexivity.
Qed.

Lemma SendCore_size_mono (sock_fd msg_size : Z) (ext : list Z) :
  forall pre k tr rest,
    SendCore_size sock_fd msg_size pre k = (tr, Done rest) ->
    SendCore_size sock_fd msg_size (pre ++ ext) k = (tr, Done (rest ++ ext)).
Proof.
  induction pre as [|a pre IH]; intros k tr rest H; simpl in *.
  - destruct (to_size_t k <? 8) eqn:Hc; [discriminate|].
    unfold ret in H. inversion H; subst. simpl.
    destruct ext as [|x ext]; simpl; rewrite Hc; reflexivity.
  - destruct (to_size_t k <? 8).
    + destruct (Send_result a (8 - k) =? -1); [discriminate|].
      rewrite bind_emit in *.
      destruct (SendCore_size sock_fd msg_size pre (k + Send_result a (8 - k)))
        as [tr' e'] eqn:Hrec.
      simpl in H. inversion H; subst.
      rewrite (IH _ _ _ Hrec). reflexivity.
    + unfold ret in H. inversion H; subst. reflexivity.
Qed.

Lemma SendCore_data_error (sock_fd : Z) (msg : Message) (r : Z) (post : list Z) :
  r < 0 ->
  forall pre k tr,
    SendCore_data sock_fd msg pre k = (tr, Pending) ->
    SendCore_data sock_fd msg (pre ++ r :: post) k = (tr, Fatal check_ne_failed).
Proof.
  intros Hr. induction pre as [|a pre IH]; intros k tr H; simpl in *.
  - destruct (k <? size msg); [|discriminate].
    rewrite (Send_result_error r _ Hr). simpl.
    unfold pending in H. inversion H; subst. reflexivity.
  - destruct (k <? size msg); [|discriminate].
    destruct (Send_result a (size msg - k) =? -1); [discriminate|].
    destruct (buf_read (data msg) k (Send_result a (size msg - k))); [|discriminate].
    rewrite bind_emit in *.
    destruct (SendCore_data sock_fd msg pre (k + Send_result a (size msg - k)))
      as [tr' e'] eqn:Hrec.
    simpl in H. inversion H; subst.
    rewrite (IH _ _ Hrec). reflexivity.
Qed.

Lemma sends_no_dealloc (sock_fd : Z) (chunks : list (list Byte.byte)) (m : Message) :
  EvDealloc m ∉ sends sock_fd chunks.
Proof.
  unfold sends. intros H. apply list_elem_of_fmap in H.
  destruct H as [c [Hc _]]. discriminate.
Qed.

(** C6.  For a message of size S >= 0 whose buffer holds at least S
    bytes: (a) when [SendCore] returns, what it did is, in this order,
    writes on its socket that add up to the 8 bytes of the size field,
    writes that add up to exactly the S payload bytes, and one call of
    the deallocator if it is not null; (b) it does return on every socket
    that never fails and lets at least one byte through at 8 + S calls,
    whatever the partial writes are; (c) if a [Send] returns -1 while the
    frame is incomplete, the run ends in the fatal check and the
    deallocator was not called. *)
Theorem SendCore_writes_frame_then_deallocates (msg : Message) (socket : TCPSocket) :
  0 <= size msg ->
  size msg <= Z.of_nat (length (default [] (data msg))) ->
  (forall tr socket',
      SendCore msg socket = (tr, Done socket') ->
      exists size_chunks data_chunks,
        tr = sends (fd socket) size_chunks ++ sends (fd socket) data_chunks
             ++ dealloc_events msg /\
        concat size_chunks = int64_bytes (size msg) /\
        length (concat size_chunks) = 8%nat /\
        concat data_chunks = payload msg /\
        length (payload msg) = Z.to_nat (size msg)) /\
  (Forall (fun r => 0 <= r) (send_ready socket) ->
   8 + size msg <= count_positive (send_ready socket) ->
   is_done (snd (SendCore msg socket))) /\
  (forall pre r post tr,
      send_ready socket = pre ++ r :: post ->
      r < 0 ->
      SendCore msg (set_send_ready socket pre) = (tr, Pending) ->
      SendCore msg socket = (tr, Fatal check_ne_failed) /\
      forall m, EvDealloc m ∉ tr).
Proof.
  intros Hsize Hbuf. split; [|split].
  - intros tr socket' H. unfold SendCore in H.
    destruct (SendCore_size_spec (fd socket) (size msg) (send_ready socket) 0)
      as [c1 [Ht1 Hd1]]; [lia|].
    destruct (SendCore_size (fd socket) (size msg) (send_ready socket) 0)
      as [tr1 [ready1| | | |]] eqn:E1; unfold bind in H; simpl in H;
      try discriminate.
    destruct (SendCore_data_spec (fd socket) msg ready1 Hbuf 0) as [c2 [Ht2 Hd2]];
      [lia|].
    destruct (SendCore_data (fd socket) msg ready1 0)
      as [tr2 [ready2| | | |]] eqn:E2; simpl in H; try discriminate.
    simpl in Ht1, Ht2. subst tr1 tr2.
    exists c1, c2. repeat split.
    + unfold dealloc_events.
      destruct (deallocator msg); simpl in H; inversion H; subst;
        rewrite ?app_nil_r; reflexivity.
    + rewrite (Hd1 ready1 eq_refl). reflexivity.
    + rewrite (Hd1 ready1 eq_refl). apply length_int64_bytes.
    + rewrite (Hd2 ready2 eq_refl). reflexivity.
    + unfold payload. rewrite length_take. lia.
  - intros Hall Hcnt. unfold SendCore.
    destruct (SendCore_size_progress (fd socket) (size msg) (send_ready socket) 0)
      as [ready1 [Hd1 [Hall1 Hcnt1]]]; [lia | assumption | lia |].
    destruct (SendCore_size (fd socket) (size msg) (send_ready socket) 0)
      as [tr1 e1] eqn:E1. simpl in Hd1. subst e1.
    destruct (SendCore_data_progress (fd socket) msg ready1 Hbuf 0)
      as [ready2 Hd2]; [lia | assumption | lia |].
    unfold bind. simpl. rewrite Hd2.
    destruct (deallocator msg); simpl; exact I.
  - intros pre r post tr Hready Hr H. unfold SendCore in *.
    rewrite Hready. simpl fd in *. simpl send_ready in H.
    destruct (SendCore_size_spec (fd socket) (size msg) pre 0) as [c1 [Ht1 _]]; [lia|].
    destruct (SendCore_size (fd socket) (size msg) pre 0)
      as [tr1 [ready1| | | |]] eqn:E1; unfold bind in H; simpl in H;
      try discriminate.
    + destruct (SendCore_data_spec (fd socket) msg ready1 Hbuf 0) as [c2 [Ht2 _]];
        [lia|].
      destruct (SendCore_data (fd socket) msg ready1 0)
        as [tr2 [ready2| | | |]] eqn:E2; simpl in H; try discriminate.
      { destruct (deallocator msg); simpl in H; discriminate. }
      inversion H; subst tr.
      rewrite (SendCore_size_mono _ _ (r :: post) _ _ _ _ E1).
      unfold bind. simpl.
      rewrite (SendCore_data_error _ _ _ post Hr _ _ _ E2). simpl.
      split; [reflexivity|].
      intros m Hin. simpl in Ht1, Ht2. subst tr1 tr2.
      apply elem_of_app in Hin. destruct Hin as [Hin|Hin];
        exact (sends_no_dealloc _ _ _ Hin).
    + inversion H; subst tr.
      rewrite (SendCore_size_error _ _ _ post Hr _ _ _ E1). simpl.
      split; [reflexivity|].
      intros m Hin. simpl in Ht1. subst tr1.
      exact (sends_no_dealloc _ _ _ Hin).
Qed.

Lemma SendCore_writes_frame_then_deallocates_witness :
  (exists size_chunks data_chunks,
      fst (SendCore msg_hi slow_socket)
      = sends 5 size_chunks ++ sends 5 data_chunks ++ [EvDealloc msg_hi] /\
      concat size_chunks = int64_bytes 2 /\
      concat data_chunks = hi) /\
  is_done (snd (SendCore msg_hi slow_socket)) /\
  snd (SendCore msg_hi broken_socket) = Fatal check_ne_failed.
Proof.
  assert (0 <= size msg_hi) as H1 by (simpl; lia).
  assert (size msg_hi <= Z.of_nat (length (default [] (data msg_hi)))) as H2
    by (simpl; lia).
  split; [|split].
  - destruct (SendCore_writes_frame_then_deallocates msg_hi slow_socket H1 H2)
      as [Ha _].
    destruct (Ha (fst (SendCore msg_hi slow_socket))
                (set_send_ready slow_socket [1; 1; 1; 1; 1; 1; 1])
                eq_refl)
      as [c1 [c2 [Htr [Hc1 [_ [Hc2 _]]]]]].
    exists c1, c2. split; [exact Htr | split; [exact Hc1 | exact Hc2]].
  - destruct (SendCore_writes_frame_then_deallocates msg_hi slow_socket H1 H2)
      as [_ [Hb _]].
    apply Hb.
    + vm_compute. repeat constructor; discriminate.
    + vm_compute. discriminate.
  - destruct (SendCore_writes_frame_then_deallocates msg_hi broken_socket H1 H2)
      as [_ [_ Hc]].
    destruct (Hc [3] (-1) [100]
                [EvSend 5 [Byte.x02; Byte.x00; Byte.x00]]
                eq_refl ltac:(lia) eq_refl) as [Hf _].
    rewrite Hf. reflexivity.
Defined.

(** ** RecvDataSize *)

Lemma Receive_result_range (r len avail : Z) :
  0 <= r -> 0 <= len -> 0 <= avail ->
  0 <= Receive_result r len avail /\
  Receive_result r len avail <= len /\
  Receive_result r len avail <= avail.
Proof.
  intros. unfold Receive_result. destruct (Z.ltb_spec r 0); lia.
Qed.

Lemma Receive_result_error (r len avail : Z) :
  0 <= len -> 0 <= avail ->
  (Receive_result r len avail = -1 <-> r < 0).
Proof.
  intros. unfold Receive_result. destruct (Z.ltb_spec r 0); lia.
Qed.

Lemma length_buf_write (buf : list Byte.byte) (off : Z) (bs : list Byte.byte) :
  0 <= off -> (Z.to_nat off + length bs <= length buf)%nat ->
  length (buf_write buf off bs) = length buf.
Proof.
  intros Hoff Hfit. unfold buf_write.
  rewrite !length_app, length_take, length_drop. lia.
Qed.

Lemma take_buf_write (buf : list Byte.byte) (off : Z) (bs : list Byte.byte) :
  0 <= off -> (Z.to_nat off <= length buf)%nat ->
  take (Z.to_nat off + length bs)%nat (buf_write buf off bs)
  = take (Z.to_nat off) buf ++ bs.
Proof.
  intros Hoff Hfit. unfold buf_write.
  rewrite app_assoc.
  rewrite take_app_length'; [reflexivity|].
  rewrite length_app, length_take. lia.
Qed.

(** What the loop of [RecvDataSize] can return from a state with [k]
    bytes accumulated in [repr]: -1 from zero bytes, with the inbound
    bytes untouched, or the value of the eight accumulated bytes. *)
Lemma RecvDataSize_loop_spec (ready : list Z) :
  forall wire k repr n wire' ready',
    0 <= k <= 8 -> length repr = 8%nat ->
    RecvDataSize_loop wire ready k repr = Done (n, (wire', ready')) ->
    (k = 0 /\ n = -1 /\ wire' = wire /\
     exists zeros r, ready = zeros ++ r :: ready' /\ r < 0 /\
       Forall (fun z => Receive_result z 8 (Z.of_nat (length wire)) = 0) zeros)
    \/
    (Z.to_nat (8 - k) <= length wire /\
     wire' = drop (Z.to_nat (8 - k)) wire /\
     n = int64_of_bytes (take (Z.to_nat k) repr ++ take (Z.to_nat (8 - k)) wire))%nat.
Proof.
  induction ready as [|r ready IH]; intros wire k repr n wire' ready' Hk Hlen H;
    simpl in H; rewrite to_size_t_small in H by lia.
  - destruct (Z.ltb_spec k 8); [discriminate|].
    inversion H; subst. right. assert (k = 8) as -> by lia.
    change (Z.to_nat (8 - 8)) with 0%nat. rewrite drop_0, take_0, app_nil_r.
    rewrite take_ge by lia. repeat split; lia.
  - destruct (Z.ltb_spec k 8) as [Hlt|Hge].
    + set (tmp := Receive_result r (8 - k) (Z.of_nat (length wire))) in *.
      destruct (Z.eqb_spec tmp (-1)) as [He|Hne].
      * apply Receive_result_error in He; [|lia|lia].
        destruct (Z.gtb_spec k 0) as [Hpos|Hz].
        -- destruct (IH _ _ _ _ _ _ Hk Hlen H) as [[Hk0 _]|Hok]; [lia|].
           right. exact Hok.
        -- inversion H; subst. left. assert (k = 0) by lia.
           repeat split; try assumption.
           exists [], r. repeat split; [assumption | constructor].
      * assert (0 <= r) as Hr.
        { destruct (Z.ltb_spec r 0) as [Hneg|]; [|assumption].
          exfalso. apply Hne. apply Receive_result_error; lia. }
        destruct (Receive_result_range r (8 - k) (Z.of_nat (length wire)))
          as [Ht0 [Ht1 Ht2]]; [lia | lia | lia |].
        fold tmp in Ht0, Ht1, Ht2.
        assert (length (take (Z.to_nat tmp) wire) = Z.to_nat tmp) as Hlt'
          by (rewrite length_take; lia).
        apply IH in H; [| lia |].
        2:{ rewrite length_buf_write; [assumption | lia | lia]. }
        destruct H as [[Hk0 [Hn [Hw [zeros [r' [Hready [Hr' Hz]]]]]]]|[Hfit [Hw Hn]]].
        -- assert (k = 0) by lia. assert (tmp = 0) as Htmp0 by lia.
           left. subst k. repeat split; try assumption.
           { rewrite Hw. replace (Z.to_nat tmp) with 0%nat by lia. apply drop_0. }
           exists (r :: zeros), r'. repeat split.
           { rewrite Hready. reflexivity. }
           { assumption. }
           constructor.
           { exact Htmp0. }
           replace (Z.to_nat tmp) with 0%nat in Hz by lia.
           rewrite drop_0 in Hz. exact Hz.
        -- right. rewrite length_drop in Hfit.
           split; [lia|]. split.
           { rewrite Hw, drop_drop. f_equal. lia. }
           rewrite Hn. f_equal.
           replace (Z.to_nat (k + tmp))
             with (Z.to_nat k + length (take (Z.to_nat tmp) wire))%nat by lia.
           rewrite take_buf_write by lia.
           rewrite <- app_assoc. f_equal.
           rewrite take_take_drop. f_equal. lia.
    + inversion H; subst. right. assert (k = 8) as -> by lia.
      change (Z.to_nat (8 - 8)) with 0%nat. rewrite drop_0, take_0, app_nil_r.
      rewrite take_ge by lia. repeat split; lia.
Qed.

(** Once a byte is accumulated the loop goes on, over attempts that
    return -1 or 0, until the eight bytes are there. *)
Lemma RecvDataSize_loop_progress (ready : list Z) :
  forall wire k repr,
    0 < k <= 8 ->
    8 - k <= count_positive ready ->
    8 - k <= Z.of_nat (length wire) ->
    exists res, RecvDataSize_loop wire ready k repr = Done res.
Proof.
  induction ready as [|r ready IH]; intros wire k repr Hk Hcnt Hwire; simpl;
    rewrite to_size_t_small by lia.
  - unfold count_positive in Hcnt. simpl in Hcnt.
    destruct (Z.ltb_spec k 8); [lia|]. eexists. reflexivity.
  - destruct (Z.ltb_spec k 8) as [Hlt|Hge]; [|eexists; reflexivity].
    rewrite count_positive_cons in Hcnt.
    set (tmp := Receive_result r (8 - k) (Z.of_nat (length wire))).
    destruct (Z.eqb_spec tmp (-1)) as [He|Hne].
    + apply Receive_result_error in He; [|lia|lia].
      destruct (Z.ltb_spec 0 r); [lia|].
      destruct (Z.gtb_spec k 0); [|lia].
      apply IH; lia.
    + assert (0 <= r) as Hr.
      { destruct (Z.ltb_spec r 0) as [Hneg|]; [|assumption].
        exfalso. apply Hne. apply Receive_result_error; lia. }
      destruct (Receive_result_range r (8 - k) (Z.of_nat (length wire)))
        as [Ht0 [Ht1 Ht2]]; [lia | lia | lia |].
      fold tmp in Ht0, Ht1, Ht2.
      assert (0 < r -> 0 < tmp) as Hpos.
      { intros Hp. unfold tmp, Receive_result.
        destruct (Z.ltb_spec r 0); lia. }
      apply IH.
      * lia.
      * destruct (Z.ltb_spec 0 r); lia.
      * rewrite length_drop. destruct (Z.ltb_spec 0 r); lia.
Qed.

Lemma RecvDataSize_done (socket : TCPSocket) (n : Z) (socket' : TCPSocket) :
  RecvDataSize socket = Done (n, socket') ->
  RecvDataSize_loop (inbound socket) (recv_ready socket) 0 (int64_bytes 0)
  = Done (n, (inbound socket', recv_ready socket')).
Proof.
  unfold RecvDataSize. intros H.
  destruct (RecvDataSize_loop (inbound socket) (recv_ready socket) 0 (int64_bytes 0))
    as [[n0 [w0 r0]]| | | |]; simpl in H; try discriminate.
  inversion H; subst. reflexivity.
Qed.

(** After a first attempt that delivers a byte, [RecvDataSize] returns
    the value of the next eight inbound bytes on every script that lets a
    byte through seven more times. *)
Lemma RecvDataSize_returns (socket : TCPSocket) (r : Z) (rest : list Z) :
  recv_ready socket = r :: rest -> 0 < r ->
  (8 <= length (inbound socket))%nat ->
  7 <= count_positive rest ->
  exists socket',
    RecvDataSize socket = Done (int64_of_bytes (take 8 (inbound socket)), socket') /\
    inbound socket' = drop 8 (inbound socket).
Proof.
  intros Hready Hr Hwire Hcnt.
  assert (exists res, RecvDataSize_loop (inbound socket) (recv_ready socket) 0
                        (int64_bytes 0) = Done res) as [[n [w' r']] Hres].
  { rewrite Hready. simpl. change (8 - 0) with 8.
    set (tmp := Receive_result r 8 (Z.of_nat (length (inbound socket)))).
    destruct (Receive_result_range r 8 (Z.of_nat (length (inbound socket))))
      as [Ht0 [Ht1 Ht2]]; [lia | lia | lia |].
    fold tmp in Ht0, Ht1, Ht2.
    assert (0 < tmp) as Hpos.
    { unfold tmp, Receive_result. destruct (Z.ltb_spec r 0); lia. }
    destruct (Z.eqb_spec tmp (-1)); [lia|].
    apply RecvDataSize_loop_progress; [lia | lia |].
    rewrite length_drop. lia. }
  exists (set_inbound socket w' r').
  assert (RecvDataSize socket = Done (n, set_inbound socket w' r')) as Hrun.
  { unfold RecvDataSize. rewrite Hres. reflexivity. }
  apply RecvDataSize_loop_spec in Hres; [|lia|reflexivity].
  destruct Hres as [[_ [_ [_ [zeros [r0 [Hz [Hr0 Hall]]]]]]]|[_ [Hw Hn]]].
  + exfalso. rewrite Hready in Hz.
    destruct zeros as [|z zeros]; simpl in Hz; inversion Hz; subst.
    * lia.
    * inversion Hall as [|? ? Hzero _]; subst.
      unfold Receive_result in Hzero.
      destruct (Z.ltb_spec z 0); lia.
  + rewrite Hrun, Hn. split; [reflexivity | exact Hw].
Qed.

(** What [SendCore] wrote as the size of a frame is what [RecvDataSize]
    returns at the other end. *)
Lemma RecvDataSize_reads_int64_bytes (socket : TCPSocket) (n : Z)
    (more : list Byte.byte) (r : Z) (rest : list Z) :
  - 2 ^ 63 <= n < 2 ^ 63 ->
  inbound socket = int64_bytes n ++ more ->
  recv_ready socket = r :: rest -> 0 < r -> 7 <= count_positive rest ->
  exists socket', RecvDataSize socket = Done (n, socket') /\ inbound socket' = more.
Proof.
  intros Hn Hin Hready Hr Hcnt.
  destruct (RecvDataSize_returns socket r rest Hready Hr) as [socket' [Hrun Hrest]];
    [rewrite Hin, length_app; simpl; lia | assumption |].
  exists socket'. rewrite Hin in Hrun, Hrest.
  change 8%nat with (length (int64_bytes n)) in Hrun, Hrest.
  rewrite take_app_length in Hrun. rewrite drop_app_length in Hrest.
  rewrite int64_of_bytes_int64_bytes in Hrun by assumption.
  split; assumption.
Qed.

(** C5, amended.  (a) If the very first [Receive] attempt yields nothing,
    [RecvDataSize] returns -1 and leaves the inbound bytes alone.
    (b) Whenever it returns, either a [Receive] attempt returned -1 while
    zero bytes were accumulated and the result is -1 with no byte
    consumed, or exactly the next eight inbound bytes were consumed and
    the result is their value as an [int64_t], never a partial one (a
    value that is -1 when those bytes encode -1).  (c) Once the first
    attempt has delivered a byte, the call returns that decoded value on
    every script that lets a byte through seven more times, however many
    attempts in between return -1 or nothing. *)
Theorem RecvDataSize_gives_up_only_before_any_byte (socket : TCPSocket) :
  (first_attempt_yields_nothing socket ->
   exists socket',
     RecvDataSize socket = Done (-1, socket') /\ inbound socket' = inbound socket) /\
  (forall n socket',
      RecvDataSize socket = Done (n, socket') ->
      (n = -1 /\ inbound socket' = inbound socket /\
       gives_up_before_any_byte socket (recv_ready socket'))
      \/
      ((8 <= length (inbound socket))%nat /\
       inbound socket' = drop 8 (inbound socket) /\
       n = int64_of_bytes (take 8 (inbound socket)))) /\
  (forall r rest,
      recv_ready socket = r :: rest -> 0 < r ->
      (8 <= length (inbound socket))%nat ->
      7 <= count_positive rest ->
      exists socket',
        RecvDataSize socket = Done (int64_of_bytes (take 8 (inbound socket)), socket') /\
        inbound socket' = drop 8 (inbound socket)).
Proof.
  split; [|split].
  - intros [r [rest [Hready Hr]]].
    unfold RecvDataSize. rewrite Hready. simpl. change (8 - 0) with 8.
    replace (Receive_result r 8 (Z.of_nat (length (inbound socket)))) with (-1)
      by (symmetry; apply Receive_result_error; lia).
    simpl. eexists. split; reflexivity.
  - intros n socket' H. apply RecvDataSize_done in H.
    apply RecvDataSize_loop_spec in H; [|lia|reflexivity].
    destruct H as [[_ [Hn [Hw Hz]]]|[Hfit [Hw Hn]]].
    + left. repeat split; assumption.
    + right. repeat split; assumption.
  - intros r rest. apply RecvDataSize_returns.
Qed.

Lemma RecvDataSize_gives_up_only_before_any_byte_witness :
  (exists socket',
      RecvDataSize idle_socket = Done (-1, socket') /\
      inbound socket' = inbound idle_socket) /\
  (exists socket',
      RecvDataSize trickling_socket = Done (2, socket') /\
      inbound socket' = hi).
Proof.
  split.
  - destruct (RecvDataSize_gives_up_only_before_any_byte idle_socket) as [Ha _].
    apply Ha. exists (-1), [8]. split; [reflexivity | lia].
  - destruct (RecvDataSize_gives_up_only_before_any_byte trickling_socket)
      as [_ [_ Hc]].
    apply (Hc 3 [-1; 0; -1; 1; 1; 1; 1; 1; 2; 2]).
    + reflexivity.
    + lia.
    + simpl. lia.
    + vm_compute. discriminate.
Defined.

(** C5 as stated fails: on a socket that delivers the eight bytes 0xff
    at the first attempt, [RecvDataSize] returns -1 although the first
    attempt yielded all eight bytes. *)
Lemma RecvDataSize_minus_one_after_eight_bytes :
  RecvDataSize all_ones_socket = Done (-1, set_inbound all_ones_socket [] []) /\
  ~ first_attempt_yields_nothing all_ones_socket.
Proof.
  split.
  - reflexivity.
  - intros [r [rest [Hready Hr]]]. simpl in Hready. inversion Hready; subst. lia.
Qed.

(** ** SendLoop *)

Lemma sends_app (sock_fd : Z) (c1 c2 : list (list Byte.byte)) :
  sends sock_fd (c1 ++ c2) = sends sock_fd c1 ++ sends sock_fd c2.
Proof. unfold sends. apply map_app. Qed.

Lemma SendCore_data_trace (sock_fd : Z) (msg : Message) (ready : list Z) :
  forall k, exists chunks, fst (SendCore_data sock_fd msg ready k) = sends sock_fd chunks.
Proof.
  induction ready as [|r ready IH]; intros k; simpl.
  - destruct (k <? size msg); exists []; reflexivity.
  - destruct (k <? size msg); [|exists []; reflexivity].
    destruct (Send_result r (size msg - k) =? -1); [exists []; reflexivity|].
    destruct (buf_read (data msg) k (Send_result r (size msg - k))) as [bs|];
      [|exists []; reflexivity].
    destruct (IH (k + Send_result r (size msg - k))) as [chunks Hc].
    rewrite bind_emit. simpl. exists (bs :: chunks). simpl. rewrite Hc. reflexivity.
Qed.

Lemma SendCore_size_trace (sock_fd msg_size : Z) (ready : list Z) :
  forall k, exists chunks,
    fst (SendCore_size sock_fd msg_size ready k) = sends sock_fd chunks.
Proof.
  induction ready as [|r ready IH]; intros k; simpl.
  - destruct (to_size_t k <? 8); exists []; reflexivity.
  - destruct (to_size_t k <? 8); [|exists []; reflexivity].
    destruct (Send_result r (8 - k) =? -1); [exists []; reflexivity|].
    destruct (IH (k + Send_result r (8 - k))) as [chunks Hc].
    rewrite bind_emit. simpl. eexists (_ :: chunks). simpl. rewrite Hc. reflexivity.
Qed.

(** Whatever [SendCore] does, it writes on its own socket only, and
    calls at most the deallocator of its message, last. *)
Lemma SendCore_trace (msg : Message) (socket : TCPSocket) :
  exists chunks d,
    fst (SendCore msg socket) = sends (fd socket) chunks ++ d /\
    (d = [] \/ d = [EvDealloc msg]).
Proof.
  unfold SendCore.
  destruct (SendCore_size_trace (fd socket) (size msg) (send_ready socket) 0)
    as [c1 H1].
  destruct (SendCore_size (fd socket) (size msg) (send_ready socket) 0)
    as [tr1 [ready1| | | |]]; simpl in H1; subst tr1; unfold bind; simpl;
    try (exists c1, []; rewrite app_nil_r; split; [reflexivity | left; reflexivity]).
  destruct (SendCore_data_trace (fd socket) msg ready1 0) as [c2 H2].
  destruct (SendCore_data (fd socket) msg ready1 0)
    as [tr2 [ready2| | | |]]; simpl in H2; subst tr2; simpl;
    try (exists (c1 ++ c2), []; rewrite app_nil_r, sends_app;
         split; [reflexivity | left; reflexivity]).
  destruct (deallocator msg); simpl.
  - exists (c1 ++ c2), [EvDealloc msg]. rewrite sends_app, <- app_assoc.
    split; [reflexivity | right; reflexivity].
  - exists (c1 ++ c2), []. rewrite sends_app, <- app_assoc.
    split; [reflexivity | left; reflexivity].
Qed.

(** [SendCore] returns, having written the frame, on a socket that never
    fails and takes a byte often enough. *)
Lemma SendCore_returns (msg : Message) (socket : TCPSocket) :
  0 <= size msg ->
  size msg <= Z.of_nat (length (default [] (data msg))) ->
  Forall (fun r => 0 <= r) (send_ready socket) ->
  8 + size msg <= count_positive (send_ready socket) ->
  exists size_chunks data_chunks socket',
    SendCore msg socket
    = (sends (fd socket) size_chunks ++ sends (fd socket) data_chunks
       ++ dealloc_events msg, Done socket') /\
    concat size_chunks = int64_bytes (size msg) /\
    concat data_chunks = payload msg.
Proof.
  intros Hsize Hbuf Hall Hcnt. unfold SendCore.
  destruct (SendCore_size_progress (fd socket) (size msg) (send_ready socket) 0)
    as [ready1 [Hd1 [Hall1 Hcnt1]]]; [lia | assumption | lia |].
  destruct (SendCore_size_spec (fd socket) (size msg) (send_ready socket) 0)
    as [c1 [Ht1 Hc1]]; [lia|].
  destruct (SendCore_data_progress (fd socket) msg ready1 Hbuf 0)
    as [ready2 Hd2]; [lia | assumption | lia |].
  destruct (SendCore_data_spec (fd socket) msg ready1 Hbuf 0) as [c2 [Ht2 Hc2]];
    [lia|].
  exists c1, c2, (set_send_ready socket ready2).
  split; [|split].
  - unfold bind. simpl. rewrite Hd1. simpl. rewrite Hd2. simpl.
    rewrite Ht1, Ht2. unfold dealloc_events.
    destruct (deallocator msg); simpl; rewrite ?app_nil_r; reflexivity.
  - rewrite (Hc1 _ Hd1). reflexivity.
  - rewrite (Hc2 _ Hd2). reflexivity.
Qed.

Lemma SendLoop_close_frames (msg : Message) (l : list (Z * TCPSocket)) :
  size msg = 0 ->
  Forall (fun p => takes_size_field (snd p)) l ->
  forall sockets, exists per sockets',
    Sender.SendLoop_close msg l sockets = (concat per, Done sockets') /\
    Forall2 (fun p t => exists chunks,
                 t = sends (fd (snd p)) chunks ++ dealloc_events msg /\
                 concat chunks = int64_bytes 0) l per.
Proof.
  intros Hsize. induction l as [|[id s] l IH]; intros Hall sockets.
  - exists [], sockets. split; [reflexivity | constructor].
  - inversion Hall as [|? ? [Hs1 Hs2] Hall']; subst. simpl in Hs1, Hs2.
    destruct (SendCore_returns msg s) as [c1 [c2 [s' [Hrun [Hc1 Hc2]]]]];
      [lia | rewrite Hsize; lia | assumption | lia |].
    destruct (IH Hall' (<[id := s']> sockets)) as [per [sockets' [Hrest Hper]]].
    exists ((sends (fd s) c1 ++ sends (fd s) c2 ++ dealloc_events msg) :: per), sockets'.
    split.
    + simpl. rewrite (bind_done _ _ _ _ Hrun), Hrest. reflexivity.
    + constructor; [|exact Hper].
      exists (c1 ++ c2). simpl. rewrite sends_app, <- app_assoc.
      split; [reflexivity|].
      rewrite concat_app, Hc1, Hc2, Hsize. unfold payload. rewrite Hsize.
      reflexivity.
Qed.

(** C4.  On [QUEUE_CLOSE] a [SendLoop] whose sockets let a size field
    through sends one end-of-stream frame (size 0, no payload) to each
    socket of its shard, one after the other, does nothing else, and
    terminates without looking at any further message.  On any other
    status it runs [SendCore] for the removed message on the socket
    stored under the message's [receiver_id]: every write of that step is
    on that socket, only that entry of the socket map changes, and the
    loop goes on; when that socket takes the frame, what the step wrote
    is the frame of the message, on that socket. *)
Theorem SendLoop_dispatch (sockets : gmap Z TCPSocket) (code : STATUS)
    (msg : Message) (removes : list (STATUS * Message)) :
  (code = QUEUE_CLOSE ->
   (forall id s, sockets !! id = Some s -> takes_size_field s) ->
   exists per sockets',
     Sender.SendLoop sockets ((code, msg) :: removes) = (concat per, Done sockets') /\
     Forall2 (fun p t => end_of_stream_frame msg (snd p) t) (map_to_list sockets) per) /\
  (code <> QUEUE_CLOSE ->
   forall s, sockets !! receiver_id msg = Some s ->
     Sender.SendLoop sockets ((code, msg) :: removes)
     = (s' <- SendCore msg s ;;
        Sender.SendLoop (<[receiver_id msg := s']> sockets) removes) /\
     (exists chunks d,
         fst (SendCore msg s) = sends (fd s) chunks ++ d /\
         (d = [] \/ d = [EvDealloc msg])) /\
     (0 <= size msg ->
      size msg <= Z.of_nat (length (default [] (data msg))) ->
      Forall (fun r => 0 <= r) (send_ready s) ->
      8 + size msg <= count_positive (send_ready s) ->
      exists size_chunks data_chunks s',
        let rest := Sender.SendLoop (<[receiver_id msg := s']> sockets) removes in
        Sender.SendLoop sockets ((code, msg) :: removes)
        = ((sends (fd s) size_chunks ++ sends (fd s) data_chunks
            ++ dealloc_events msg) ++ fst rest, snd rest) /\
        concat size_chunks = int64_bytes (size msg) /\
        concat data_chunks = payload msg)).
Proof.
  split.
  - intros -> Hgood. simpl.
    destruct (SendLoop_close_frames (set_size msg 0) (map_to_list sockets) eq_refl)
      with (sockets := sockets) as [per [sockets' [Hrun Hper]]].
    { apply Forall_forall. intros [id s] Hin. simpl.
      apply elem_of_map_to_list in Hin. exact (Hgood id s Hin). }
    exists per, sockets'. split; [exact Hrun|].
    eapply Forall2_impl; [exact Hper|].
    intros [id s] t [chunks [Ht Hc]]. exists chunks. split; assumption.
  - intros Hcode s Hs.
    assert (Sender.SendLoop sockets ((code, msg) :: removes)
            = (s' <- SendCore msg s ;;
               Sender.SendLoop (<[receiver_id msg := s']> sockets) removes)) as Hstep.
    { simpl. destruct (decide (code = QUEUE_CLOSE)) as [e|_]; [contradiction|].
      rewrite Hs. reflexivity. }
    split; [exact Hstep|]. split; [apply SendCore_trace|].
    intros Hsize Hbuf Hall Hcnt.
    destruct (SendCore_returns msg s Hsize Hbuf Hall Hcnt)
      as [c1 [c2 [s' [Hrun [Hc1 Hc2]]]]].
    exists c1, c2, s'. cbv zeta. split; [|split; assumption].
    rewrite Hstep.
    exact (bind_done _
             (fun s0 => Sender.SendLoop (<[receiver_id msg := s0]> sockets) removes)
             _ _ Hrun).
Qed.

Lemma SendLoop_dispatch_witness :
  (exists per sockets',
      Sender.SendLoop shard_sockets [(QUEUE_CLOSE, Message_default)]
      = (concat per, Done sockets') /\
      Forall2 (fun p t => end_of_stream_frame Message_default (snd p) t)
        (map_to_list shard_sockets) per) /\
  (exists size_chunks data_chunks s',
      let rest :=
        Sender.SendLoop (<[7 := s']> shard_sockets) [(QUEUE_CLOSE, Message_default)] in
      Sender.SendLoop shard_sockets
        [(REMOVE_SUCCESS, msg_hi); (QUEUE_CLOSE, Message_default)]
      = ((sends 5 size_chunks ++ sends 5 data_chunks ++ [EvDealloc msg_hi])
         ++ fst rest, snd rest) /\
      concat size_chunks = int64_bytes 2 /\
      concat data_chunks = hi).
Proof.
  split.
  - destruct (SendLoop_dispatch shard_sockets QUEUE_CLOSE Message_default [])
      as [Hclose _].
    apply Hclose; [reflexivity|].
    intros id s Hs. unfold shard_sockets in Hs.
    lookup_cases Hs; (split; [repeat constructor; lia | vm_compute; discriminate]).
  - destruct (SendLoop_dispatch shard_sockets REMOVE_SUCCESS msg_hi
                [(QUEUE_CLOSE, Message_default)]) as [_ Hsend].
    destruct (Hsend ltac:(discriminate)
                {| fd := 5; send_ready := [4; 4; 1; 1; 1; 1; 1; 1; 8; 8; 8];
                   inbound := []; recv_ready := [] |} eq_refl)
      as [_ [_ Hframe]].
    apply Hframe.
    + simpl. lia.
    + simpl. lia.
    + repeat constructor; lia.
    + vm_compute. discriminate.
Defined.

(** ** Recv *)

Lemma Queue_Remove_empty_unchanged (q : MessageQueue) (msg msg' : Message)
    (q' : MessageQueue) :
  Queue_Remove q msg false = Done (QUEUE_EMPTY, msg', q') -> msg' = msg /\ q' = q.
Proof.
  unfold Queue_Remove. destruct (items q); simpl; intros H; inversion H; subst.
  split; reflexivity.
Qed.

(** Scanning forward from the cursor [c] over queues that return
    [QUEUE_EMPTY] up to the queue at [c + d] that does not. *)
Lemma Recv_scan_forward (qs : list (Z * MessageQueue)) (msg : Message)
    (j : nat) (id : Z) (q q' : MessageQueue) (code : STATUS) (msg' : Message) :
  qs !! j = Some (id, q) ->
  Queue_Remove q msg false = Done (code, msg', q') ->
  code <> QUEUE_EMPTY ->
  forall d c fuel,
    j = (c + d)%nat ->
    (forall i idq, (c <= i < j)%nat -> qs !! i = Some idq -> returns_empty msg (snd idq)) ->
    (d < fuel)%nat ->
    Receiver.Recv_scan fuel qs c msg
    = Done (code, msg', id, (<[j := (id, q')]> qs, S j)).
Proof.
  intros Hj Hrem Hcode. induction d as [|d IH]; intros c fuel Hd Hempty Hfuel;
    (destruct fuel as [|fuel]; [lia|]); simpl.
  - assert (c = j) as -> by lia. rewrite Hj, Hrem.
    destruct (decide (code = QUEUE_EMPTY)); [contradiction | reflexivity].
  - assert (is_Some (qs !! c)) as [[idc qc] Hc].
    { apply lookup_lt_is_Some. apply lookup_lt_Some in Hj. lia. }
    rewrite Hc.
    destruct (Hempty c (idc, qc)) as [m1 [q1 Hq1]]; [lia | assumption |].
    simpl in Hq1. rewrite Hq1.
    apply Queue_Remove_empty_unchanged in Hq1 as [-> ->].
    destruct (decide (QUEUE_EMPTY = QUEUE_EMPTY)); [|contradiction].
    rewrite (list_insert_id _ _ _ Hc).
    apply IH; [lia | | lia].
    intros i idq Hi. apply Hempty. lia.
Qed.

(** Scanning over queues that all return [QUEUE_EMPTY] up to the end:
    the cursor wraps to the beginning. *)
Lemma Recv_scan_wrap (qs : list (Z * MessageQueue)) (msg : Message) :
  forall d c fuel,
    (c + d)%nat = length qs ->
    (forall i idq, (c <= i)%nat -> qs !! i = Some idq -> returns_empty msg (snd idq)) ->
    (d < fuel)%nat ->
    Receiver.Recv_scan fuel qs c msg = Receiver.Recv_scan (fuel - d - 1) qs 0 msg.
Proof.
  induction d as [|d IH]; intros c fuel Hd Hempty Hfuel;
    (destruct fuel as [|fuel]; [lia|]); simpl.
  - rewrite lookup_ge_None_2 by lia. f_equal. lia.
  - assert (is_Some (qs !! c)) as [[idc qc] Hc].
    { apply lookup_lt_is_Some. lia. }
    rewrite Hc.
    destruct (Hempty c (idc, qc)) as [m1 [q1 Hq1]]; [lia | assumption |].
    simpl in Hq1. rewrite Hq1.
    apply Queue_Remove_empty_unchanged in Hq1 as [-> ->].
    destruct (decide (QUEUE_EMPTY = QUEUE_EMPTY)); [|contradiction].
    rewrite (list_insert_id _ _ _ Hc).
    rewrite (IH (S c) fuel); [reflexivity | lia | | lia].
    intros i idq Hi. apply Hempty. lia.
Qed.

(** C7.  A [Recv] call that finds the semaphore positive takes one unit
    of it and visits the queues in [scan_order] from the persisted
    cursor.  If the queue at the [k]-th position of that order is the
    first whose non-blocking [Remove] returns something else than
    [QUEUE_EMPTY], then [Recv] returns that status, the message [Remove]
    gave and the sender id of that queue.  In the receiver it leaves,
    the semaphore count is one less, the cursor is one past that queue,
    that queue is as its [Remove] left it, and every other queue and
    every other field are unchanged. *)
Theorem Recv_round_robin (r : Receiver.SocketReceiver) (msg : Message)
    (k j : nat) (id : Z) (q q' : MessageQueue) (code : STATUS) (msg' : Message) :
  0 < Receiver.queue_sem_ r ->
  (Receiver.mq_iter_ r <= length (Receiver.msg_queue_ r))%nat ->
  scan_order (Receiver.mq_iter_ r) (length (Receiver.msg_queue_ r)) !! k = Some j ->
  (forall k' i idq,
      (k' < k)%nat ->
      scan_order (Receiver.mq_iter_ r) (length (Receiver.msg_queue_ r)) !! k' = Some i ->
      Receiver.msg_queue_ r !! i = Some idq ->
      returns_empty msg (snd idq)) ->
  Receiver.msg_queue_ r !! j = Some (id, q) ->
  Queue_Remove q msg false = Done (code, msg', q') ->
  code <> QUEUE_EMPTY ->
  forall fuel,
    (length (Receiver.msg_queue_ r) + 2 <= fuel)%nat ->
    exists r',
      Receiver.Recv fuel msg r = Done (code, msg', id, r') /\
      Receiver.queue_sem_ r' = Receiver.queue_sem_ r - 1 /\
      Receiver.mq_iter_ r' = S j /\
      Receiver.msg_queue_ r' = <[j := (id, q')]> (Receiver.msg_queue_ r) /\
      (forall i, i <> j -> Receiver.msg_queue_ r' !! i = Receiver.msg_queue_ r !! i) /\
      Receiver.num_sender_ r' = Receiver.num_sender_ r /\
      Receiver.max_thread_count_ r' = Receiver.max_thread_count_ r /\
      Receiver.queue_size_ r' = Receiver.queue_size_ r /\
      Receiver.sockets_ r' = Receiver.sockets_ r /\
      Receiver.threads_ r' = Receiver.threads_ r.
Proof.
  intros Hsem Hcur Hk Hskip Hj Hrem Hcode fuel Hfuel.
  unfold Receiver.Recv.
  destruct (Z.leb_spec (Receiver.queue_sem_ r) 0); [lia|].
  set (qs := Receiver.msg_queue_ r) in *.
  set (c := Receiver.mq_iter_ r) in *.
  assert (Receiver.Recv_scan fuel qs c msg
          = Done (code, msg', id, (<[j := (id, q')]> qs, S j))) as ->.
  2:{ eexists. split; [reflexivity|]. cbn.
      split; [reflexivity|]. split; [reflexivity|]. split; [reflexivity|].
      split; [intros i Hi; apply list_lookup_insert_ne; congruence|].
      repeat split. }
  unfold scan_order in Hk, Hskip.
  apply lookup_app_Some in Hk. destruct Hk as [Hk|[Hlen Hk]].
  - apply lookup_seq in Hk. destruct Hk as [-> Hk].
    apply (Recv_scan_forward qs msg (c + k) id q q' code msg' Hj Hrem Hcode k c);
      [reflexivity | | lia].
    intros i idq Hi Hq. apply (Hskip (i - c)%nat i idq); [lia | | assumption].
    rewrite lookup_app_l by (rewrite length_seq; lia).
    rewrite lookup_seq_lt by lia. f_equal. lia.
  - rewrite length_seq in Hlen, Hk. apply lookup_seq in Hk.
    destruct Hk as [Hjk Hk]. simpl in Hjk.
    rewrite (Recv_scan_wrap qs msg (length qs - c) c fuel); [| lia | | lia].
    + apply (Recv_scan_forward qs msg j id q q' code msg' Hj Hrem Hcode j 0);
        [reflexivity | | lia].
      intros i idq Hi Hq.
      apply (Hskip (length qs - c + i)%nat i idq); [lia | | assumption].
      rewrite lookup_app_r by (rewrite length_seq; lia).
      rewrite length_seq. rewrite lookup_seq_lt by lia. f_equal. lia.
    + intros i idq Hi Hq. apply (Hskip (i - c)%nat i idq); [|  | assumption].
      * apply lookup_lt_Some in Hq. lia.
      * apply lookup_lt_Some in Hq.
        rewrite lookup_app_l by (rewrite length_seq; lia).
        rewrite lookup_seq_lt by lia. f_equal. lia.
Qed.

Lemma Recv_round_robin_witness :
  exists r',
    Receiver.Recv 5 Message_default three_queues
    = Done (REMOVE_SUCCESS, msg_hi, 5, r') /\
    Receiver.queue_sem_ three_queues = 2 /\ Receiver.queue_sem_ r' = 1 /\
    Receiver.mq_iter_ three_queues = 2%nat /\ Receiver.mq_iter_ r' = 2%nat /\
    Receiver.msg_queue_ r'
    = [(4, MessageQueue_new 0); (5, MessageQueue_new 0); (6, MessageQueue_new 0)].
Proof.
  destruct (Recv_round_robin three_queues Message_default 2 1 5
              (set_items (MessageQueue_new 0) [msg_hi]) (MessageQueue_new 0)
              REMOVE_SUCCESS msg_hi) with (fuel := 5%nat)
    as [r' [Hrun [Hsem [Hit [Hqs _]]]]].
  - simpl. lia.
  - simpl. lia.
  - reflexivity.
  - intros k' i idq Hk' Hi Hq.
    destruct k' as [|[|k']]; [| |lia]; simpl in Hi; inversion Hi; subst;
      simpl in Hq; inversion Hq; subst; eexists _, _; reflexivity.
  - reflexivity.
  - reflexivity.
  - discriminate.
  - simpl. lia.
  - exists r'. split; [exact Hrun|]. split; [reflexivity|].
    split; [rewrite Hsem; reflexivity|]. split; [reflexivity|].
    split; [exact Hit | rewrite Hqs; reflexivity].
Defined.

(** ** Connect *)

Lemma adjust_thread_count_shard_count (configured peers : Z) :
  adjust_thread_count configured peers = shard_count configured peers.
Proof.
  unfold adjust_thread_count, shard_count.
  destruct (Z.eqb_spec configured 0); simpl; [reflexivity|].
  destruct (Z.gtb_spec configured peers); lia.
Qed.

Lemma vector_resize_done {A : Type} (n : Z) (dflt : A) (v v' : list A) :
  vector_resize n dflt v = Done v' ->
  0 <= n /\ v' = take (Z.to_nat n) v ++ replicate (Z.to_nat n - length v) dflt.
Proof.
  unfold vector_resize. destruct (Z.ltb_spec n 0); intros Hv; inversion Hv.
  split; [lia | reflexivity].
Qed.

Lemma socket_at_insert (sockets : list (gmap Z TCPSocket)) (t : nat)
    (m : gmap Z TCPSocket) (id : Z) (s : TCPSocket) (i : nat) (r : Z) :
  sockets !! t = Some m ->
  socket_at (<[t := <[id := s]> m]> sockets) i r
  = if decide (i = t /\ r = id) then Some s else socket_at sockets i r.
Proof.
  intros Ht. unfold socket_at.
  destruct (decide (i = t)) as [->|Hne].
  - rewrite list_lookup_insert_eq by (apply lookup_lt_Some in Ht; exact Ht).
    rewrite Ht. destruct (decide (r = id)) as [->|Hr].
    + rewrite lookup_insert_eq. rewrite decide_True by (split; reflexivity).
      reflexivity.
    + rewrite lookup_insert_ne by congruence.
      rewrite decide_False by (intros [_ ?]; contradiction). reflexivity.
  - rewrite list_lookup_insert_ne by congruence.
    rewrite decide_False by (intros [? _]; contradiction). reflexivity.
Qed.

Section Connect.

(** The retry budget and the sockets [Connect] creates are the same
    throughout. *)
Variable kMaxTryCount : Z.
Variable new_socket : Z -> TCPSocket.

(** When the loop over the receivers succeeds, the socket of every
    receiver it went through sits in shard [receiver_id mod N] under its
    id, and nothing else changed. *)
Lemma Connect_sockets_spec (N : Z) :
  forall rs sockets script tr sockets' script',
    0 <= N -> length sockets = Z.to_nat N ->
    (forall r a, (r, a) ∈ rs -> 0 <= r) ->
    Sender.Connect_sockets kMaxTryCount new_socket N rs sockets script
    = (tr, Done (true, (sockets', script'))) ->
    length sockets' = Z.to_nat N /\
    forall i r,
      socket_at sockets' i r
      = if decide (r ∈ rs.*1 /\ i = Z.to_nat (r mod N))
        then Some (new_socket r) else socket_at sockets i r.
Proof.
  induction rs as [|[r0 a0] rs IH]; intros sockets script tr sockets' script'
    HN Hlen Hpos H.
  - simpl in H. inversion H; subst. split; [assumption|].
    intros i r. rewrite decide_False; [reflexivity|].
    intros [Hin _]. simpl in Hin. apply elem_of_nil in Hin. exact Hin.
  - simpl in H.
    destruct (Z.eqb_spec N 0) as [HN0|HN0]; [discriminate|].
    assert (0 <= r0) as Hr0 by (apply (Hpos r0 a0); left).
    assert (Z.rem r0 N = r0 mod N) as Hrem by (apply Z.rem_mod_nonneg; lia).
    rewrite Hrem in H.
    pose proof (Z.mod_pos_bound r0 N ltac:(lia)) as Hbound.
    destruct (Z.ltb_spec (r0 mod N) 0); [lia|].
    destruct (sockets !! Z.to_nat (r0 mod N)) as [m|] eqn:Hm; [|discriminate].
    destruct (Sender.Connect_retry kMaxTryCount a0 script 0)
      as [tr1 [[bo script1]| | | |]]; unfold bind in H; simpl in H;
      try discriminate.
    destruct bo; simpl in H; [|discriminate].
    destruct (Sender.Connect_sockets kMaxTryCount new_socket N rs
                (<[Z.to_nat (r0 mod N) := <[r0 := new_socket r0]> m]> sockets) script1)
      as [tr2 e2] eqn:Hrec.
    simpl in H. inversion H; subst tr e2.
    apply IH in Hrec; [| assumption | rewrite length_insert; assumption |].
    2:{ intros r a Hin. apply (Hpos r a). right. exact Hin. }
    destruct Hrec as [Hlen' Hat]. split; [assumption|].
    intros i r. rewrite Hat. rewrite (socket_at_insert _ _ _ _ _ _ _ Hm).
    simpl. destruct (decide (r ∈ rs.*1 /\ i = Z.to_nat (r mod N))) as [[Hin Hi]|Hn].
    + rewrite decide_True; [reflexivity|]. split; [right; assumption | assumption].
    + destruct (decide (i = Z.to_nat (r0 mod N) /\ r = r0)) as [[Hi ->]|Hn'].
      * rewrite decide_True; [reflexivity|]. split; [left | assumption].
      * rewrite decide_False; [reflexivity|].
        intros [Hin Hi]. apply elem_of_cons in Hin. destruct Hin as [->|Hin].
        -- apply Hn'. split; [assumption | reflexivity].
        -- apply Hn. split; assumption.
Qed.

(** The thread-starting loop gives shard [i] its socket map and the
    queue of index [i]. *)
Lemma Connect_threads_spec (queue_size : Z) (sockets : list (gmap Z TCPSocket)) :
  forall n t msg_queue threads,
    (length msg_queue = t)%nat -> (t + n <= length sockets)%nat ->
    Sender.Connect_threads n (Z.of_nat t) queue_size sockets msg_queue threads
    = ([], Done (msg_queue ++ replicate n (MessageQueue_new queue_size),
                 threads ++ map (fun i => (default ∅ (sockets !! i), i)) (seq t n))).
Proof.
  induction n as [|n IH]; intros t msg_queue threads Hq Hs; simpl.
  - rewrite !app_nil_r. reflexivity.
  - rewrite Nat2Z.id.
    assert (is_Some (sockets !! t)) as [m Hm] by (apply lookup_lt_is_Some; lia).
    rewrite Hm.
    rewrite lookup_app_r by lia. rewrite Hq, Nat.sub_diag. simpl.
    replace (Z.of_nat t + 1) with (Z.of_nat (S t)) by lia.
    rewrite IH; [| rewrite length_app; simpl; lia | lia].
    rewrite <- !app_assoc. reflexivity.
Qed.

Lemma elem_of_map_to_list_keys (m : gmap Z IPAddr) (r : Z) :
  r ∈ (map_to_list m).*1 <-> is_Some (m !! r).
Proof.
  split.
  - intros H. apply list_elem_of_fmap in H. destruct H as [[r' a] [-> Hin]].
    apply elem_of_map_to_list in Hin. exists a. exact Hin.
  - intros [a Ha]. apply list_elem_of_fmap. exists (r, a).
    split; [reflexivity|]. apply elem_of_map_to_list. exact Ha.
Qed.

Lemma socket_at_replicate_empty (n : nat) (i : nat) (r : Z) :
  socket_at (replicate n ∅) i r = None.
Proof.
  unfold socket_at. destruct (replicate n (∅ : gmap Z TCPSocket) !! i) as [m|] eqn:Hm;
    [|reflexivity].
  apply lookup_replicate in Hm. destruct Hm as [-> _]. apply lookup_empty.
Qed.

(** Whenever [Connect] returns, the shard count it chose is
    [shard_count] of the configured count and the number of receivers,
    and it is not negative. *)
Lemma Connect_done (script : list bool) (s : Sender.SocketSender)
    (tr : list event) (b : bool) (s' : Sender.SocketSender) :
  Sender.Connect kMaxTryCount new_socket script s = (tr, Done (b, s')) ->
  Sender.max_thread_count_ s'
  = shard_count (Sender.max_thread_count_ s) (receiver_count s) /\
  0 <= Sender.max_thread_count_ s'.
Proof.
  unfold Sender.Connect. rewrite adjust_thread_count_shard_count.
  fold (receiver_count s).
  set (N := shard_count (Sender.max_thread_count_ s) (receiver_count s)).
  intros H.
  destruct (vector_resize N ∅ (Sender.sockets_ s)) as [sockets0| | | |] eqn:Hv;
    unfold bind, lift in H; simpl in H; try discriminate.
  apply vector_resize_done in Hv as [HN _].
  destruct (Sender.Connect_sockets kMaxTryCount new_socket N
              (map_to_list (Sender.receiver_addrs_ s)) sockets0 script)
    as [tr1 [[bo [sockets1 script1]]| | | |]]; simpl in H; try discriminate.
  destruct bo; simpl in H.
  - destruct (Sender.Connect_threads (Z.to_nat N) 0 (Sender.queue_size_ s) sockets1
                (Sender.msg_queue_ s) (Sender.threads_ s))
      as [tr2 [[mq th]| | | |]]; simpl in H; try discriminate.
    inversion H; subst. simpl. split; [reflexivity | assumption].
  - inversion H; subst. simpl. split; [reflexivity | assumption].
Qed.

(** What a successful [Connect] on a fresh sender leaves behind. *)
Lemma Connect_success (script : list bool) (s : Sender.SocketSender)
    (tr : list event) (s' : Sender.SocketSender) :
  not_connected s -> ids_nonnegative s ->
  Sender.Connect kMaxTryCount new_socket script s = (tr, Done (true, s')) ->
  let N := Sender.max_thread_count_ s' in
  length (Sender.sockets_ s') = Z.to_nat N /\
  Sender.msg_queue_ s' = replicate (Z.to_nat N) (MessageQueue_new (Sender.queue_size_ s)) /\
  Sender.threads_ s'
  = map (fun i => (default ∅ (Sender.sockets_ s' !! i), i)) (seq 0 (Z.to_nat N)) /\
  forall i r,
    socket_at (Sender.sockets_ s') i r
    = if decide (is_Some (Sender.receiver_addrs_ s !! r) /\ i = Z.to_nat (r mod N))
      then Some (new_socket r) else None.
Proof.
  intros [Hs [Hq Ht]] Hids H.
  destruct (Connect_done _ _ _ _ _ H) as [HN HN0].
  simpl. rewrite HN in *.
  set (N := shard_count (Sender.max_thread_count_ s) (receiver_count s)) in *.
  unfold Sender.Connect in H. rewrite adjust_thread_count_shard_count in H.
  fold (receiver_count s) in H. fold N in H. rewrite Hs, Hq, Ht in H.
  unfold vector_resize in H. destruct (Z.ltb_spec N 0); [lia|].
  rewrite bind_lift_done in H. simpl in H. rewrite Nat.sub_0_r in H.
  rewrite take_nil in H. simpl in H.
  destruct (Sender.Connect_sockets kMaxTryCount new_socket N
              (map_to_list (Sender.receiver_addrs_ s)) (replicate (Z.to_nat N) ∅) script)
    as [tr1 [[bo [sockets1 script1]]| | | |]] eqn:Hc; unfold bind in H; simpl in H;
    try discriminate.
  destruct bo; simpl in H; [|discriminate].
  apply Connect_sockets_spec in Hc; [| assumption | apply length_replicate |].
  2:{ intros r a Hin. apply elem_of_map_to_list in Hin. exact (Hids r a Hin). }
  destruct Hc as [Hlen Hat].
  change 0 with (Z.of_nat 0) in H.
  rewrite Connect_threads_spec in H; [| reflexivity | simpl; lia].
  simpl in H. inversion H; subst s'. simpl.
  repeat split; [assumption|].
  intros i r. rewrite Hat, socket_at_replicate_empty.
  destruct (decide (r ∈ (map_to_list (Sender.receiver_addrs_ s)).*1 /\
                    i = Z.to_nat (r mod N))) as [[Hin Hi]|Hn].
  - rewrite decide_True; [reflexivity|].
    split; [apply elem_of_map_to_list_keys; assumption | assumption].
  - rewrite decide_False; [reflexivity|].
    intros [Hin Hi]. apply Hn. split; [|assumption].
    apply elem_of_map_to_list_keys. assumption.
Qed.

End Connect.

(** ** Send *)

(** [Send] with a payload, a positive size and a non-negative id on a
    sender that has a queue at index [recv_id mod max_thread_count_]:
    the message, tagged with [recv_id], goes to that queue.  Whether
    [recv_id] was registered plays no part. *)
Lemma Send_enqueues (msg : Message) (recv_id : Z) (s : Sender.SocketSender)
    (q q' : MessageQueue) (code : STATUS) :
  is_Some (data msg) -> 0 < size msg -> 0 <= recv_id ->
  0 < Sender.max_thread_count_ s ->
  Sender.msg_queue_ s !! Z.to_nat (recv_id mod Sender.max_thread_count_ s) = Some q ->
  Queue_Add q (set_receiver_id msg recv_id) = Done (code, q') ->
  Sender.Send msg recv_id s
  = ([], Done (code,
               with_msg_queue s
                 (<[Z.to_nat (recv_id mod Sender.max_thread_count_ s) := q']>
                    (Sender.msg_queue_ s)))).
Proof.
  intros [buf Hdata] Hsize Hid HN Hq Hadd. unfold Sender.Send.
  rewrite Hdata.
  destruct (Z.gtb_spec (size msg) 0); [|lia]. simpl.
  destruct (Z.geb_spec recv_id 0); [|lia]. simpl.
  destruct (Z.eqb_spec (Sender.max_thread_count_ s) 0); [lia|].
  rewrite Z.rem_mod_nonneg by lia.
  pose proof (Z.mod_pos_bound recv_id (Sender.max_thread_count_ s) HN).
  destruct (Z.ltb_spec (recv_id mod Sender.max_thread_count_ s) 0); [lia|].
  rewrite Hq, Hadd. reflexivity.
Qed.

Lemma Queue_Add_new (queue_size : Z) (msg : Message) :
  Queue_Add (MessageQueue_new queue_size) msg
  = Done (ADD_SUCCESS, set_items (MessageQueue_new queue_size) [msg]).
Proof.
  unfold Queue_Add, queue_finished, MessageQueue_new.
  cbn [items capacity num_producers finished_producers].
  rewrite size_empty. cbn [length app]. change (Z.of_nat 0) with 0.
  change (1 <=? 0) with false. cbn iota.
  destruct (Z.ltb_spec 0 queue_size); cbn [andb]; [|reflexivity].
  destruct (Z.leb_spec queue_size 0); [lia | reflexivity].
Qed.

(** ** Wait *)

(** When the accept loop succeeds, the socket accepted for sender index
    [id] sits in shard [id mod N] under [id], and nothing else changed. *)
Lemma Wait_accept_spec (N queue_size : Z) :
  forall n i acc sockets msg_queue tr sockets' msg_queue',
    0 <= i -> 0 <= N -> length sockets = Z.to_nat N ->
    Receiver.Wait_accept n i N queue_size acc sockets msg_queue
    = (tr, Done (true, (sockets', msg_queue'))) ->
    length sockets' = Z.to_nat N /\
    forall t id,
      socket_at sockets' t id
      = if decide (i <= id < i + Z.of_nat n /\ t = Z.to_nat (id mod N))
        then mjoin (acc !! Z.to_nat (id - i)) else socket_at sockets t id.
Proof.
  induction n as [|n IH]; intros i acc sockets msg_queue tr sockets' msg_queue'
    Hi HN Hlen H.
  - simpl in H. inversion H; subst. split; [assumption|].
    intros t id. rewrite decide_False by lia. reflexivity.
  - simpl in H.
    destruct (Z.eqb_spec N 0) as [HN0|HN0]; [discriminate|].
    rewrite Z.rem_mod_nonneg in H by lia.
    pose proof (Z.mod_pos_bound i N ltac:(lia)) as Hbound.
    destruct (Z.ltb_spec (i mod N) 0); [lia|].
    destruct (sockets !! Z.to_nat (i mod N)) as [m|] eqn:Hm; [|discriminate].
    destruct acc as [|[socket|] acc]; [discriminate | | discriminate].
    apply IH in H; [| lia | assumption | rewrite length_insert; assumption].
    destruct H as [Hlen' Hat]. split; [assumption|].
    intros t id. rewrite Hat, (socket_at_insert _ _ _ _ _ _ _ Hm).
    destruct (decide (i + 1 <= id < i + 1 + Z.of_nat n /\ t = Z.to_nat (id mod N)))
      as [[Hid Ht]|Hn].
    + rewrite decide_True by (split; [lia | assumption]).
      replace (Z.to_nat (id - i)) with (S (Z.to_nat (id - (i + 1)))) by lia.
      reflexivity.
    + destruct (decide (t = Z.to_nat (i mod N) /\ id = i)) as [[Ht ->]|Hn'].
      * rewrite decide_True by (split; [lia | assumption]).
        rewrite Z.sub_diag. reflexivity.
      * rewrite decide_False; [reflexivity|].
        intros [Hid Ht]. destruct (decide (id = i)) as [->|Hne].
        -- apply Hn'. split; [assumption | reflexivity].
        -- apply Hn. split; [lia | assumption].
Qed.

(** When an [Accept] fails after [length socks] successful ones and more
    senders are expected, the loop logs a warning and gives [false]. *)
Lemma Wait_accept_fails (N queue_size : Z) (rest : list (option TCPSocket)) :
  0 < N ->
  forall socks n i sockets msg_queue,
    (length socks < n)%nat -> 0 <= i -> length sockets = Z.to_nat N ->
    exists sockets' msg_queue',
      Receiver.Wait_accept n i N queue_size ((Some <$> socks) ++ None :: rest)
        sockets msg_queue
      = ([EvLog "WARNING" "Error on accept socket."],
         Done (false, (sockets', msg_queue'))).
Proof.
  intros HN. induction socks as [|socket socks IH];
    intros n i sockets msg_queue Hn Hi Hlen;
    (destruct n as [|n]; [simpl in Hn; lia|]); simpl;
    (destruct (Z.eqb_spec N 0); [lia|]);
    rewrite Z.rem_mod_nonneg by lia;
    pose proof (Z.mod_pos_bound i N HN) as Hbound;
    (destruct (Z.ltb_spec (i mod N) 0); [lia|]);
    (assert (is_Some (sockets !! Z.to_nat (i mod N))) as [m Hm]
       by (apply lookup_lt_is_Some; lia));
    rewrite Hm.
  - eexists _, _. reflexivity.
  - apply IH; [simpl in Hn; lia | lia | rewrite length_insert; assumption].
Qed.

(** What a successful [Wait] on a fresh receiver leaves behind. *)
Lemma Wait_success (USE_EPOLL : bool)
    (SplitStringUsing : string -> string -> list string)
    (env : Receiver.WaitEnv) (addr : option string) (num_sender : Z)
    (r : Receiver.SocketReceiver) (tr : list event) (r' : Receiver.SocketReceiver) :
  Receiver.sockets_ r = [] ->
  Receiver.Wait USE_EPOLL SplitStringUsing env addr num_sender r = (tr, Done (true, r')) ->
  let N := Receiver.max_thread_count_ r' in
  N = Wait_shard_count USE_EPOLL (Receiver.max_thread_count_ r) num_sender /\
  0 < N /\
  forall t id,
    socket_at (Receiver.sockets_ r') t id
    = if decide (0 <= id < num_sender /\ t = Z.to_nat (id mod N))
      then mjoin (Receiver.accepts env !! Z.to_nat id) else None.
Proof.
  intros Hs H. unfold Receiver.Wait in H.
  destruct addr as [a|]; [|discriminate].
  destruct (Z.gtb_spec num_sender 0) as [Hnum|]; [|discriminate]. simpl in H.
  destruct (parse_address SplitStringUsing a) as [tr0 [address| | | |]];
    unfold bind in H; simpl in H; try discriminate.
  destruct (Receiver.bind_ok env); simpl in H; [|discriminate].
  destruct (Receiver.listen_ok env); simpl in H; [|discriminate].
  rewrite Hs in H. rewrite adjust_thread_count_shard_count in H.
  fold (Wait_shard_count USE_EPOLL (Receiver.max_thread_count_ r) num_sender) in H.
  set (N := Wait_shard_count USE_EPOLL (Receiver.max_thread_count_ r) num_sender) in *.
  unfold vector_resize, lift in H.
  destruct (Z.ltb_spec N 0) as [|HN]; simpl in H; [discriminate|].
  rewrite take_nil, Nat.sub_0_r in H. simpl in H.
  destruct (Receiver.Wait_accept (Z.to_nat num_sender) 0 N (Receiver.queue_size_ r)
              (Receiver.accepts env) (replicate (Z.to_nat N) ∅) (Receiver.msg_queue_ r))
    as [tr1 [[bo [sockets1 mq1]]| | | |]] eqn:Hacc; simpl in H; try discriminate.
  destruct bo; simpl in H; [|discriminate].
  destruct (Receiver.Wait_threads (Z.to_nat N) 0 sockets1 (Receiver.threads_ r))
    as [tr2 [threads| | | |]]; simpl in H; try discriminate.
  inversion H; subst r'. simpl.
  apply Wait_accept_spec in Hacc; [| lia | assumption | apply length_replicate].
  destruct Hacc as [_ Hat].
  assert (0 < N) as HNpos.
  { unfold N, Wait_shard_count, shard_count in *.
    destruct USE_EPOLL; [|lia].
    destruct (Z.eqb_spec (Receiver.max_thread_count_ r) 0); lia. }
  split; [reflexivity|]. split; [assumption|].
  intros t id. rewrite Hat, socket_at_replicate_empty.
  rewrite Z2Nat.id by lia. rewrite Z.sub_0_r.
  destruct (decide (0 <= id < 0 + num_sender /\ t = Z.to_nat (id mod N)))
    as [[Hid Ht]|Hn].
  - rewrite decide_True by (split; [lia | assumption]). reflexivity.
  - rewrite decide_False; [reflexivity|]. intros [Hid Ht]. apply Hn.
    split; [lia | assumption].
Qed.

(** ** Shards *)

(** C8, amended.  Sender: after a successful [Connect] on a fresh
    sender the shard count N is min(configured thread count, number of
    receivers), a configured 0 meaning one shard per receiver; the
    socket of a registered receiver r is in shard r mod N and in no
    other; thread i works on the sockets of shard i and on queue i; and
    [Send] to r puts the message on queue r mod N.  Receiver: after a
    successful [Wait] on a fresh receiver the socket accepted for sender
    index i is in shard i mod shardCount and in no other, where
    shardCount is chosen by the same rule from the configured thread
    count and the number of senders when the build uses epoll, and is
    the number of senders otherwise. *)
Theorem shard_is_id_mod_shard_count :
  (forall kMaxTryCount new_socket script s tr s',
      not_connected s -> ids_nonnegative s ->
      Sender.Connect kMaxTryCount new_socket script s = (tr, Done (true, s')) ->
      let N := Sender.max_thread_count_ s' in
      N = shard_count (Sender.max_thread_count_ s) (receiver_count s) /\
      (forall i r,
          socket_at (Sender.sockets_ s') i r
          = if decide (is_Some (Sender.receiver_addrs_ s !! r) /\ i = Z.to_nat (r mod N))
            then Some (new_socket r) else None) /\
      (forall i, (i < Z.to_nat N)%nat ->
                 Sender.threads_ s' !! i = Some (default ∅ (Sender.sockets_ s' !! i), i)) /\
      (forall msg r,
          is_Some (data msg) -> 0 < size msg -> 0 <= r -> 0 < N ->
          Sender.Send msg r s'
          = ([], Done (ADD_SUCCESS,
                       with_msg_queue s'
                         (<[Z.to_nat (r mod N) :=
                              set_items (MessageQueue_new (Sender.queue_size_ s))
                                [set_receiver_id msg r]]> (Sender.msg_queue_ s')))))) /\
  (forall USE_EPOLL SplitStringUsing env addr num_sender r tr r',
      Receiver.sockets_ r = [] ->
      Receiver.Wait USE_EPOLL SplitStringUsing env addr num_sender r
      = (tr, Done (true, r')) ->
      let N := Receiver.max_thread_count_ r' in
      N = Wait_shard_count USE_EPOLL (Receiver.max_thread_count_ r) num_sender /\
      forall t id,
        socket_at (Receiver.sockets_ r') t id
        = if decide (0 <= id < num_sender /\ t = Z.to_nat (id mod N))
          then mjoin (Receiver.accepts env !! Z.to_nat id) else None).
Proof.
  split.
  - intros kMaxTryCount new_socket script s tr s' Hfresh Hids H.
    destruct (Connect_done _ _ _ _ _ _ _ H) as [HN HN0].
    destruct (Connect_success _ _ _ _ _ _ Hfresh Hids H) as [Hlen [Hq [Ht Hat]]].
    simpl. split; [exact HN|]. split; [exact Hat|]. split.
    + intros i Hi. rewrite Ht, list_lookup_fmap, lookup_seq_lt by exact Hi.
      reflexivity.
    + intros msg r Hdata Hsize Hr HNpos.
      pose proof (Z.mod_pos_bound r _ HNpos) as Hbound.
      apply Send_enqueues with (q := MessageQueue_new (Sender.queue_size_ s));
        try assumption.
      * rewrite Hq. apply lookup_replicate. split; [reflexivity | lia].
      * apply Queue_Add_new.
  - intros USE_EPOLL SplitStringUsing env addr num_sender r tr r' Hs H.
    destruct (Wait_success _ _ _ _ _ _ _ _ Hs H) as [HN [_ Hat]].
    simpl. split; [exact HN | exact Hat].
Qed.

Lemma shard_is_id_mod_shard_count_witness :
  Sender.max_thread_count_ connected3 = 2 /\
  socket_at (Sender.sockets_ connected3) 0 2 = Some (fresh_socket 2) /\
  socket_at (Sender.sockets_ connected3) 1 2 = None /\
  Receiver.max_thread_count_ waited2 = 1 /\
  socket_at (Receiver.sockets_ waited2) 0 1 = Some (accepted 1).
Proof.
  destruct shard_is_id_mod_shard_count as [Hsender Hreceiver].
  assert (not_connected sender3) as Hfresh by (repeat split).
  assert (ids_nonnegative sender3) as Hids.
  { intros r a Hr. unfold sender3 in Hr. simpl in Hr. lookup_cases Hr; lia. }
  assert (Sender.Connect 1024 fresh_socket [false; true; true; true] sender3
          = (fst connect3, Done (true, connected3))) as Hrun
    by (vm_compute; reflexivity).
  destruct (Hsender _ _ _ _ _ _ Hfresh Hids Hrun) as [HN [Hat _]].
  assert (Receiver.Wait true split_on_delimiter friendly_env
            (Some "socket://127.0.0.1:50051") 2 receiver2
          = (fst wait2, Done (true, waited2))) as Hwait
    by (vm_compute; reflexivity).
  destruct (Hreceiver true split_on_delimiter friendly_env _ 2 receiver2 _ _
              eq_refl Hwait) as [HM Hat'].
  split; [rewrite HN; reflexivity|].
  split; [rewrite Hat, HN; reflexivity|].
  split; [rewrite Hat, HN; reflexivity|].
  split; [rewrite HM; reflexivity|].
  rewrite Hat', HM. reflexivity.
Defined.

(** C8 as stated fails on the receiver side in a build without
    USE_EPOLL (lines 216-218): a receiver configured with one thread
    that waits for two senders gets two shards, not min(1, 2) = 1, and
    the socket of sender index 1 is in shard 1, not in shard
    1 mod 1 = 0. *)
Lemma Wait_without_epoll_one_shard_per_sender :
  exists tr r',
    Receiver.Wait false split_on_delimiter friendly_env
      (Some "socket://127.0.0.1:50051") 2 receiver2 = (tr, Done (true, r')) /\
    Receiver.max_thread_count_ receiver2 = 1 /\
    shard_count (Receiver.max_thread_count_ receiver2) 2 = 1 /\
    Receiver.max_thread_count_ r' = 2 /\
    socket_at (Receiver.sockets_ r') 1 1 = Some (accepted 1) /\
    socket_at (Receiver.sockets_ r') 0 1 = None.
Proof.
  eexists _, _. split; [vm_compute; reflexivity|].
  repeat split.
Qed.

(** ** The divisor of Send *)

(** C10.  (a) [Send] has no guard on the divisor: with arguments that
    pass its three checks and [max_thread_count_] equal to 0 it computes
    [recv_id % 0].  (b) After a [Connect] that returned true with at
    least one receiver registered, [max_thread_count_] is strictly
    positive and the remainder [Send] computes is the shard index
    [recv_id mod max_thread_count_], within the range of the shards.
    (c) Without that: a sender built with the default configuration has
    the divisor 0 before [Connect], and whenever [Connect] returns with
    no receiver registered it leaves the divisor 0. *)
Theorem Send_divisor_positive_after_Connect :
  (forall msg recv_id s,
      is_Some (data msg) -> 0 < size msg -> 0 <= recv_id ->
      Sender.max_thread_count_ s = 0 ->
      Sender.Send msg recv_id s = ([], Undefined "recv_id % 0")) /\
  (forall kMaxTryCount new_socket script s tr s',
      Sender.Connect kMaxTryCount new_socket script s = (tr, Done (true, s')) ->
      1 <= receiver_count s ->
      0 < Sender.max_thread_count_ s' /\
      forall recv_id,
        0 <= recv_id ->
        Z.rem recv_id (Sender.max_thread_count_ s')
        = recv_id mod Sender.max_thread_count_ s' /\
        0 <= recv_id mod Sender.max_thread_count_ s' < Sender.max_thread_count_ s') /\
  (forall queue_size,
      Sender.max_thread_count_ (Sender.SocketSender_new queue_size 0) = 0) /\
  (forall kMaxTryCount new_socket script s tr b s',
      Sender.Connect kMaxTryCount new_socket script s = (tr, Done (b, s')) ->
      receiver_count s = 0 ->
      Sender.max_thread_count_ s' = 0).
Proof.
  split; [|split; [|split]].
  - intros msg recv_id s [buf Hdata] Hsize Hid HN. unfold Sender.Send.
    rewrite Hdata, HN.
    destruct (Z.gtb_spec (size msg) 0); [|lia].
    destruct (Z.geb_spec recv_id 0); [|lia]. reflexivity.
  - intros kMaxTryCount new_socket script s tr s' H Hcount.
    destruct (Connect_done _ _ _ _ _ _ _ H) as [HN HN0].
    assert (0 < Sender.max_thread_count_ s') as Hpos.
    { rewrite HN in *. unfold shard_count in *.
      destruct (Z.eqb_spec (Sender.max_thread_count_ s) 0); lia. }
    split; [exact Hpos|]. intros recv_id Hid.
    split; [apply Z.rem_mod_nonneg; lia | apply Z.mod_pos_bound; exact Hpos].
  - reflexivity.
  - intros kMaxTryCount new_socket script s tr b s' H Hcount.
    destruct (Connect_done _ _ _ _ _ _ _ H) as [HN HN0].
    rewrite HN in *. rewrite Hcount in *. unfold shard_count in *.
    destruct (Z.eqb_spec (Sender.max_thread_count_ s) 0); lia.
Qed.

Lemma Send_divisor_positive_after_Connect_witness :
  Sender.Send msg_hi 7 (Sender.SocketSender_new 0 0) = ([], Undefined "recv_id % 0") /\
  0 < Sender.max_thread_count_ connected3 /\
  (forall tr b s',
      Sender.Connect 1024 fresh_socket [] (Sender.SocketSender_new 0 0)
      = (tr, Done (b, s')) ->
      Sender.max_thread_count_ s' = 0).
Proof.
  destruct Send_divisor_positive_after_Connect as [Ha [Hb [_ Hd]]].
  split; [|split].
  - apply Ha; [eexists; reflexivity | simpl; lia | lia | reflexivity].
  - assert (Sender.Connect 1024 fresh_socket [false; true; true; true] sender3
            = (fst connect3, Done (true, connected3))) as Hrun
      by (vm_compute; reflexivity).
    destruct (Hb _ _ _ _ _ _ Hrun) as [Hpos _]; [vm_compute; discriminate|].
    exact Hpos.
  - intros tr b s' Hrun. apply (Hd _ _ _ _ _ _ _ Hrun). reflexivity.
Defined.

(** ** Send and unregistered receivers *)

Lemma Queue_Add_not_fatal (q : MessageQueue) (msg : Message) :
  ~ is_fatal (Queue_Add q msg).
Proof.
  unfold Queue_Add. destruct (queue_finished q); [simpl; tauto|].
  destruct ((0 <? capacity q) && (capacity q <=? Z.of_nat (length (items q))));
    simpl; tauto.
Qed.

(** C3, amended.  (a) [Send] ends in a fatal check exactly when the
    payload is null, the size is not positive or [recv_id] is negative.
    (b) It has no check on registration: after [Connect], with a queue
    at index [recv_id mod max_thread_count_], the message is tagged with
    [recv_id] and added to that queue, and the result does not depend on
    the registered receivers. *)
Theorem Send_checks_only_its_arguments :
  (forall msg recv_id s,
      is_fatal (snd (Sender.Send msg recv_id s))
      <-> (data msg = None \/ size msg <= 0 \/ recv_id < 0)) /\
  (forall msg recv_id s q q' code,
      is_Some (data msg) -> 0 < size msg -> 0 <= recv_id ->
      0 < Sender.max_thread_count_ s ->
      Sender.msg_queue_ s !! Z.to_nat (recv_id mod Sender.max_thread_count_ s) = Some q ->
      Queue_Add q (set_receiver_id msg recv_id) = Done (code, q') ->
      Sender.Send msg recv_id s
      = ([], Done (code,
                   with_msg_queue s
                     (<[Z.to_nat (recv_id mod Sender.max_thread_count_ s) := q']>
                        (Sender.msg_queue_ s))))).
Proof.
  split.
  - intros msg recv_id s. unfold Sender.Send.
    destruct (data msg) as [buf|]; [|simpl; split; [auto | tauto]].
    destruct (Z.gtb_spec (size msg) 0); simpl;
      [|split; [intros _; right; left; lia | tauto]].
    destruct (Z.geb_spec recv_id 0); simpl;
      [|split; [intros _; right; right; lia | tauto]].
    split; [|intros [?|[?|?]]; [discriminate | lia | lia]].
    destruct (Sender.max_thread_count_ s =? 0); [simpl; tauto|].
    destruct (Z.rem recv_id (Sender.max_thread_count_ s) <? 0); [simpl; tauto|].
    destruct (Sender.msg_queue_ s !! Z.to_nat (Z.rem recv_id (Sender.max_thread_count_ s)))
      as [q|]; [|simpl; tauto].
    pose proof (Queue_Add_not_fatal q (set_receiver_id msg recv_id)) as Hq.
    unfold bind, lift. simpl.
    destruct (Queue_Add q (set_receiver_id msg recv_id)); simpl in *; tauto.
  - intros msg recv_id s q q' code. apply Send_enqueues.
Qed.

Lemma Send_checks_only_its_arguments_witness :
  is_fatal (snd (Sender.Send (set_size msg_hi 0) 1 connected3)) /\
  Sender.Send msg_hi 1 connected3
  = ([], Done (ADD_SUCCESS,
               with_msg_queue connected3
                 [MessageQueue_new 0;
                  set_items (MessageQueue_new 0) [set_receiver_id msg_hi 1]])).
Proof.
  destruct Send_checks_only_its_arguments as [Ha Hb].
  split.
  - apply Ha. right. left. simpl. lia.
  - apply (Hb msg_hi 1 connected3 (MessageQueue_new 0)).
    + eexists. reflexivity.
    + simpl. lia.
    + lia.
    + vm_compute. reflexivity.
    + reflexivity.
    + reflexivity.
Defined.

(** C3 as stated fails.  Receiver 5 was never registered with
    [sender3]; after [Connect], [Send] to 5 passes every check and returns
    [ADD_SUCCESS] with the message, tagged 5, on queue 1; the [SendLoop]
    of shard 1 then finds no socket for it.  And [Send] before [Connect]
    runs into no check either, but into the empty [msg_queue_]. *)
Lemma Send_to_unregistered_receiver_is_enqueued :
  Sender.receiver_addrs_ connected3 !! 5 = None /\
  Sender.Send msg_hi 5 connected3
  = ([], Done (ADD_SUCCESS,
               with_msg_queue connected3
                 [MessageQueue_new 0;
                  set_items (MessageQueue_new 0) [set_receiver_id msg_hi 5]])) /\
  snd (Sender.SendLoop (default ∅ (Sender.sockets_ connected3 !! 1%nat))
         (Sender.drain (set_items (MessageQueue_new 0) [set_receiver_id msg_hi 5])))
  = Undefined "SendCore on the null socket that sockets[msg.receiver_id] inserted" /\
  Sender.Send msg_hi 0 sender3 = ([], Undefined "msg_queue_[i] past the end").
Proof.
  repeat split; vm_compute; reflexivity.
Qed.

(** ** Failures of Wait *)

Lemma length_vector_resize {A : Type} (n : Z) (dflt : A) (v : list A) :
  0 <= n ->
  length (take (Z.to_nat n) v ++ replicate (Z.to_nat n - length v) dflt) = Z.to_nat n.
Proof.
  intros Hn. rewrite length_app, length_take, length_replicate. lia.
Qed.

(** C2, amended.  For a call of [Wait] with a well-formed address and a
    positive number of senders: (a) when [Bind] fails the run ends in
    [LOG(FATAL)] "Cannot bind to"; (b) when [Listen] fails it ends in
    [LOG(FATAL)] "Cannot listen on"; (c) when one of the [num_sender]
    accepts fails, the earlier ones having succeeded, the run is not
    fatal: it logs the warning "Error on accept socket." and [Wait]
    returns false to its caller. *)
Theorem Wait_bind_listen_fatal_accept_false (USE_EPOLL : bool)
    (SplitStringUsing : string -> string -> list string)
    (env : Receiver.WaitEnv) (a : string) (num_sender : Z)
    (r : Receiver.SocketReceiver) (tr0 : list event) (address : IPAddr) :
  0 < num_sender ->
  parse_address SplitStringUsing a = (tr0, Done address) ->
  (Receiver.bind_ok env = false ->
   Receiver.Wait USE_EPOLL SplitStringUsing env (Some a) num_sender r
   = (tr0, Fatal ("Cannot bind to " ++ endpoint address)%string)) /\
  (Receiver.bind_ok env = true -> Receiver.listen_ok env = false ->
   Receiver.Wait USE_EPOLL SplitStringUsing env (Some a) num_sender r
   = (tr0, Fatal ("Cannot listen on " ++ endpoint address)%string)) /\
  (Receiver.bind_ok env = true -> Receiver.listen_ok env = true ->
   0 <= Receiver.max_thread_count_ r ->
   forall socks rest,
     Receiver.accepts env = (Some <$> socks) ++ None :: rest ->
     Z.of_nat (length socks) < num_sender ->
     fst (Receiver.Wait USE_EPOLL SplitStringUsing env (Some a) num_sender r)
     = tr0 ++ [EvLog "WARNING" "Error on accept socket."] /\
     returned (Receiver.Wait USE_EPOLL SplitStringUsing env (Some a) num_sender r)
     = Done false).
Proof.
  intros Hnum Hparse. unfold Receiver.Wait.
  destruct (Z.gtb_spec num_sender 0); [|lia]. simpl negb. cbn iota.
  rewrite (bind_done _ _ _ _ Hparse).
  split; [|split].
  - intros ->. simpl. rewrite app_nil_r. reflexivity.
  - intros -> ->. simpl. rewrite app_nil_r. reflexivity.
  - intros -> -> Hcfg socks rest Hacc Hlen. simpl negb. cbn iota.
    rewrite adjust_thread_count_shard_count.
    fold (Wait_shard_count USE_EPOLL (Receiver.max_thread_count_ r) num_sender).
    set (N := Wait_shard_count USE_EPOLL (Receiver.max_thread_count_ r) num_sender).
    assert (0 < N) as HN.
    { unfold N, Wait_shard_count, shard_count.
      destruct USE_EPOLL; [|lia].
      destruct (Z.eqb_spec (Receiver.max_thread_count_ r) 0); lia. }
    unfold vector_resize. destruct (Z.ltb_spec N 0); [lia|].
    rewrite bind_lift_done. rewrite Hacc.
    destruct (Wait_accept_fails N (Receiver.queue_size_ r) rest HN socks
                (Z.to_nat num_sender) 0
                (take (Z.to_nat N) (Receiver.sockets_ r)
                 ++ replicate (Z.to_nat N - length (Receiver.sockets_ r)) ∅)
                (Receiver.msg_queue_ r))
      as [sockets' [mq' Hfail]]; [lia | lia | apply length_vector_resize; lia |].
    rewrite (bind_done _ _ _ _ Hfail). simpl. split; reflexivity.
Qed.

Lemma Wait_bind_listen_fatal_accept_false_witness :
  is_fatal (snd (Receiver.Wait true split_on_delimiter no_bind_env
                   (Some "socket://127.0.0.1:50051") 2 receiver2)) /\
  is_fatal (snd (Receiver.Wait true split_on_delimiter no_listen_env
                   (Some "socket://127.0.0.1:50051") 2 receiver2)) /\
  returned (Receiver.Wait true split_on_delimiter refusing_env
              (Some "socket://127.0.0.1:50051") 2 receiver2) = Done false.
Proof.
  assert (parse_address split_on_delimiter "socket://127.0.0.1:50051"
          = ([], Done localhost)) as Hparse by reflexivity.
  split; [|split].
  - destruct (Wait_bind_listen_fatal_accept_false true split_on_delimiter
                no_bind_env _ 2 receiver2 _ _ ltac:(lia) Hparse) as [Ha _].
    rewrite (Ha eq_refl). exact I.
  - destruct (Wait_bind_listen_fatal_accept_false true split_on_delimiter
                no_listen_env _ 2 receiver2 _ _ ltac:(lia) Hparse) as [_ [Hb _]].
    rewrite (Hb eq_refl eq_refl). exact I.
  - destruct (Wait_bind_listen_fatal_accept_false true split_on_delimiter
                refusing_env _ 2 receiver2 _ _ ltac:(lia) Hparse) as [_ [_ Hc]].
    destruct (Hc eq_refl eq_refl ltac:(simpl; lia) [accepted 0] [] eq_refl
                ltac:(simpl; lia)) as [_ Hret].
    exact Hret.
Defined.

(** C2 as stated fails: with [Bind] and [Listen] succeeding and the
    second of two required accepts failing, [Wait] is not fatal; it logs
    a warning and returns false. *)
Lemma Wait_accept_failure_returns_false :
  fst (Receiver.Wait true split_on_delimiter refusing_env
         (Some "socket://127.0.0.1:50051") 2 receiver2)
  = [EvLog "WARNING" "Error on accept socket."] /\
  returned (Receiver.Wait true split_on_delimiter refusing_env
              (Some "socket://127.0.0.1:50051") 2 receiver2) = Done false /\
  ~ is_fatal (snd (Receiver.Wait true split_on_delimiter refusing_env
                     (Some "socket://127.0.0.1:50051") 2 receiver2)).
Proof.
  split; [vm_compute; reflexivity|].
  split; [vm_compute; reflexivity|].
  vm_compute. tauto.
Qed.

(** ** The address check *)

Lemma parse_address_no_events (SplitStringUsing : string -> string -> list string)
    (a : string) :
  fst (parse_address SplitStringUsing a) = [].
Proof.
  unfold parse_address.
  destruct (SplitStringUsing a "//") as [|scheme tl]; [reflexivity|].
  destruct (negb (String.eqb scheme "socket:") || negb (Nat.eqb (length (scheme :: tl)) 2));
    [reflexivity|].
  destruct (negb (Nat.eqb (length (SplitStringUsing (default "" ((scheme :: tl) !! 1%nat)) ":")) 2));
    [reflexivity|].
  unfold bind, lift. simpl.
  destruct (stoi _); reflexivity.
Qed.

(** C9, amended.  Whatever pieces [SplitStringUsing] gives for an
    address: (a) if the first piece of the split at "//" is not
    "socket:", or the pieces are not two, the check ends in [LOG(FATAL)]
    with the message that names the expected format; (b) so it does if
    the split of the second piece at ":" does not give two pieces;
    (c) otherwise there is no further check: the port text goes to
    [std::stoi] and the outcome is that of [std::stoi]; (d) [AddReceiver]
    with a non-negative id and [Wait] with a positive number of senders
    end in the same fatal error whenever the check does. *)
Theorem address_format_check (SplitStringUsing : string -> string -> list string)
    (a : string) :
  (forall scheme tl,
      SplitStringUsing a "//" = scheme :: tl ->
      scheme <> "socket:" \/ length (scheme :: tl) <> 2%nat ->
      parse_address SplitStringUsing a = ([], Fatal (address_format_error a))) /\
  (forall hp,
      SplitStringUsing a "//" = ["socket:"; hp] ->
      length (SplitStringUsing hp ":") <> 2%nat ->
      parse_address SplitStringUsing a = ([], Fatal (address_format_error a))) /\
  (forall hp h p,
      SplitStringUsing a "//" = ["socket:"; hp] ->
      SplitStringUsing hp ":" = [h; p] ->
      parse_address SplitStringUsing a
      = ([], ending_map (fun n => {| ip := h; port := n |}) (stoi p))) /\
  (forall why recv_id s,
      0 <= recv_id ->
      snd (parse_address SplitStringUsing a) = Fatal why ->
      Sender.AddReceiver SplitStringUsing (Some a) recv_id s = ([], Fatal why)) /\
  (forall why USE_EPOLL env num_sender r,
      0 < num_sender ->
      snd (parse_address SplitStringUsing a) = Fatal why ->
      Receiver.Wait USE_EPOLL SplitStringUsing env (Some a) num_sender r
      = ([], Fatal why)).
Proof.
  split; [|split; [|split; [|split]]].
  - intros scheme tl Hsplit Hbad. unfold parse_address. rewrite Hsplit.
    destruct Hbad as [Hscheme|Hlen].
    + apply String.eqb_neq in Hscheme. rewrite Hscheme. reflexivity.
    + apply Nat.eqb_neq in Hlen. rewrite Hlen. rewrite orb_true_r. reflexivity.
  - intros hp Hsplit Hlen. unfold parse_address. rewrite Hsplit. simpl.
    apply Nat.eqb_neq in Hlen. rewrite Hlen. reflexivity.
  - intros hp h p Hsplit Hhp. unfold parse_address. rewrite Hsplit. simpl.
    rewrite Hhp. simpl. unfold bind, lift. simpl.
    destruct (stoi p); reflexivity.
  - intros why recv_id s Hid Hfatal. unfold Sender.AddReceiver.
    destruct (Z.ltb_spec recv_id 0); [lia|].
    pose proof (parse_address_no_events SplitStringUsing a) as Hnil.
    destruct (parse_address SplitStringUsing a) as [tr e]. simpl in *. subst.
    reflexivity.
  - intros why USE_EPOLL env num_sender r Hnum Hfatal. unfold Receiver.Wait.
    destruct (Z.gtb_spec num_sender 0); [|lia].
    pose proof (parse_address_no_events SplitStringUsing a) as Hnil.
    destruct (parse_address SplitStringUsing a) as [tr e]. simpl in *. subst.
    reflexivity.
Qed.

Lemma address_format_check_witness :
  parse_address split_on_delimiter "tcp://127.0.0.1:50051"
  = ([], Fatal (address_format_error "tcp://127.0.0.1:50051")) /\
  parse_address split_on_delimiter "socket://127.0.0.1"
  = ([], Fatal (address_format_error "socket://127.0.0.1")) /\
  parse_address split_on_delimiter "socket://127.0.0.1:50051" = ([], Done localhost) /\
  Sender.AddReceiver split_on_delimiter (Some "socket://a:1:2") 0
    (Sender.SocketSender_new 0 0)
  = ([], Fatal (address_format_error "socket://a:1:2")) /\
  Receiver.Wait false split_on_delimiter friendly_env (Some "socket:127.0.0.1:50051") 1
    receiver2
  = ([], Fatal (address_format_error "socket:127.0.0.1:50051")).
Proof.
  split; [|split; [|split; [|split]]].
  - destruct (address_format_check split_on_delimiter "tcp://127.0.0.1:50051")
      as [Ha _].
    apply (Ha "tcp:" ["127.0.0.1:50051"]); [reflexivity|].
    left. discriminate.
  - destruct (address_format_check split_on_delimiter "socket://127.0.0.1")
      as [_ [Hb _]].
    apply (Hb "127.0.0.1"); [reflexivity|]. simpl. lia.
  - destruct (address_format_check split_on_delimiter "socket://127.0.0.1:50051")
      as [_ [_ [Hc _]]].
    apply (Hc "127.0.0.1:50051" "127.0.0.1" "50051"); reflexivity.
  - destruct (address_format_check split_on_delimiter "socket://a:1:2")
      as [_ [_ [_ [Hd _]]]].
    apply Hd; [lia | reflexivity].
  - destruct (address_format_check split_on_delimiter "socket:127.0.0.1:50051")
      as [_ [_ [_ [_ He]]]].
    apply He; [lia | reflexivity].
Defined.

(** C9 as stated fails on the port.  The address
    "socket://127.0.0.1:80abc" is accepted without any error and
    registered with port 80; on "socket://127.0.0.1:abc" the run ends in
    the exception of [std::stoi], not in the format error. *)
Lemma malformed_port_is_no_format_error :
  parse_address split_on_delimiter "socket://127.0.0.1:80abc"
  = ([], Done {| ip := "127.0.0.1"; port := 80 |}) /\
  ending_map (fun s => Sender.receiver_addrs_ s !! 7)
    (snd (Sender.AddReceiver split_on_delimiter (Some "socket://127.0.0.1:80abc") 7
            (Sender.SocketSender_new 0 0)))
  = Done (Some {| ip := "127.0.0.1"; port := 80 |}) /\
  parse_address split_on_delimiter "socket://127.0.0.1:abc"
  = ([], Thrown "std::invalid_argument: stoi") /\
  Receiver.Wait true split_on_delimiter friendly_env (Some "socket://127.0.0.1:abc") 2
    receiver2
  = ([], Thrown "std::invalid_argument: stoi").
Proof.
  repeat split; vm_compute; reflexivity.
Qed.

(** ** RecvLoop and the end-of-stream frame *)

(** When the socket that delivers the size 0 is the last one its thread
    monitors, the loop returns and nothing is queued or posted. *)
Lemma RecvLoop_header_stop_last_socket (max_alloc sender_id : Z)
    (socket socket' : TCPSocket) (ctx : Receiver.RecvContext) (pool : gset Z) :
  Receiver.data_size ctx = -1 ->
  RecvDataSize socket = Done (0, socket') ->
  pool ∖ {[sender_id]} = ∅ ->
  Receiver.RecvLoop_header max_alloc sender_id socket ctx pool
  = ([], Done (Receiver.Return (socket',
                       {| Receiver.data_size := 0;
                          Receiver.received_bytes := Receiver.received_bytes ctx;
                          Receiver.buffer := Receiver.buffer ctx |},
                       ∅))).
Proof.
  intros Hctx Hsize Hpool. unfold Receiver.RecvLoop_header.
  rewrite Hctx, Hsize. simpl. rewrite bind_lift_done. simpl.
  unfold Receiver.SocketPool_RemoveSocket. rewrite Hpool. reflexivity.
Qed.

Lemma queue_lookup_store (id : Z) (q : MessageQueue) (qs : list (Z * MessageQueue)) :
  queue_lookup id (queue_store id q qs) = Some q.
Proof.
  induction qs as [|[k q0] qs IH]; simpl.
  - rewrite Z.eqb_refl. reflexivity.
  - destruct (Z.eqb_spec k id) as [->|Hne]; simpl.
    + rewrite Z.eqb_refl. reflexivity.
    + destruct (Z.eqb_spec k id); [contradiction | exact IH].
Qed.

Lemma RecvData_complete (socket : TCPSocket) (buffer : option (list Byte.byte))
    (data_size received_bytes : Z) :
  data_size <= received_bytes ->
  RecvData socket buffer data_size received_bytes
  = Done (socket, (buffer, received_bytes)).
Proof.
  intros Hle. unfold RecvData. destruct socket as [f sr wire ready].
  destruct ready as [|r ready]; simpl;
    (destruct (Z.ltb_spec received_bytes data_size); [lia | reflexivity]).
Qed.

(** When other sockets are still monitored, the iteration that reads the
    size 0 goes on past the stop branch: it calls [Add] with a message of
    size 0 on the sender's queue and posts the semaphore. *)
Lemma RecvLoop_body_stop_falls_through (max_alloc sender_id : Z)
    (w : Receiver.RecvWorld) (socket socket' : TCPSocket) (q q' : MessageQueue)
    (ctx : Receiver.RecvContext) (code : STATUS) :
  Receiver.w_sockets w !! sender_id = Some socket ->
  queue_lookup sender_id (Receiver.w_queues w) = Some q ->
  Receiver.w_contexts w !! sender_id = Some ctx ->
  Queue_EmptyAndNoMoreAdd q = false ->
  Receiver.data_size ctx = -1 ->
  0 <= Receiver.received_bytes ctx ->
  RecvDataSize socket = Done (0, socket') ->
  Receiver.w_pool w ∖ {[sender_id]} <> ∅ ->
  Queue_Add q {| data := Receiver.buffer ctx; size := 0; receiver_id := 0;
                 deallocator := Some "DefaultMessageDeleter" |} = Done (code, q') ->
  exists w',
    Receiver.RecvLoop_body max_alloc sender_id w
    = ([EvAdd sender_id {| data := Receiver.buffer ctx; size := 0; receiver_id := 0;
                           deallocator := Some "DefaultMessageDeleter" |};
        EvPost],
       Done (Receiver.Continue w')) /\
    Receiver.w_sem w' = Receiver.w_sem w + 1 /\
    queue_lookup sender_id (Receiver.w_queues w') = Some q'.
Proof.
  intros Hsock Hq Hctx Hopen Hsize Hrecv Hzero Hpool Hadd.
  unfold Receiver.RecvLoop_body. rewrite Hsock, Hq, Hctx, Hopen.
  unfold Receiver.RecvLoop_header. rewrite Hsize, Hzero. simpl Z.eqb. cbn iota.
  rewrite bind_lift_done. simpl fst. simpl snd. simpl Z.gtb. simpl Z.eqb. cbn iota.
  unfold Receiver.SocketPool_RemoveSocket. simpl fst. simpl snd.
  destruct (Z.eqb_spec (Z.of_nat (base.size (Receiver.w_pool w ∖ {[sender_id]}))) 0)
    as [Hsz|Hsz].
  { exfalso. apply Hpool. apply leibniz_equiv. apply size_empty_iff. lia. }
  unfold ret at 1. unfold bind at 1. simpl fst. simpl snd. cbn iota.
  unfold Receiver.RecvLoop_payload. simpl Receiver.data_size.
  simpl Receiver.received_bytes. simpl Receiver.buffer.
  rewrite RecvData_complete by lia. rewrite bind_lift_done.
  simpl fst. simpl snd.
  destruct (Z.geb_spec (Receiver.received_bytes ctx) 0); [|lia].
  simpl receiver_id. rewrite Hadd. eexists. split; [reflexivity|].
  split; [reflexivity|]. simpl. apply queue_lookup_store.
Qed.

(** C1 fails on the code.  A receiver with one thread accepts two
    senders; sender 0 sends "hi" and its end-of-stream frame while the
    socket of sender 1 is still monitored.  For the frame of size 0 the
    [RecvLoop] calls [Add] on the queue of sender 0 with a message of
    size 0 and posts the semaphore, and the second [Recv], or the second
    [RecvFrom] for sender 0, of the consumer returns that zero-length
    message. *)
Theorem RecvLoop_queues_end_of_stream_frame :
  fst recv_thread
  = [EvAdd 0 hi_received; EvPost; EvAdd 0 zero_length_message; EvPost] /\
  is_done (snd recv_thread) /\
  size zero_length_message = 0 /\
  Receiver.queue_sem_ received2 = 2 /\
  (exists r1 r2,
      Receiver.Recv 4 Message_default received2
      = Done (REMOVE_SUCCESS, hi_received, 0, r1) /\
      Receiver.Recv 4 Message_default r1
      = Done (REMOVE_SUCCESS, zero_length_message, 0, r2)) /\
  (exists r1 r2,
      Receiver.RecvFrom Message_default 0 received2
      = Done (REMOVE_SUCCESS, hi_received, r1) /\
      Receiver.RecvFrom Message_default 0 r1
      = Done (REMOVE_SUCCESS, zero_length_message, r2)).
Proof.
  split; [vm_compute; reflexivity|].
  split; [vm_compute; exact I|].
  split; [reflexivity|].
  split; [vm_compute; reflexivity|].
  split; eexists _, _; split; vm_compute; reflexivity.
Qed.

(* ================================================================== *)
(** * Further properties *)

(** ** What SendCore has written, however it ends *)

Lemma bytes_on_sends (sock_fd : Z) (chunks : list (list Byte.byte)) :
  bytes_on sock_fd (sends sock_fd chunks) = concat chunks.
Proof.
  induction chunks as [|c chunks IH]; [reflexivity|].
  change (bytes_on sock_fd (sends sock_fd (c :: chunks)))
    with ((if sock_fd =? sock_fd then c else []) ++ bytes_on sock_fd (sends sock_fd chunks)).
  rewrite Z.eqb_refl, IH. reflexivity.
Qed.

Lemma bytes_on_sends_other (sock_fd other : Z) (chunks : list (list Byte.byte)) :
  other <> sock_fd -> bytes_on other (sends sock_fd chunks) = [].
Proof.
  intros Hne. induction chunks as [|c chunks IH]; [reflexivity|].
  change (bytes_on other (sends sock_fd (c :: chunks)))
    with ((if sock_fd =? other then c else []) ++ bytes_on other (sends sock_fd chunks)).
  destruct (Z.eqb_spec sock_fd other); [congruence|]. exact IH.
Qed.

Lemma bytes_on_app (sock_fd : Z) (t1 t2 : list event) :
  bytes_on sock_fd (t1 ++ t2) = bytes_on sock_fd t1 ++ bytes_on sock_fd t2.
Proof. unfold bytes_on. apply flat_map_app. Qed.

Lemma bytes_on_dealloc_events (sock_fd : Z) (msg : Message) :
  bytes_on sock_fd (dealloc_events msg) = [].
Proof. unfold dealloc_events. destruct (deallocator msg); reflexivity. Qed.

(** The first loop, whatever its ending: the chunks written so far are a
    prefix of what is left of the size field, and they are all of it
    exactly when the loop has ended normally. *)
Lemma SendCore_size_prefix (sock_fd msg_size : Z) (ready : list Z) :
  forall k, 0 <= k <= 8 ->
    exists chunks,
      fst (SendCore_size sock_fd msg_size ready k) = sends sock_fd chunks /\
      concat chunks `prefix_of` drop (Z.to_nat k) (int64_bytes msg_size) /\
      (is_done (snd (SendCore_size sock_fd msg_size ready k))
       <-> concat chunks = drop (Z.to_nat k) (int64_bytes msg_size)).
Proof.
  assert (forall k, 0 <= k < 8 -> [] <> drop (Z.to_nat k) (int64_bytes msg_size))
    as Hleft.
  { intros k Hk Heq. apply (f_equal length) in Heq.
    rewrite length_drop, length_int64_bytes in Heq. simpl in Heq. lia. }
  induction ready as [|r ready IH]; intros k Hk; simpl;
    rewrite to_size_t_small by lia.
  - destruct (Z.ltb_spec k 8).
    + exists []. split; [reflexivity|]. split; [apply prefix_nil|].
      split; [intros [] | intros Heq; exact (Hleft k ltac:(lia) Heq)].
    + assert (k = 8) as -> by lia. exists [].
      split; [reflexivity|]. split; [apply prefix_nil|].
      split; [reflexivity | intros _; exact I].
  - destruct (Z.ltb_spec k 8) as [Hlt|Hge].
    + destruct (Z.eqb_spec (Send_result r (8 - k)) (-1)) as [He|Hne].
      * exists []. split; [reflexivity|]. split; [apply prefix_nil|].
        split; [intros [] | intros Heq; exact (Hleft k ltac:(lia) Heq)].
      * assert (0 <= Send_result r (8 - k) <= 8 - k) as Ht.
        { unfold Send_result in *. destruct (Z.ltb_spec r 0); lia. }
        destruct (IH (k + Send_result r (8 - k))) as [chunks [Htr [Hpre Hiff]]]; [lia|].
        rewrite bind_emit. simpl.
        eexists (_ :: chunks). split; [simpl; rewrite Htr; reflexivity|].
        simpl concat.
        pose proof (take_drop_step (int64_bytes msg_size) k (Send_result r (8 - k))
                      ltac:(lia) ltac:(lia)) as Hsplit.
        set (c := take (Z.to_nat (Send_result r (8 - k)))
                    (drop (Z.to_nat k) (int64_bytes msg_size))) in *.
        rewrite <- Hsplit.
        split.
        -- apply prefix_app. exact Hpre.
        -- rewrite Hiff. split; [intros ->; reflexivity|].
           intros Heq. apply app_inv_head in Heq. exact Heq.
    + assert (k = 8) as -> by lia. exists [].
      split; [reflexivity|]. split; [apply prefix_nil|].
      split; [reflexivity | intros _; exact I].
Qed.

Lemma SendCore_data_prefix (sock_fd : Z) (msg : Message) (ready : list Z) :
  buffer_holds_size msg ->
  forall k, 0 <= k <= size msg ->
    exists chunks,
      fst (SendCore_data sock_fd msg ready k) = sends sock_fd chunks /\
      concat chunks `prefix_of` drop (Z.to_nat k) (payload msg) /\
      (is_done (snd (SendCore_data sock_fd msg ready k))
       <-> concat chunks = drop (Z.to_nat k) (payload msg)).
Proof.
  intros [Hsize Hbuf].
  assert (length (payload msg) = Z.to_nat (size msg)) as Hlen
    by (unfold payload; rewrite length_take; lia).
  assert (forall k, 0 <= k < size msg -> [] <> drop (Z.to_nat k) (payload msg))
    as Hleft.
  { intros k Hk Heq. apply (f_equal length) in Heq.
    rewrite length_drop, Hlen in Heq. simpl in Heq. lia. }
  assert (drop (Z.to_nat (size msg)) (payload msg) = []) as Hend
    by (apply drop_ge; lia).
  induction ready as [|r ready IH]; intros k Hk; simpl.
  - destruct (Z.ltb_spec k (size msg)).
    + exists []. split; [reflexivity|]. split; [apply prefix_nil|].
      split; [intros [] | intros Heq; exact (Hleft k ltac:(lia) Heq)].
    + assert (k = size msg) as -> by lia. exists []. rewrite Hend.
      split; [reflexivity|]. split; [apply prefix_nil|].
      split; [reflexivity | intros _; exact I].
  - destruct (Z.ltb_spec k (size msg)) as [Hlt|Hge].
    + destruct (Z.eqb_spec (Send_result r (size msg - k)) (-1)) as [He|Hne].
      * exists []. split; [reflexivity|]. split; [apply prefix_nil|].
        split; [intros [] | intros Heq; exact (Hleft k ltac:(lia) Heq)].
      * assert (0 <= Send_result r (size msg - k) <= size msg - k) as Ht.
        { unfold Send_result in *. destruct (Z.ltb_spec r 0); lia. }
        set (tmp := Send_result r (size msg - k)) in *.
        unfold buf_read.
        destruct (data msg) as [buf|] eqn:Hdata; simpl in Hbuf; [|lia].
        replace ((0 <=? k) && (0 <=? tmp) && (k + tmp <=? Z.of_nat (length buf)))
          with true by (symmetry; rewrite !andb_true_iff, !Z.leb_le; lia).
        destruct (IH (k + tmp)) as [chunks [Htr [Hpre Hiff]]]; [lia|].
        rewrite bind_emit. simpl.
        eexists (_ :: chunks). split; [simpl; rewrite Htr; reflexivity|].
        simpl concat.
        assert (take (Z.to_nat tmp) (drop (Z.to_nat k) buf)
                = take (Z.to_nat tmp) (drop (Z.to_nat k) (payload msg))) as ->.
        { unfold payload. rewrite Hdata. simpl.
          rewrite !take_drop_commute. f_equal.
          rewrite take_take. f_equal. lia. }
        pose proof (take_drop_step (payload msg) k tmp ltac:(lia) ltac:(lia))
          as Hsplit.
        set (c := take (Z.to_nat tmp) (drop (Z.to_nat k) (payload msg))) in *.
        rewrite <- Hsplit.
        split.
        -- apply prefix_app. exact Hpre.
        -- rewrite Hiff. split; [intros ->; reflexivity|].
           intros Heq. apply app_inv_head in Heq. exact Heq.
    + assert (k = size msg) as -> by lia. exists []. rewrite Hend.
      split; [reflexivity|]. split; [apply prefix_nil|].
      split; [reflexivity | intros _; exact I].
Qed.

(** The shape of every [SendCore] run. *)
Lemma SendCore_shape (msg : Message) (socket : TCPSocket) :
  buffer_holds_size msg ->
  exists c1 c2 d,
    fst (SendCore msg socket) = sends (fd socket) c1 ++ sends (fd socket) c2 ++ d /\
    concat c1 `prefix_of` int64_bytes (size msg) /\
    concat c2 `prefix_of` payload msg /\
    (concat c1 <> int64_bytes (size msg) -> c2 = []) /\
    (is_done (snd (SendCore msg socket))
     <-> concat c1 = int64_bytes (size msg) /\ concat c2 = payload msg) /\
    (d = [] \/ (d = [EvDealloc msg] /\ is_done (snd (SendCore msg socket)))).
Proof.
  intros Hbuf. unfold SendCore.
  destruct (SendCore_size_prefix (fd socket) (size msg) (send_ready socket) 0)
    as [c1 [Ht1 [Hp1 Hd1]]]; [lia|].
  change (drop (Z.to_nat 0) (int64_bytes (size msg))) with (int64_bytes (size msg))
    in Hp1, Hd1.
  destruct (SendCore_size (fd socket) (size msg) (send_ready socket) 0)
    as [tr1 e1]. simpl in Ht1, Hd1. subst tr1.
  destruct e1 as [ready1| | | |]; unfold bind; simpl.
  1:{ destruct Hd1 as [Hd1 _]. specialize (Hd1 I).
      destruct (SendCore_data_prefix (fd socket) msg ready1 Hbuf 0)
        as [c2 [Ht2 [Hp2 Hd2]]]; [destruct Hbuf; lia|].
      change (drop (Z.to_nat 0) (payload msg)) with (payload msg) in Hp2, Hd2.
      destruct (SendCore_data (fd socket) msg ready1 0) as [tr2 e2].
      simpl in Ht2, Hd2. subst tr2.
      destruct e2 as [ready2| | | |]; simpl.
      1:{ destruct Hd2 as [Hd2 _]. specialize (Hd2 I).
          exists c1, c2, (dealloc_events msg). unfold dealloc_events.
          destruct (deallocator msg); simpl; rewrite ?app_nil_r;
            (split; [reflexivity|]); (split; [exact Hp1|]); (split; [exact Hp2|]);
            (split; [intros Hne; contradiction|]);
            (split; [split; [intros _; split; assumption | intros _; exact I]|]).
          - right. split; [reflexivity | exact I].
          - left. reflexivity. }
      all: exists c1, c2, []; rewrite app_nil_r;
        (split; [reflexivity|]); (split; [exact Hp1|]); (split; [exact Hp2|]);
        (split; [intros Hne; contradiction|]);
        (split; [split; [intros [] | intros [_ Heq]; apply Hd2 in Heq; exact Heq]|]);
        left; reflexivity. }
  all: exists c1, [], []; simpl; rewrite app_nil_r;
    (split; [reflexivity|]); (split; [exact Hp1|]); (split; [apply prefix_nil|]);
    (split; [intros _; reflexivity|]);
    (split; [split; [intros [] | intros [Heq _]; apply Hd1 in Heq; exact Heq]|]);
    left; reflexivity.
Qed.

(** X1.  However a [SendCore] run ends (returned, fatal, still waiting
    for the socket), for a message whose buffer holds its size: what it
    has written on its socket is a prefix of the frame of the message, it
    has written on no other socket, it has returned exactly when the
    whole frame is written, and the deallocator is not called in a run
    that has not returned. *)
Theorem SendCore_writes_a_prefix_of_the_frame (msg : Message) (socket : TCPSocket) :
  buffer_holds_size msg ->
  bytes_on (fd socket) (fst (SendCore msg socket)) `prefix_of` frame_bytes msg /\
  (forall other, other <> fd socket ->
                 bytes_on other (fst (SendCore msg socket)) = []) /\
  (is_done (snd (SendCore msg socket))
   <-> bytes_on (fd socket) (fst (SendCore msg socket)) = frame_bytes msg) /\
  (forall m, EvDealloc m ∈ fst (SendCore msg socket) ->
             is_done (snd (SendCore msg socket))).
Proof.
  intros Hbuf.
  destruct (SendCore_shape msg socket Hbuf)
    as [c1 [c2 [d [Htr [Hp1 [Hp2 [Hc2 [Hdone Hd]]]]]]]].
  assert (forall f, bytes_on f d = []) as Hdnil.
  { intros f. destruct Hd as [->|[-> _]]; reflexivity. }
  assert (bytes_on (fd socket) (fst (SendCore msg socket)) = concat c1 ++ concat c2)
    as Hbytes.
  { rewrite Htr, !bytes_on_app, !bytes_on_sends, Hdnil, app_nil_r. reflexivity. }
  unfold frame_bytes. split; [|split; [|split]].
  - rewrite Hbytes. destruct Hp1 as [k1 Hk1].
    destruct k1 as [|b k1].
    + rewrite app_nil_r in Hk1. rewrite Hk1. apply prefix_app. exact Hp2.
    + rewrite Hc2.
      * cbn [concat]. rewrite app_nil_r, Hk1, <- app_assoc.
        apply prefix_app_r. reflexivity.
      * intros Heq. rewrite Heq in Hk1. apply (f_equal length) in Hk1.
        rewrite length_app in Hk1. cbn [length] in Hk1. lia.
  - intros other Hne.
    rewrite Htr, !bytes_on_app, !bytes_on_sends_other, Hdnil by assumption.
    reflexivity.
  - rewrite Hbytes, Hdone. split.
    + intros [-> ->]. reflexivity.
    + intros Heq. destruct Hp1 as [k1 Hk1]. destruct k1 as [|b k1].
      * rewrite app_nil_r in Hk1. rewrite <- Hk1 in *.
        apply app_inv_head in Heq. split; [reflexivity | exact Heq].
      * exfalso. rewrite Hc2 in Heq.
        -- cbn [concat] in Heq. rewrite app_nil_r in Heq. rewrite Hk1 in Heq.
           apply (f_equal length) in Heq. rewrite !length_app in Heq.
           cbn [length] in Heq. lia.
        -- intros Heq'. rewrite Heq' in Hk1. apply (f_equal length) in Hk1.
           rewrite length_app in Hk1. cbn [length] in Hk1. lia.
  - intros m Hin. rewrite Htr in Hin.
    apply elem_of_app in Hin. destruct Hin as [Hin|Hin];
      [exfalso; exact (sends_no_dealloc _ _ _ Hin)|].
    apply elem_of_app in Hin. destruct Hin as [Hin|Hin];
      [exfalso; exact (sends_no_dealloc _ _ _ Hin)|].
    destruct Hd as [->|[_ Hdn]]; [|exact Hdn].
    apply elem_of_nil in Hin. contradiction.
Qed.

Lemma SendCore_writes_a_prefix_of_the_frame_witness :
  bytes_on 5 (fst (SendCore msg_hi broken_socket)) `prefix_of` frame_bytes msg_hi /\
  bytes_on 8 (fst (SendCore msg_hi broken_socket)) = [] /\
  ~ is_done (snd (SendCore msg_hi broken_socket)).
Proof.
  assert (buffer_holds_size msg_hi) as Hbuf by (split; simpl; lia).
  destruct (SendCore_writes_a_prefix_of_the_frame msg_hi broken_socket Hbuf)
    as [Hp [Ho [Hd _]]].
  split; [exact Hp|]. split; [apply Ho; simpl; lia|].
  intros Hdone. apply Hd in Hdone. vm_compute in Hdone. discriminate.
Defined.

(** ** RecvData *)

Lemma drop_buf_write (buf : list Byte.byte) (off : Z) (bs : list Byte.byte) (n : nat) :
  0 <= off -> (Z.to_nat off + length bs <= n)%nat ->
  (Z.to_nat off + length bs <= length buf)%nat ->
  drop n (buf_write buf off bs) = drop n buf.
Proof.
  intros Hoff Hn Hfit. unfold buf_write. rewrite app_assoc.
  rewrite drop_app_ge by (rewrite length_app, length_take; lia).
  rewrite drop_drop. f_equal. rewrite length_app, length_take. lia.
Qed.

(** What the loop of [RecvData] has done when it returns: it took some
    bytes off the wire, stored them in the buffer from offset
    [received_bytes] on, and counted them. *)
Lemma RecvData_loop_spec (data_size : Z) (ready : list Z) :
  forall wire buf received_bytes wire' ready' out received',
    0 <= received_bytes <= data_size ->
    data_size <= Z.of_nat (length buf) ->
    RecvData_loop wire ready (Some buf) data_size received_bytes
    = Done ((wire', ready'), (out, received')) ->
    exists bytes,
      wire = bytes ++ wire' /\
      received' = received_bytes + Z.of_nat (length bytes) /\
      received' <= data_size /\
      out = Some (take (Z.to_nat received_bytes) buf ++ bytes
                  ++ drop (Z.to_nat received') buf).
Proof.
  induction ready as [|r ready IH];
    intros wire buf received_bytes wire' ready' out received' Hrb Hds H;
    simpl in H.
  - destruct (Z.ltb_spec received_bytes data_size); [discriminate|].
    inversion H; subst. exists []. simpl.
    rewrite Z.add_0_r, take_drop.
    split; [reflexivity|]. split; [reflexivity|]. split; [lia | reflexivity].
  - destruct (Z.ltb_spec received_bytes data_size) as [Hlt|Hge].
    + set (tmp := Receive_result r (data_size - received_bytes) (Z.of_nat (length wire)))
        in *.
      destruct (Z.eqb_spec tmp (-1)) as [He|Hne].
      * inversion H; subst. exists []. simpl.
        rewrite Z.add_0_r, take_drop.
        split; [reflexivity|]. split; [reflexivity|]. split; [lia | reflexivity].
      * assert (0 <= r) as Hr.
        { destruct (Z.ltb_spec r 0) as [Hneg|]; [|assumption].
          exfalso. apply Hne. apply Receive_result_error; lia. }
        destruct (Receive_result_range r (data_size - received_bytes)
                    (Z.of_nat (length wire))) as [Ht0 [Ht1 Ht2]]; [lia | lia | lia |].
        fold tmp in Ht0, Ht1, Ht2.
        assert (length (take (Z.to_nat tmp) wire) = Z.to_nat tmp) as Hlt'
          by (rewrite length_take; lia).
        unfold ptr_write in H. rewrite Hlt' in H.
        replace ((0 <=? received_bytes)
                 && (received_bytes + Z.of_nat (Z.to_nat tmp) <=? Z.of_nat (length buf)))
          with true in H by (symmetry; rewrite andb_true_iff, !Z.leb_le; lia).
        apply IH in H; [| lia |].
        2:{ rewrite length_buf_write; lia. }
        destruct H as [bytes [Hw [Hr' [Hle Hout]]]].
        exists (take (Z.to_nat tmp) wire ++ bytes).
        split; [rewrite <- app_assoc, <- Hw, take_drop; reflexivity|].
        split; [rewrite length_app, Hlt'; lia|].
        split; [assumption|].
        rewrite Hout. f_equal.
        replace (Z.to_nat (received_bytes + tmp))
          with (Z.to_nat received_bytes + length (take (Z.to_nat tmp) wire))%nat by lia.
        rewrite take_buf_write by lia.
        rewrite <- !app_assoc. do 3 f_equal.
        apply drop_buf_write; lia.
    + inversion H; subst. exists []. simpl.
      rewrite Z.add_0_r, take_drop.
      split; [reflexivity|]. split; [reflexivity|]. split; [lia | reflexivity].
Qed.

(** With a buffer that holds [data_size] bytes the loop of [RecvData]
    never leaves the buffer: it returns or is still waiting. *)
Lemma RecvData_loop_safe (data_size : Z) (ready : list Z) :
  forall wire buf received_bytes,
    0 <= received_bytes <= data_size ->
    data_size <= Z.of_nat (length buf) ->
    is_done (RecvData_loop wire ready (Some buf) data_size received_bytes) \/
    RecvData_loop wire ready (Some buf) data_size received_bytes = Pending.
Proof.
  induction ready as [|r ready IH]; intros wire buf received_bytes Hrb Hds; simpl.
  - destruct (Z.ltb_spec received_bytes data_size); [right | left]; reflexivity.
  - destruct (Z.ltb_spec received_bytes data_size) as [Hlt|Hge]; [|left; exact I].
    set (tmp := Receive_result r (data_size - received_bytes) (Z.of_nat (length wire))).
    destruct (Z.eqb_spec tmp (-1)) as [He|Hne]; [left; exact I|].
    assert (0 <= r) as Hr.
    { destruct (Z.ltb_spec r 0) as [Hneg|]; [|assumption].
      exfalso. apply Hne. apply Receive_result_error; lia. }
    destruct (Receive_result_range r (data_size - received_bytes)
                (Z.of_nat (length wire))) as [Ht0 [Ht1 Ht2]]; [lia | lia | lia |].
    fold tmp in Ht0, Ht1, Ht2.
    assert (length (take (Z.to_nat tmp) wire) = Z.to_nat tmp) as Hlt'
      by (rewrite length_take; lia).
    unfold ptr_write. rewrite Hlt'.
    replace ((0 <=? received_bytes)
             && (received_bytes + Z.of_nat (Z.to_nat tmp) <=? Z.of_nat (length buf)))
      with true by (symmetry; rewrite andb_true_iff, !Z.leb_le; lia).
    apply IH; [lia|]. rewrite length_buf_write; lia.
Qed.

(** It completes the payload on a socket that never says "nothing
    there" and delivers a byte often enough. *)
Lemma RecvData_loop_progress (data_size : Z) (ready : list Z) :
  forall wire buf received_bytes,
    0 <= received_bytes <= data_size ->
    data_size <= Z.of_nat (length buf) ->
    Forall (fun r => 0 <= r) ready ->
    data_size - received_bytes <= count_positive ready ->
    data_size - received_bytes <= Z.of_nat (length wire) ->
    exists wire' ready' out,
      RecvData_loop wire ready (Some buf) data_size received_bytes
      = Done ((wire', ready'), (out, data_size)).
Proof.
  induction ready as [|r ready IH];
    intros wire buf received_bytes Hrb Hds Hall Hcnt Hwire; simpl.
  - unfold count_positive in Hcnt. simpl in Hcnt.
    destruct (Z.ltb_spec received_bytes data_size); [lia|].
    assert (received_bytes = data_size) as -> by lia. eexists _, _, _. reflexivity.
  - destruct (Z.ltb_spec received_bytes data_size) as [Hlt|Hge].
    2:{ assert (received_bytes = data_size) as -> by lia. eexists _, _, _. reflexivity. }
    inversion Hall as [|? ? Hr Hall']; subst.
    rewrite count_positive_cons in Hcnt.
    set (tmp := Receive_result r (data_size - received_bytes) (Z.of_nat (length wire))).
    destruct (Receive_result_range r (data_size - received_bytes)
                (Z.of_nat (length wire))) as [Ht0 [Ht1 Ht2]]; [lia | lia | lia |].
    fold tmp in Ht0, Ht1, Ht2.
    destruct (Z.eqb_spec tmp (-1)) as [He|Hne]; [lia|].
    assert (0 < r -> 0 < tmp) as Hpos.
    { intros Hp. unfold tmp, Receive_result. destruct (Z.ltb_spec r 0); lia. }
    assert (length (take (Z.to_nat tmp) wire) = Z.to_nat tmp) as Hlt'
      by (rewrite length_take; lia).
    unfold ptr_write. rewrite Hlt'.
    replace ((0 <=? received_bytes)
             && (received_bytes + Z.of_nat (Z.to_nat tmp) <=? Z.of_nat (length buf)))
      with true by (symmetry; rewrite andb_true_iff, !Z.leb_le; lia).
    apply IH.
    + lia.
    + rewrite length_buf_write; lia.
    + assumption.
    + destruct (Z.ltb_spec 0 r); lia.
    + rewrite length_drop. destruct (Z.ltb_spec 0 r); lia.
Qed.

Lemma RecvData_done (socket : TCPSocket) (buffer : option (list Byte.byte))
    (data_size received_bytes : Z) (socket' : TCPSocket)
    (out : option (list Byte.byte)) (received' : Z) :
  RecvData socket buffer data_size received_bytes = Done (socket', (out, received')) ->
  RecvData_loop (inbound socket) (recv_ready socket) buffer data_size received_bytes
  = Done ((inbound socket', recv_ready socket'), (out, received')).
Proof.
  unfold RecvData. intros H.
  destruct (RecvData_loop (inbound socket) (recv_ready socket) buffer data_size
              received_bytes) as [[[w0 r0] o0]| | | |]; simpl in H; try discriminate.
  inversion H; subst. reflexivity.
Qed.

(** X2.  [RecvData] on a buffer that holds [data_size] bytes, called with
    0 <= [*received_bytes] <= [data_size].  (a) When it returns, it has
    taken some bytes off the socket, never more than were missing, has
    stored exactly them in the buffer from the old [*received_bytes] on
    and left the rest of the buffer as it was, and has advanced
    [*received_bytes] by their number.  (b) It never writes outside the
    buffer.  (c) On a socket that never answers -1, delivers a byte often
    enough and has the missing bytes in flight, it returns with
    [*received_bytes] equal to [data_size]. *)
Theorem RecvData_stores_what_it_reads (socket : TCPSocket) (buf : list Byte.byte)
    (data_size received_bytes : Z) :
  0 <= received_bytes <= data_size ->
  data_size <= Z.of_nat (length buf) ->
  (forall socket' out received',
      RecvData socket (Some buf) data_size received_bytes
      = Done (socket', (out, received')) ->
      exists bytes,
        inbound socket = bytes ++ inbound socket' /\
        received' = received_bytes + Z.of_nat (length bytes) /\
        received' <= data_size /\
        out = Some (take (Z.to_nat received_bytes) buf ++ bytes
                    ++ drop (Z.to_nat received') buf)) /\
  (is_done (RecvData socket (Some buf) data_size received_bytes) \/
   RecvData socket (Some buf) data_size received_bytes = Pending) /\
  (Forall (fun r => 0 <= r) (recv_ready socket) ->
   data_size - received_bytes <= count_positive (recv_ready socket) ->
   data_size - received_bytes <= Z.of_nat (length (inbound socket)) ->
   exists socket' out,
     RecvData socket (Some buf) data_size received_bytes
     = Done (socket', (out, data_size))).
Proof.
  intros Hrb Hds. split; [|split].
  - intros socket' out received' H. apply RecvData_done in H.
    exact (RecvData_loop_spec _ _ _ _ _ _ _ _ _ Hrb Hds H).
  - unfold RecvData.
    destruct (RecvData_loop_safe data_size (recv_ready socket) (inbound socket) buf
                received_bytes Hrb Hds) as [Hd|Hp].
    + left. destruct (RecvData_loop _ _ _ _ _); simpl in *; tauto.
    + right. rewrite Hp. reflexivity.
  - intros Hall Hcnt Hwire.
    destruct (RecvData_loop_progress data_size (recv_ready socket) (inbound socket) buf
                received_bytes Hrb Hds Hall Hcnt Hwire) as [w' [r' [out Hrun]]].
    exists (set_inbound socket w' r'), out. unfold RecvData. rewrite Hrun. reflexivity.
Qed.

Lemma RecvData_stores_what_it_reads_witness :
  (exists bytes,
      hi = bytes ++ [Byte.x69] /\
      1 = 0 + Z.of_nat (length bytes) /\
      1 <= 2 /\
      Some [Byte.x68; Byte.x00]
      = Some (take (Z.to_nat 0) [Byte.x00; Byte.x00] ++ bytes
              ++ drop (Z.to_nat 1) [Byte.x00; Byte.x00])) /\
  (exists socket' out,
      RecvData steady_socket (Some [Byte.x00; Byte.x00]) 2 0
      = Done (socket', (out, 2))).
Proof.
  split.
  - destruct (RecvData_stores_what_it_reads interrupted_socket
                [Byte.x00; Byte.x00] 2 0 ltac:(lia) ltac:(simpl; lia)) as [Ha _].
    exact (Ha (set_inbound interrupted_socket [Byte.x69] [1])
              (Some [Byte.x68; Byte.x00]) 1 eq_refl).
  - destruct (RecvData_stores_what_it_reads steady_socket
                [Byte.x00; Byte.x00] 2 0 ltac:(lia) ltac:(simpl; lia)) as [_ [_ Hc]].
    apply Hc.
    + repeat constructor; lia.
    + vm_compute. discriminate.
    + simpl. lia.
Defined.

(** ** From SendCore to RecvDataSize and RecvData *)

Lemma SendCore_done_bytes (msg : Message) (socket : TCPSocket) (tr : list event)
    (socket' : TCPSocket) :
  buffer_holds_size msg ->
  SendCore msg socket = (tr, Done socket') ->
  bytes_on (fd socket) tr = frame_bytes msg.
Proof.
  intros Hbuf Hrun.
  destruct (SendCore_shape msg socket Hbuf)
    as [c1 [c2 [d [Htr [_ [_ [_ [Hdone Hd]]]]]]]].
  rewrite Hrun in Htr, Hdone. simpl in Htr, Hdone.
  destruct Hdone as [Hdone _]. destruct (Hdone I) as [H1 H2].
  assert (bytes_on (fd socket) d = []) as Hdnil
    by (destruct Hd as [->|[-> _]]; reflexivity).
  rewrite Htr, !bytes_on_app, !bytes_on_sends, Hdnil, app_nil_r, H1, H2.
  reflexivity.
Qed.

Lemma count_positive_all (ready : list Z) :
  Forall (fun r => 0 < r) ready -> count_positive ready = Z.of_nat (length ready).
Proof.
  induction 1 as [|r ready Hr _ IH]; [reflexivity|].
  rewrite count_positive_cons, IH. destruct (Z.ltb_spec 0 r); simpl length; lia.
Qed.

(** On a socket that delivers at least one byte at every attempt and has
    the bytes in flight, the loop of [RecvDataSize] uses at most one
    attempt per missing byte. *)
Lemma RecvDataSize_loop_script (ready : list Z) :
  forall wire k repr n wire' ready',
    0 <= k <= 8 ->
    Forall (fun r => 0 < r) ready ->
    8 - k <= Z.of_nat (length wire) ->
    RecvDataSize_loop wire ready k repr = Done (n, (wire', ready')) ->
    exists used, ready = used ++ ready' /\ Z.of_nat (length used) <= 8 - k.
Proof.
  induction ready as [|r ready IH]; intros wire k repr n wire' ready' Hk Hall Hwire H;
    simpl in H; rewrite to_size_t_small in H by lia.
  - destruct (Z.ltb_spec k 8); [discriminate|]. inversion H; subst.
    exists []. split; [reflexivity | simpl; lia].
  - destruct (Z.ltb_spec k 8) as [Hlt|Hge].
    2:{ inversion H; subst. exists []. split; [reflexivity | simpl; lia]. }
    inversion Hall as [|? ? Hr Hall']; subst.
    set (tmp := Receive_result r (8 - k) (Z.of_nat (length wire))) in *.
    assert (0 < tmp <= 8 - k /\ tmp <= Z.of_nat (length wire)) as Ht.
    { unfold tmp, Receive_result. destruct (Z.ltb_spec r 0); lia. }
    destruct (Z.eqb_spec tmp (-1)); [lia|].
    apply IH in H; [| lia | assumption | rewrite length_drop; lia].
    destruct H as [used [Hu Hl]]. exists (r :: used).
    split; [rewrite Hu; reflexivity | simpl length; lia].
Qed.

(** X3.  The frame that [SendCore] writes for a message of positive size
    is read back at the other end: on a receiving socket whose inbound
    bytes start with what [SendCore] wrote, and which delivers at least a
    byte at each of 8 + size attempts, [RecvDataSize] returns the size of
    the message, and [RecvData] into a fresh buffer of that size then
    returns with the buffer equal to the payload and the following bytes
    still in flight. *)
Theorem frame_round_trip (msg : Message) (sender_socket receiver_socket : TCPSocket)
    (tr : list event) (sender_socket' : TCPSocket) (more : list Byte.byte) :
  buffer_holds_size msg ->
  0 < size msg < 2 ^ 63 ->
  SendCore msg sender_socket = (tr, Done sender_socket') ->
  inbound receiver_socket = bytes_on (fd sender_socket) tr ++ more ->
  Forall (fun r => 0 < r) (recv_ready receiver_socket) ->
  8 + size msg <= Z.of_nat (length (recv_ready receiver_socket)) ->
  exists s1 s2,
    RecvDataSize receiver_socket = Done (size msg, s1) /\
    RecvData s1 (Some (replicate (Z.to_nat (size msg)) Byte.x00)) (size msg) 0
    = Done (s2, (Some (payload msg), size msg)) /\
    inbound s2 = more.
Proof.
  intros Hbuf Hsize Hsend Hin Hall Hlen.
  rewrite (SendCore_done_bytes _ _ _ _ Hbuf Hsend) in Hin.
  unfold frame_bytes in Hin. rewrite <- app_assoc in Hin.
  assert (length (payload msg) = Z.to_nat (size msg)) as Hpl.
  { unfold payload. rewrite length_take. destruct Hbuf. lia. }
  destruct (recv_ready receiver_socket) as [|r rest] eqn:Hready;
    [simpl in Hlen; lia|].
  inversion Hall as [|? ? Hr Hall']; subst.
  destruct (RecvDataSize_reads_int64_bytes receiver_socket (size msg)
              (payload msg ++ more) r rest) as [s1 [Hrun1 Hin1]];
    [lia | assumption | assumption | assumption
     | rewrite count_positive_all by assumption; simpl length in Hlen; lia |].
  pose proof (RecvDataSize_done _ _ _ Hrun1) as Hloop.
  apply RecvDataSize_loop_script in Hloop;
    [| lia | rewrite Hready; assumption
     | rewrite Hin, length_app, length_int64_bytes; lia].
  destruct Hloop as [used [Hused Hul]].
  assert (Forall (fun r => 0 < r) (recv_ready s1)) as Hall1.
  { rewrite Hready in Hused. rewrite Hused in Hall. apply Forall_app in Hall. tauto. }
  assert (size msg <= Z.of_nat (length (recv_ready s1))) as Hlen1.
  { rewrite Hready in Hused. apply (f_equal length) in Hused.
    rewrite length_app in Hused. simpl length in Hlen, Hused. lia. }
  destruct (RecvData_loop_progress (size msg) (recv_ready s1) (inbound s1)
              (replicate (Z.to_nat (size msg)) Byte.x00) 0)
    as [w2 [r2 [out Hrun2]]].
  { lia. }
  { rewrite length_replicate. lia. }
  { eapply Forall_impl; [exact Hall1|]. simpl. intros; lia. }
  { rewrite count_positive_all by assumption. lia. }
  { rewrite Hin1, length_app. lia. }
  pose proof Hrun2 as Hspec.
  apply RecvData_loop_spec in Hspec; [| lia | rewrite length_replicate; lia].
  destruct Hspec as [bytes [Hw [Hcount [_ Hout]]]].
  rewrite Hin1 in Hw.
  assert (length bytes = length (payload msg)) as Hbl by lia.
  apply app_inj_1 in Hw; [|symmetry; exact Hbl]. destruct Hw as [Hbytes Hmore].
  exists s1, (set_inbound s1 w2 r2).
  split; [exact Hrun1|]. split; [|simpl; symmetry; exact Hmore].
  unfold RecvData. rewrite Hrun2. simpl. rewrite Hout, <- Hbytes.
  change (Z.to_nat 0) with 0%nat. rewrite take_0.
  rewrite drop_ge by (rewrite length_replicate; lia).
  rewrite app_nil_r. reflexivity.
Qed.

Lemma frame_round_trip_witness :
  exists s1 s2,
    RecvDataSize echo_socket = Done (2, s1) /\
    RecvData s1 (Some [Byte.x00; Byte.x00]) 2 0 = Done (s2, (Some hi, 2)) /\
    inbound s2 = [Byte.x2a].
Proof.
  apply (frame_round_trip msg_hi slow_socket echo_socket
           (fst (SendCore msg_hi slow_socket))
           (set_send_ready slow_socket [1; 1; 1; 1; 1; 1; 1]) [Byte.x2a]).
  - split; simpl; lia.
  - simpl. lia.
  - reflexivity.
  - reflexivity.
  - repeat constructor; lia.
  - simpl. lia.
Defined.

(** ** The stream a SendLoop writes on each connection *)

Lemma SendCore_done_fd (msg : Message) (socket : TCPSocket) (tr : list event)
    (socket' : TCPSocket) :
  SendCore msg socket = (tr, Done socket') -> fd socket' = fd socket.
Proof.
  unfold SendCore. intros H.
  destruct (SendCore_size (fd socket) (size msg) (send_ready socket) 0)
    as [tr1 [ready1| | | |]]; unfold bind in H; simpl in H; try discriminate.
  destruct (SendCore_data (fd socket) msg ready1 0)
    as [tr2 [ready2| | | |]]; simpl in H; try discriminate.
  destruct (deallocator msg); simpl in H; inversion H; reflexivity.
Qed.

Lemma SendCore_done_other (msg : Message) (socket : TCPSocket) (tr : list event)
    (socket' : TCPSocket) (other : Z) :
  SendCore msg socket = (tr, Done socket') -> other <> fd socket ->
  bytes_on other tr = [].
Proof.
  intros Hrun Hne.
  destruct (SendCore_trace msg socket) as [chunks [d [Htr Hd]]].
  rewrite Hrun in Htr. simpl in Htr.
  rewrite Htr, bytes_on_app, bytes_on_sends_other by assumption.
  destruct Hd as [->| ->]; reflexivity.
Qed.

(** The [QUEUE_CLOSE] branch over sockets with distinct descriptors: each
    of them gets the eight bytes of the size 0, every other descriptor
    nothing. *)
Lemma SendLoop_close_bytes (msg : Message) (l : list (Z * TCPSocket)) :
  size msg = 0 ->
  NoDup ((fun p => fd (snd p)) <$> l) ->
  forall sockets tr sockets' f,
    Sender.SendLoop_close msg l sockets = (tr, Done sockets') ->
    bytes_on f tr
    = if decide (f ∈ (fun p => fd (snd p)) <$> l) then int64_bytes 0 else [].
Proof.
  intros Hsize. induction l as [|[id s] l IH]; intros Hnd sockets tr sockets' f H.
  - simpl in H. inversion H; subst. rewrite decide_False; [reflexivity|].
    simpl. apply not_elem_of_nil.
  - simpl in H. rewrite fmap_cons in Hnd. apply NoDup_cons in Hnd.
    destruct Hnd as [Hnotin Hnd]. simpl in Hnotin.
    destruct (SendCore msg s) as [tr1 [s'| | | |]] eqn:Hcore;
      unfold bind in H; simpl in H; try discriminate.
    destruct (Sender.SendLoop_close msg l (<[id := s']> sockets)) as [tr2 e2] eqn:Hrest.
    simpl in H. inversion H; subst tr e2.
    rewrite bytes_on_app, (IH Hnd _ _ _ f Hrest).
    assert (buffer_holds_size msg) as Hbuf by (split; rewrite Hsize; lia).
    destruct (decide (f = fd s)) as [->|Hne].
    + rewrite (SendCore_done_bytes _ _ _ _ Hbuf Hcore).
      rewrite decide_False by exact Hnotin.
      rewrite decide_True by (rewrite fmap_cons; left).
      unfold frame_bytes, payload. rewrite Hsize.
      change (Z.to_nat 0) with 0%nat. rewrite take_0, !app_nil_r.
      reflexivity.
    + rewrite (SendCore_done_other _ _ _ _ _ Hcore Hne), app_nil_l.
      destruct (decide (f ∈ (fun p => fd (snd p)) <$> l)) as [Hin|Hnin].
      * rewrite decide_True by (rewrite fmap_cons; right; exact Hin). reflexivity.
      * rewrite decide_False; [reflexivity|].
        rewrite fmap_cons. intros Hin. apply elem_of_cons in Hin.
        destruct Hin as [Heq|Hin]; [exact (Hne Heq) | exact (Hnin Hin)].
Qed.

Lemma distinct_fds_insert (sockets : gmap Z TCPSocket) (id : Z) (s s' : TCPSocket) :
  distinct_fds sockets -> sockets !! id = Some s -> fd s' = fd s ->
  distinct_fds (<[id := s']> sockets).
Proof.
  intros Hd Hs Hfd i j si sj Hi Hj Heq.
  apply lookup_insert_Some in Hi. apply lookup_insert_Some in Hj.
  destruct Hi as [[<- <-]|[Hni Hi]]; destruct Hj as [[<- <-]|[Hnj Hj]].
  - reflexivity.
  - rewrite Hfd in Heq. exact (Hd _ _ _ _ Hs Hj Heq).
  - rewrite Hfd in Heq. exact (Hd _ _ _ _ Hi Hs Heq).
  - exact (Hd _ _ _ _ Hi Hj Heq).
Qed.

(** X4.  When a [SendLoop] over sockets with distinct descriptors has
    terminated, the bytes it wrote on the socket of each peer of its
    shard are exactly the frames of the dispatched messages tagged with
    that peer, in the order they were removed from the queue, followed by
    the frame of size 0: no byte of another peer's message, nothing after
    the end of the stream. *)
Theorem SendLoop_writes_each_peer_its_stream (removes : list (STATUS * Message)) :
  forall (sockets : gmap Z TCPSocket) (tr : list event) (sockets' : gmap Z TCPSocket),
    distinct_fds sockets ->
    Forall buffer_holds_size (dispatched removes) ->
    Sender.SendLoop sockets removes = (tr, Done sockets') ->
    forall id s,
      sockets !! id = Some s ->
      bytes_on (fd s) tr = stream_for id (dispatched removes).
Proof.
  induction removes as [|[code msg] removes IH];
    intros sockets tr sockets' Hfds Hbufs H id s Hs; simpl in H; [discriminate|].
  simpl in Hbufs. unfold stream_for. simpl dispatched.
  destruct (decide (code = QUEUE_CLOSE)) as [_|Hcode].
  - simpl. rewrite (SendLoop_close_bytes (set_size msg 0) (map_to_list sockets)
                      eq_refl) with (sockets := sockets) (sockets' := sockets');
      [| | exact H].
    + rewrite decide_True; [reflexivity|].
      apply list_elem_of_fmap. exists (id, s). split; [reflexivity|].
      apply elem_of_map_to_list. exact Hs.
    + apply NoDup_fmap_2_strong; [|apply NoDup_map_to_list].
      intros [i si] [j sj] Hi Hj Heq. simpl in Heq.
      apply elem_of_map_to_list in Hi. apply elem_of_map_to_list in Hj.
      assert (i = j) as -> by exact (Hfds _ _ _ _ Hi Hj Heq).
      rewrite Hi in Hj. inversion Hj. reflexivity.
  - apply Forall_cons in Hbufs. destruct Hbufs as [Hbuf Hbufs].
    destruct (sockets !! receiver_id msg) as [s0|] eqn:Hs0; [|discriminate].
    destruct (SendCore msg s0) as [tr1 [s0'| | | |]] eqn:Hcore;
      unfold bind in H; simpl in H; try discriminate.
    destruct (Sender.SendLoop (<[receiver_id msg := s0']> sockets) removes)
      as [tr2 e2] eqn:Hrest.
    simpl in H. inversion H; subst tr e2.
    pose proof (SendCore_done_fd _ _ _ _ Hcore) as Hfd.
    rewrite bytes_on_app. simpl List.filter.
    destruct (Z.eqb_spec (receiver_id msg) id) as [Hid|Hid].
    + subst id. rewrite Hs0 in Hs. inversion Hs; subst s0.
      rewrite (SendCore_done_bytes _ _ _ _ Hbuf Hcore).
      rewrite <- Hfd.
      rewrite (IH _ _ _ (distinct_fds_insert _ _ _ _ Hfds Hs0 Hfd) Hbufs Hrest
                 (receiver_id msg) s0' (lookup_insert_eq _ _ _)).
      unfold stream_for. simpl. rewrite <- app_assoc. reflexivity.
    + rewrite (SendCore_done_other _ _ _ _ (fd s) Hcore).
      2:{ intros Heq. apply Hid. exact (Hfds _ _ _ _ Hs0 Hs (eq_sym Heq)). }
      simpl.
      assert ((<[receiver_id msg := s0']> sockets) !! id = Some s) as Hs'
        by (rewrite lookup_insert_ne by exact Hid; exact Hs).
      exact (IH _ _ _ (distinct_fds_insert _ _ _ _ Hfds Hs0 Hfd) Hbufs Hrest id s Hs').
Qed.

Lemma SendLoop_writes_each_peer_its_stream_witness :
  let removes := [(REMOVE_SUCCESS, msg_hi); (QUEUE_CLOSE, Message_default)] in
  bytes_on 5 (fst (Sender.SendLoop shard_sockets removes))
  = int64_bytes 2 ++ hi ++ int64_bytes 0 /\
  bytes_on 8 (fst (Sender.SendLoop shard_sockets removes)) = int64_bytes 0.
Proof.
  intros removes.
  assert (distinct_fds shard_sockets) as Hfds.
  { intros i j si sj Hi Hj Heq. unfold shard_sockets in Hi, Hj.
    lookup_cases Hi; lookup_cases Hj; simpl in Heq; congruence. }
  assert (Forall buffer_holds_size (dispatched removes)) as Hbufs.
  { repeat constructor; simpl; lia. }
  destruct (Sender.SendLoop shard_sockets removes) as [tr [sockets'| | | |]] eqn:Hrun;
    try (vm_compute in Hrun; discriminate).
  split.
  - exact (SendLoop_writes_each_peer_its_stream removes shard_sockets tr sockets'
             Hfds Hbufs Hrun 7 _ eq_refl).
  - exact (SendLoop_writes_each_peer_its_stream removes shard_sockets tr sockets'
             Hfds Hbufs Hrun 9 _ eq_refl).
Defined.

(** ** Iterations of RecvLoop *)

(** What a completed run of lines 399-413 has done. *)
Lemma RecvLoop_payload_inv (sender_id : Z) (socket : TCPSocket)
    (ctx : Receiver.RecvContext) (pool : gset Z) (q : MessageQueue)
    (w : Receiver.RecvWorld) (tr : list event) (w' : Receiver.RecvWorld) :
  Receiver.RecvLoop_payload sender_id socket ctx pool q w = (tr, Done w') ->
  exists socket' out received',
    RecvData socket (Receiver.buffer ctx) (Receiver.data_size ctx)
      (Receiver.received_bytes ctx) = Done (socket', (out, received')) /\
    Receiver.w_sockets w' = <[sender_id := socket']> (Receiver.w_sockets w) /\
    Receiver.w_pool w' = pool /\
    ((received' < Receiver.data_size ctx /\ tr = [] /\
      Receiver.w_sem w' = Receiver.w_sem w /\
      Receiver.w_queues w' = Receiver.w_queues w /\
      Receiver.w_contexts w'
      = <[sender_id := {| Receiver.data_size := Receiver.data_size ctx;
                          Receiver.received_bytes := received';
                          Receiver.buffer := out |}]> (Receiver.w_contexts w))
     \/
     (Receiver.data_size ctx <= received' /\
      tr = [EvAdd sender_id (received_message out (Receiver.data_size ctx)); EvPost] /\
      Receiver.w_sem w' = Receiver.w_sem w + 1 /\
      (exists code q',
          Queue_Add q (received_message out (Receiver.data_size ctx)) = Done (code, q') /\
          Receiver.w_queues w' = queue_store sender_id q' (Receiver.w_queues w)) /\
      Receiver.w_contexts w'
      = <[sender_id := {| Receiver.data_size := -1;
                          Receiver.received_bytes := received';
                          Receiver.buffer := out |}]> (Receiver.w_contexts w))).
Proof.
  unfold Receiver.RecvLoop_payload. intros H.
  destruct (RecvData socket (Receiver.buffer ctx) (Receiver.data_size ctx)
              (Receiver.received_bytes ctx)) as [[s' [out r']]| | | |] eqn:Hrd;
    try (unfold bind, lift in H; simpl in H; discriminate).
  rewrite bind_lift_done in H. simpl fst in H. simpl snd in H.
  exists s', out, r'. split; [reflexivity|].
  destruct (Z.geb_spec r' (Receiver.data_size ctx)) as [Hge|Hlt].
  - rewrite bind_emit in H.
    change (receiver_id Message_default) with 0 in H.
    fold (received_message out (Receiver.data_size ctx)) in H.
    destruct (Queue_Add q (received_message out (Receiver.data_size ctx)))
      as [[code q']| | | |] eqn:Hadd;
      unfold bind, lift, emit, ret in H; simpl in H; try discriminate.
    inversion H; subst tr w'. simpl.
    split; [reflexivity|]. split; [reflexivity|]. right.
    split; [lia|]. split; [reflexivity|]. split; [reflexivity|].
    split; [|reflexivity]. exists code, q'. split; reflexivity.
  - unfold ret in H. inversion H; subst tr w'. simpl.
    split; [reflexivity|]. split; [reflexivity|]. left.
    split; [lia|]. repeat split.
Qed.

(** What a completed run of lines 380-397 has done: it leaves no event,
    and it ends the thread only with an empty pool. *)
Lemma RecvLoop_header_inv (max_alloc sender_id : Z) (socket : TCPSocket)
    (ctx : Receiver.RecvContext) (pool : gset Z) (tr : list event)
    (h : Receiver.step (TCPSocket * Receiver.RecvContext * gset Z)) :
  Receiver.RecvLoop_header max_alloc sender_id socket ctx pool = (tr, Done h) ->
  tr = [] /\
  match h with
  | Receiver.Return (_, _, pool') => pool' = ∅
  | Receiver.Continue (_, _, pool') => pool' ⊆ pool
  end.
Proof.
  unfold Receiver.RecvLoop_header. intros H.
  destruct (Receiver.data_size ctx =? -1).
  - destruct (RecvDataSize socket) as [[n s']| | | |];
      try (unfold bind, lift in H; simpl in H; discriminate).
    rewrite bind_lift_done in H. simpl fst in H. simpl snd in H.
    destruct (n >? 0).
    + destruct (n >? max_alloc); [discriminate|].
      inversion H; subst. split; reflexivity.
    + destruct (n =? 0).
      * unfold Receiver.SocketPool_RemoveSocket in H. simpl fst in H. simpl snd in H.
        destruct (Z.eqb_spec (Z.of_nat (base.size (pool ∖ {[sender_id]}))) 0) as [Hsz|Hsz];
          inversion H; subst.
        -- split; [reflexivity|]. apply leibniz_equiv. apply size_empty_iff. lia.
        -- split; [reflexivity | apply subseteq_difference_l; reflexivity].
      * inversion H; subst. split; reflexivity.
  - inversion H; subst. split; reflexivity.
Qed.

(** One completed iteration: it either leaves no event and the semaphore
    as it was, or adds one message to the queue of the reported sender
    and posts once; it never adds a socket to the pool, keeps the keys of
    the socket map, and ends the thread only with an empty pool. *)
Lemma RecvLoop_body_inv (max_alloc sender_id : Z) (w : Receiver.RecvWorld)
    (tr : list event) (s : Receiver.step Receiver.RecvWorld) :
  Receiver.RecvLoop_body max_alloc sender_id w = (tr, Done s) ->
  let w' := match s with Receiver.Continue w' => w' | Receiver.Return w' => w' end in
  ((tr = [] /\ Receiver.w_sem w' = Receiver.w_sem w) \/
   (exists m, tr = [EvAdd sender_id m; EvPost] /\
              Receiver.w_sem w' = Receiver.w_sem w + 1)) /\
  Receiver.w_pool w' ⊆ Receiver.w_pool w /\
  dom (Receiver.w_sockets w') = dom (Receiver.w_sockets w) /\
  sender_id ∈ dom (Receiver.w_sockets w) /\
  match s with
  | Receiver.Return w' => tr = [] /\ Receiver.w_pool w' = ∅
  | Receiver.Continue _ => True
  end.
Proof.
  unfold Receiver.RecvLoop_body. intros H.
  destruct (Receiver.w_sockets w !! sender_id) as [socket|] eqn:Hsock;
    [|discriminate].
  destruct (queue_lookup sender_id (Receiver.w_queues w)) as [q|]; [|discriminate].
  destruct (Receiver.w_contexts w !! sender_id) as [ctx|]; [|discriminate].
  assert (sender_id ∈ dom (Receiver.w_sockets w)) as Hdom
    by (apply elem_of_dom; eexists; exact Hsock).
  assert (forall s', dom (<[sender_id := s']> (Receiver.w_sockets w))
                     = dom (Receiver.w_sockets w)) as Hkeep.
  { intros s'. rewrite dom_insert_L. apply subseteq_union_1_L.
    apply singleton_subseteq_l. exact Hdom. }
  destruct (Queue_EmptyAndNoMoreAdd q).
  - unfold Receiver.SocketPool_RemoveSocket in H. simpl fst in H. simpl snd in H.
    destruct (Z.eqb_spec (Z.of_nat (base.size (Receiver.w_pool w ∖ {[sender_id]}))) 0)
      as [Hsz|Hsz]; inversion H; subst; simpl.
    + split; [left; split; reflexivity|].
      split; [apply subseteq_difference_l; reflexivity|].
      split; [reflexivity|]. split; [exact Hdom|]. split; [reflexivity|].
      apply leibniz_equiv. apply size_empty_iff. lia.
    + split; [left; split; reflexivity|].
      split; [apply subseteq_difference_l; reflexivity|].
      split; [reflexivity|]. split; [exact Hdom | exact I].
  - destruct (Receiver.RecvLoop_header max_alloc sender_id socket ctx (Receiver.w_pool w))
      as [trh [h| | | |]] eqn:Hh; unfold bind in H; simpl in H; try discriminate.
    destruct (RecvLoop_header_inv _ _ _ _ _ _ _ Hh) as [-> Hpool].
    destruct h as [[[s1 c1] p1]|[[s1 c1] p1]].
    + destruct (Receiver.RecvLoop_payload sender_id s1 c1 p1 q w)
        as [trp [w1| | | |]] eqn:Hp; simpl in H; try discriminate.
      inversion H; subst tr s. simpl.
      destruct (RecvLoop_payload_inv _ _ _ _ _ _ _ _ Hp)
        as [s2 [out [r2 [_ [Hsocks [Hpl Hcase]]]]]].
      rewrite app_nil_r.
      split.
      { destruct Hcase as [[_ [-> [Hsem _]]]|[_ [-> [Hsem _]]]].
        - left. split; [reflexivity | exact Hsem].
        - right. eexists. split; [reflexivity | exact Hsem]. }
      split; [rewrite Hpl; exact Hpool|].
      split; [rewrite Hsocks; apply Hkeep|].
      split; [exact Hdom | exact I].
    + simpl in H. inversion H; subst tr s. simpl.
      split; [left; split; reflexivity|].
      split; [rewrite Hpool; apply empty_subseteq|].
      split; [apply Hkeep|]. split; [exact Hdom|]. split; [reflexivity | exact Hpool].
Qed.

Lemma posts_app (tr1 tr2 : list event) : posts (tr1 ++ tr2) = posts tr1 + posts tr2.
Proof. unfold posts. rewrite List.filter_app, length_app. lia. Qed.

Lemma adders_app (tr1 tr2 : list event) : adders (tr1 ++ tr2) = adders tr1 ++ adders tr2.
Proof. unfold adders. apply flat_map_app. Qed.

Lemma RecvLoop_main_accounting (max_alloc : Z) (schedule : list Z) :
  forall (w : Receiver.RecvWorld) (tr : list event) (w' : Receiver.RecvWorld),
    Receiver.RecvLoop_main max_alloc schedule w = (tr, Done w') ->
    adds_then_posts tr = true /\
    Receiver.w_sem w' = Receiver.w_sem w + posts tr /\
    Forall (fun id => id ∈ dom (Receiver.w_sockets w)) (adders tr) /\
    Receiver.w_pool w' = ∅ /\
    dom (Receiver.w_sockets w') = dom (Receiver.w_sockets w).
Proof.
  induction schedule as [|sender_id schedule IH]; intros w tr w' H; simpl in H;
    [discriminate|].
  destruct (Receiver.RecvLoop_body max_alloc sender_id w) as [tr1 [s| | | |]] eqn:Hbody;
    unfold bind in H; simpl in H; try discriminate.
  pose proof (RecvLoop_body_inv _ _ _ _ _ Hbody) as Hinv. simpl in Hinv.
  destruct Hinv as [Hev [_ [Hdom [Hin Hret]]]].
  destruct s as [w1|w1].
  - destruct (Receiver.RecvLoop_main max_alloc schedule w1) as [tr2 e2] eqn:Hrest.
    simpl in H. inversion H; subst tr e2.
    destruct (IH _ _ _ Hrest) as [Hshape [Hsem [Hadd [Hpool Hdom']]]].
    rewrite posts_app, adders_app, Hsem, Hdom', Hdom in *.
    destruct Hev as [[-> Hs]|[m [-> Hs]]]; rewrite Hs.
    + simpl. split; [exact Hshape|]. split; [unfold posts; simpl; lia|].
      split; [exact Hadd|]. split; [exact Hpool | reflexivity].
    + simpl. split; [exact Hshape|].
      split; [unfold posts in *; simpl; lia|].
      split; [constructor; [exact Hin | exact Hadd]|].
      split; [exact Hpool | reflexivity].
  - simpl in H. inversion H; subst tr w'. destruct Hret as [-> Hpool].
    destruct Hev as [[_ Hs]|[m [Hm _]]]; [|discriminate].
    simpl. split; [reflexivity|]. split; [unfold posts; simpl; lia|].
    split; [constructor|]. split; [exact Hpool | exact Hdom].
Qed.

(** X5.  A [RecvLoop] thread that has returned.  Its calls are pairs:
    a message added to the queue of a sender whose socket the thread
    owns, then one [Post] of the semaphore, so the semaphore has grown
    by the number of messages handed over.  The thread has returned with
    an empty socket pool: every socket it was given was deregistered
    first.  The socket map kept its keys. *)
Theorem RecvLoop_posts_once_per_message (max_alloc : Z) (schedule : list Z)
    (sockets : gmap Z TCPSocket) (queues : list (Z * MessageQueue)) (queue_sem : Z)
    (tr : list event) (w : Receiver.RecvWorld) :
  Receiver.RecvLoop max_alloc schedule sockets queues queue_sem = (tr, Done w) ->
  adds_then_posts tr = true /\
  Receiver.w_sem w = queue_sem + posts tr /\
  Forall (fun id => id ∈ dom sockets) (adders tr) /\
  Receiver.w_pool w = ∅ /\
  dom (Receiver.w_sockets w) = dom sockets.
Proof.
  unfold Receiver.RecvLoop. intros H.
  exact (RecvLoop_main_accounting _ _ _ _ _ H).
Qed.

Lemma RecvLoop_posts_once_per_message_witness :
  exists w,
    snd recv_thread = Done w /\
    adds_then_posts (fst recv_thread) = true /\
    Receiver.w_sem w = Receiver.queue_sem_ waited2 + posts (fst recv_thread) /\
    Receiver.w_pool w = ∅.
Proof.
  destruct recv_thread as [tr [w| | | |]] eqn:Hrun;
    try (vm_compute in Hrun; discriminate).
  exists w. split; [reflexivity|]. unfold recv_thread in Hrun.
  destruct (RecvLoop_posts_once_per_message _ _ _ _ _ _ _ Hrun)
    as [Hshape [Hsem [_ [Hpool _]]]].
  split; [exact Hshape|]. split; [exact Hsem | exact Hpool].
Defined.

(** ** A frame across iterations *)

Lemma app_split_prefix {A : Type} (l1 l2 b w : list A) :
  l1 ++ l2 = b ++ w -> (length b <= length l1)%nat ->
  b = take (length b) l1 /\ w = drop (length b) l1 ++ l2.
Proof.
  intros H Hl. split.
  - apply (f_equal (take (length b))) in H.
    rewrite take_app_le, take_app_length in H by lia. symmetry. exact H.
  - apply (f_equal (drop (length b))) in H.
    rewrite drop_app_le, drop_app_length in H by lia. symmetry. exact H.
Qed.

(** [RecvData] while the payload [P] of a frame arrives: the buffer keeps
    holding the first [*received_bytes] bytes of [P], and the rest of
    [P] stays first on the wire. *)
Lemma RecvData_on_frame (socket : TCPSocket) (buf P more : list Byte.byte) (r : Z)
    (socket' : TCPSocket) (out : option (list Byte.byte)) (r' : Z) :
  length buf = length P ->
  0 <= r <= Z.of_nat (length P) ->
  take (Z.to_nat r) buf = take (Z.to_nat r) P ->
  inbound socket = drop (Z.to_nat r) P ++ more ->
  RecvData socket (Some buf) (Z.of_nat (length P)) r = Done (socket', (out, r')) ->
  r <= r' <= Z.of_nat (length P) /\
  inbound socket' = drop (Z.to_nat r') P ++ more /\
  exists buf',
    out = Some buf' /\ length buf' = length P /\
    take (Z.to_nat r') buf' = take (Z.to_nat r') P.
Proof.
  intros Hlen Hr Htake Hwire Hrun.
  apply RecvData_done in Hrun.
  apply RecvData_loop_spec in Hrun; [|lia|lia].
  destruct Hrun as [bytes [Hw [Hr' [Hle Hout]]]].
  rewrite Hwire in Hw.
  apply app_split_prefix in Hw; [|rewrite length_drop; lia].
  destruct Hw as [Hbytes Hrest].
  split; [lia|]. split.
  - rewrite Hrest, drop_drop. do 2 f_equal. lia.
  - exists (take (Z.to_nat r) buf ++ bytes ++ drop (Z.to_nat r') buf).
    split; [exact Hout|]. split.
    + rewrite !length_app, length_take, length_drop. lia.
    + rewrite app_assoc, take_app_length'
        by (rewrite length_app, length_take; lia).
      rewrite Htake, Hbytes, take_take_drop. f_equal. lia.
Qed.

(** Lines 399-413 while the payload [P] arrives: either the payload is
    still incomplete and nothing was handed over, or the message handed
    over holds exactly [P]. *)
Lemma RecvLoop_payload_on_frame (sender_id : Z) (socket : TCPSocket)
    (ctx : Receiver.RecvContext) (pool : gset Z) (q : MessageQueue)
    (w : Receiver.RecvWorld) (buf P more : list Byte.byte)
    (tr : list event) (w' : Receiver.RecvWorld) :
  Receiver.buffer ctx = Some buf ->
  length buf = length P ->
  Receiver.data_size ctx = Z.of_nat (length P) ->
  0 <= Receiver.received_bytes ctx <= Receiver.data_size ctx ->
  take (Z.to_nat (Receiver.received_bytes ctx)) buf
  = take (Z.to_nat (Receiver.received_bytes ctx)) P ->
  inbound socket = drop (Z.to_nat (Receiver.received_bytes ctx)) P ++ more ->
  Receiver.RecvLoop_payload sender_id socket ctx pool q w = (tr, Done w') ->
  exists socket' ctx',
    Receiver.w_sockets w' !! sender_id = Some socket' /\
    Receiver.w_contexts w' !! sender_id = Some ctx' /\
    ((tr = [] /\ receiving P more socket' ctx' /\
      Receiver.received_bytes ctx <= Receiver.received_bytes ctx' /\
      Receiver.w_sem w' = Receiver.w_sem w)
     \/
     (delivered sender_id P more tr socket' ctx' /\
      Receiver.w_sem w' = Receiver.w_sem w + 1)).
Proof.
  intros Hbuf Hlen Hsize Hr Htake Hwire Hrun.
  destruct (RecvLoop_payload_inv _ _ _ _ _ _ _ _ Hrun)
    as [s2 [out [r2 [Hrd [Hsocks [_ Hcase]]]]]].
  rewrite Hbuf, Hsize in Hrd. rewrite Hsize in Hr.
  destruct (RecvData_on_frame _ _ _ _ _ _ _ _ Hlen Hr Htake Hwire Hrd)
    as [Hr2 [Hwire2 [buf' [-> [Hlen' Htake']]]]].
  exists s2.
  destruct Hcase as [[Hlt [-> [Hsem [_ Hctxs]]]]|[Hge [-> [Hsem [_ Hctxs]]]]].
  - eexists. split; [rewrite Hsocks; apply lookup_insert_eq|].
    split; [rewrite Hctxs; apply lookup_insert_eq|]. left.
    split; [reflexivity|]. split; [|split; [simpl; lia | exact Hsem]].
    exists buf'. simpl. split; [reflexivity|]. split; [exact Hlen'|].
    split; [exact Hsize|]. split; [lia|]. split; [exact Htake' | exact Hwire2].
  - eexists. split; [rewrite Hsocks; apply lookup_insert_eq|].
    split; [rewrite Hctxs; apply lookup_insert_eq|]. right.
    split; [|exact Hsem].
    assert (r2 = Z.of_nat (length P)) as -> by lia.
    rewrite Nat2Z.id in Htake', Hwire2.
    rewrite take_ge in Htake' by lia. rewrite (take_ge P) in Htake' by lia.
    rewrite drop_ge in Hwire2 by lia.
    subst buf'. rewrite Hsize. split; [reflexivity|]. split; [reflexivity | exact Hwire2].
Qed.

(** X6.  An iteration of [RecvLoop] for a sender whose frame is partly
    received (the context holds the size, the buffer and the number of
    bytes so far).  It reads no size field; it either stores more of
    the payload where it left off, hands nothing over and stays in such a
    state, or hands the queue one message whose data is exactly the
    payload of the frame, posts once and resets the context to
    data_size -1, with the bytes after the frame untouched on the wire.
    It never ends the thread. *)
Theorem RecvLoop_body_resumes_partial_frame (max_alloc sender_id : Z)
    (w : Receiver.RecvWorld) (socket : TCPSocket) (q : MessageQueue)
    (ctx : Receiver.RecvContext) (frame_payload more : list Byte.byte)
    (tr : list event) (s : Receiver.step Receiver.RecvWorld) :
  Receiver.w_sockets w !! sender_id = Some socket ->
  queue_lookup sender_id (Receiver.w_queues w) = Some q ->
  Receiver.w_contexts w !! sender_id = Some ctx ->
  Queue_EmptyAndNoMoreAdd q = false ->
  receiving frame_payload more socket ctx ->
  Receiver.RecvLoop_body max_alloc sender_id w = (tr, Done s) ->
  exists w' socket' ctx',
    s = Receiver.Continue w' /\
    Receiver.w_sockets w' !! sender_id = Some socket' /\
    Receiver.w_contexts w' !! sender_id = Some ctx' /\
    ((tr = [] /\ receiving frame_payload more socket' ctx' /\
      Receiver.received_bytes ctx <= Receiver.received_bytes ctx' /\
      Receiver.w_sem w' = Receiver.w_sem w)
     \/
     (delivered sender_id frame_payload more tr socket' ctx' /\
      Receiver.w_sem w' = Receiver.w_sem w + 1)).
Proof.
  intros Hsock Hq Hctx Hopen [buf [Hbuf [Hlen [Hsize [Hr [Htake Hwire]]]]]] Hrun.
  unfold Receiver.RecvLoop_body in Hrun. rewrite Hsock, Hq, Hctx, Hopen in Hrun.
  unfold Receiver.RecvLoop_header in Hrun.
  destruct (Z.eqb_spec (Receiver.data_size ctx) (-1)) as [Hneg|_]; [lia|].
  rewrite (bind_done _ _ [] (Receiver.Continue (socket, ctx, Receiver.w_pool w)) eq_refl)
    in Hrun.
  simpl app in Hrun.
  destruct (Receiver.RecvLoop_payload sender_id socket ctx (Receiver.w_pool w) q w)
    as [trp [w1| | | |]] eqn:Hp; unfold bind in Hrun; simpl in Hrun; try discriminate.
  inversion Hrun; subst tr s. rewrite app_nil_r.
  assert (0 <= Receiver.received_bytes ctx <= Receiver.data_size ctx) as Hr' by lia.
  destruct (RecvLoop_payload_on_frame _ _ _ _ _ _ _ _ _ _ _
              Hbuf Hlen Hsize Hr' Htake Hwire Hp)
    as [socket' [ctx' [Hs' [Hc' Hcase]]]].
  exists w1, socket', ctx'. split; [reflexivity|]. split; [exact Hs'|].
  split; [exact Hc' | exact Hcase].
Qed.

Lemma RecvLoop_body_resumes_partial_frame_witness :
  fst (Receiver.RecvLoop_body 4096 0 half_received_world)
  = [EvAdd 0 hi_received; EvPost].
Proof.
  destruct (Receiver.RecvLoop_body 4096 0 half_received_world)
    as [tr [s| | | |]] eqn:Hrun; try (vm_compute in Hrun; discriminate).
  destruct (RecvLoop_body_resumes_partial_frame 4096 0 half_received_world
              {| fd := 6; send_ready := [];
                 inbound := drop 1 hi ++ [Byte.x2a]; recv_ready := [1; 1] |}
              (MessageQueue_new 0)
              {| Receiver.data_size := 2; Receiver.received_bytes := 1;
                 Receiver.buffer := Some (take 1 hi ++ [Byte.x00]) |}
              hi [Byte.x2a] tr s eq_refl eq_refl eq_refl eq_refl)
    as [w' [socket' [ctx' [_ [_ [_ [[Htr _]|[[Htr _] _]]]]]]]].
  - exists (take 1 hi ++ [Byte.x00]). simpl.
    split; [reflexivity|]. split; [reflexivity|]. split; [reflexivity|].
    split; [lia|]. split; reflexivity.
  - exact Hrun.
  - subst tr. vm_compute in Hrun. discriminate.
  - simpl. rewrite Htr. reflexivity.
Defined.

(** X7.  An iteration of [RecvLoop] for a sender with a fresh context
    (data_size -1) when a frame with a payload of n > 0 bytes is first on
    the wire and its size field can be read.  If n exceeds what can be
    allocated the iteration ends in the fatal error on memory.
    Otherwise it allocates n bytes and reads payload: it either hands
    nothing over and leaves the context holding the part received, or
    hands the queue one message whose data is exactly the payload,
    posts once and resets the context. *)
Theorem RecvLoop_body_starts_frame (max_alloc sender_id : Z)
    (w : Receiver.RecvWorld) (socket : TCPSocket) (q : MessageQueue)
    (ctx : Receiver.RecvContext) (frame_payload more : list Byte.byte)
    (r : Z) (rest : list Z) :
  Receiver.w_sockets w !! sender_id = Some socket ->
  queue_lookup sender_id (Receiver.w_queues w) = Some q ->
  Receiver.w_contexts w !! sender_id = Some ctx ->
  Queue_EmptyAndNoMoreAdd q = false ->
  Receiver.data_size ctx = -1 ->
  inbound socket
  = int64_bytes (Z.of_nat (length frame_payload)) ++ frame_payload ++ more ->
  0 < Z.of_nat (length frame_payload) < 2 ^ 63 ->
  recv_ready socket = r :: rest -> 0 < r -> 7 <= count_positive rest ->
  (max_alloc < Z.of_nat (length frame_payload) ->
   is_fatal (snd (Receiver.RecvLoop_body max_alloc sender_id w)) /\
   fst (Receiver.RecvLoop_body max_alloc sender_id w) = []) /\
  (Z.of_nat (length frame_payload) <= max_alloc ->
   forall tr s,
     Receiver.RecvLoop_body max_alloc sender_id w = (tr, Done s) ->
     exists w' socket' ctx',
       s = Receiver.Continue w' /\
       Receiver.w_sockets w' !! sender_id = Some socket' /\
       Receiver.w_contexts w' !! sender_id = Some ctx' /\
       ((tr = [] /\ receiving frame_payload more socket' ctx' /\
         Receiver.w_sem w' = Receiver.w_sem w)
        \/
        (delivered sender_id frame_payload more tr socket' ctx' /\
         Receiver.w_sem w' = Receiver.w_sem w + 1))).
Proof.
  intros Hsock Hq Hctx Hopen Hfresh Hwire Hn Hready Hr Hrest.
  destruct (RecvDataSize_reads_int64_bytes socket (Z.of_nat (length frame_payload))
              (frame_payload ++ more) r rest ltac:(lia) Hwire Hready Hr Hrest)
    as [socket1 [Hsize Hwire1]].
  unfold Receiver.RecvLoop_body. rewrite Hsock, Hq, Hctx, Hopen.
  unfold Receiver.RecvLoop_header. rewrite Hfresh, Hsize. simpl Z.eqb. cbn iota.
  rewrite bind_lift_done. simpl fst. simpl snd.
  destruct (Z.gtb_spec (Z.of_nat (length frame_payload)) 0) as [_|Hle]; [|lia].
  destruct (Z.gtb_spec (Z.of_nat (length frame_payload)) max_alloc) as [Hbig|Hfits].
  - split; [intros _; split; [exact I | reflexivity] | intros Hle; lia].
  - split; [intros Hbig; lia|]. intros _ tr s Hrun.
    set (ctx1 := {| Receiver.data_size := Z.of_nat (length frame_payload);
                    Receiver.received_bytes := 0;
                    Receiver.buffer :=
                      Some (replicate (Z.to_nat (Z.of_nat (length frame_payload)))
                              Byte.x00) |}) in *.
    rewrite (bind_done _ _ [] (Receiver.Continue (socket1, ctx1, Receiver.w_pool w))
               eq_refl) in Hrun.
    simpl app in Hrun.
    destruct (Receiver.RecvLoop_payload sender_id socket1 ctx1 (Receiver.w_pool w) q w)
      as [trp [w1| | | |]] eqn:Hp; unfold bind in Hrun; simpl in Hrun; try discriminate.
    inversion Hrun; subst tr s. rewrite app_nil_r.
    assert (0 <= Receiver.received_bytes ctx1 <= Receiver.data_size ctx1) as Hr0
      by (simpl; lia).
    destruct (RecvLoop_payload_on_frame sender_id socket1 ctx1 (Receiver.w_pool w) q w
                (replicate (Z.to_nat (Z.of_nat (length frame_payload))) Byte.x00)
                frame_payload more trp w1 eq_refl
                ltac:(rewrite length_replicate; lia) eq_refl Hr0 eq_refl Hwire1 Hp)
      as [socket' [ctx' [Hs' [Hc' Hcase]]]].
    exists w1, socket', ctx'. split; [reflexivity|]. split; [exact Hs'|].
    split; [exact Hc'|].
    destruct Hcase as [[Htr [Hrecv [_ Hsem]]]|Hdel].
    + left. split; [exact Htr|]. split; [exact Hrecv | exact Hsem].
    + right. exact Hdel.
Qed.

Lemma RecvLoop_body_starts_frame_witness :
  is_fatal (snd (Receiver.RecvLoop_body 1 0 (one_socket_world echo_socket))) /\
  fst (Receiver.RecvLoop_body 4096 0 (one_socket_world echo_socket))
  = [EvAdd 0 hi_received; EvPost].
Proof.
  pose proof (fun max_alloc =>
    RecvLoop_body_starts_frame max_alloc 0 (one_socket_world echo_socket)
      echo_socket (MessageQueue_new 0) Receiver.RecvContext_new hi [Byte.x2a]
      1 [1; 1; 1; 1; 1; 1; 1; 1; 1]
      eq_refl eq_refl eq_refl eq_refl eq_refl eq_refl
      ltac:(simpl; lia) eq_refl ltac:(lia) ltac:(vm_compute; discriminate)) as H.
  split.
  - destruct (H 1) as [Hfatal _]. apply Hfatal. simpl. lia.
  - destruct (H 4096) as [_ Hok].
    destruct (Receiver.RecvLoop_body 4096 0 (one_socket_world echo_socket))
      as [tr [s| | | |]] eqn:Hrun; try (vm_compute in Hrun; discriminate).
    destruct (Hok ltac:(simpl; lia) tr s eq_refl)
      as [w' [socket' [ctx' [_ [_ [_ [[Htr _]|[[Htr _] _]]]]]]]].
    + subst tr. vm_compute in Hrun. discriminate.
    + simpl. rewrite Htr. reflexivity.
Defined.

(** X8.  An iteration of [RecvLoop] for a sender with a fresh context
    when [RecvDataSize] returns a negative number, which it does with -1
    when the first [Receive] yields nothing.  Neither branch on
    data_size is taken, [RecvData] reads nothing, and the test
    received_bytes >= data_size holds: the iteration adds a message of
    that negative size, holding the buffer pointer left in the context,
    to the sender's queue and posts the semaphore. *)
Theorem RecvLoop_body_queues_negative_size (max_alloc sender_id : Z)
    (w : Receiver.RecvWorld) (socket socket' : TCPSocket) (q q' : MessageQueue)
    (ctx : Receiver.RecvContext) (code : STATUS) (n : Z) :
  Receiver.w_sockets w !! sender_id = Some socket ->
  queue_lookup sender_id (Receiver.w_queues w) = Some q ->
  Receiver.w_contexts w !! sender_id = Some ctx ->
  Queue_EmptyAndNoMoreAdd q = false ->
  Receiver.data_size ctx = -1 ->
  0 <= Receiver.received_bytes ctx ->
  RecvDataSize socket = Done (n, socket') ->
  n < 0 ->
  Queue_Add q (received_message (Receiver.buffer ctx) n) = Done (code, q') ->
  exists w',
    Receiver.RecvLoop_body max_alloc sender_id w
    = ([EvAdd sender_id (received_message (Receiver.buffer ctx) n); EvPost],
       Done (Receiver.Continue w')) /\
    Receiver.w_sem w' = Receiver.w_sem w + 1 /\
    queue_lookup sender_id (Receiver.w_queues w') = Some q' /\
    Receiver.w_sockets w' !! sender_id = Some socket'.
Proof.
  intros Hsock Hq Hctx Hopen Hsize Hrecv Hneg Hn Hadd.
  unfold Receiver.RecvLoop_body. rewrite Hsock, Hq, Hctx, Hopen.
  unfold Receiver.RecvLoop_header. rewrite Hsize, Hneg. simpl Z.eqb. cbn iota.
  rewrite bind_lift_done. simpl fst. simpl snd.
  destruct (Z.gtb_spec n 0) as [Hpos|_]; [lia|].
  destruct (Z.eqb_spec n 0) as [Hz|_]; [lia|].
  unfold ret at 1. unfold bind at 1. simpl fst. simpl snd. cbn iota.
  unfold Receiver.RecvLoop_payload. simpl Receiver.data_size.
  simpl Receiver.received_bytes. simpl Receiver.buffer.
  rewrite RecvData_complete by lia. rewrite bind_lift_done.
  simpl fst. simpl snd.
  destruct (Z.geb_spec (Receiver.received_bytes ctx) n); [|lia].
  change (receiver_id Message_default) with 0.
  fold (received_message (Receiver.buffer ctx) n).
  rewrite Hadd. eexists. split; [reflexivity|].
  split; [reflexivity|]. simpl.
  split; [apply queue_lookup_store | apply lookup_insert_eq].
Qed.

Lemma RecvLoop_body_queues_negative_size_witness :
  exists w',
    Receiver.RecvLoop_body 4096 0 (one_socket_world idle_socket)
    = ([EvAdd 0 (received_message None (-1)); EvPost], Done (Receiver.Continue w')) /\
    Receiver.w_sem w' = 1.
Proof.
  destruct (RecvLoop_body_queues_negative_size 4096 0 (one_socket_world idle_socket)
              idle_socket (set_inbound idle_socket (inbound idle_socket) [8])
              (MessageQueue_new 0)
              (set_items (MessageQueue_new 0) [received_message None (-1)])
              Receiver.RecvContext_new ADD_SUCCESS (-1)
              eq_refl eq_refl eq_refl eq_refl eq_refl ltac:(simpl; lia) eq_refl
              ltac:(lia) eq_refl)
    as [w' [Hrun [Hsem _]]].
  exists w'. split; [exact Hrun | exact Hsem].
Defined.

(** ** The retry loop of Connect *)

Lemma retry_logs_step (t : Z) :
  0 <= t ->
  retry_logs (t + 1)
  = retry_logs t + (if (Z.rem t 200 =? 0) && negb (t =? 0) then 1 else 0).
Proof.
  intros Ht. unfold retry_logs. rewrite Z.rem_mod_nonneg by lia.
  destruct (Z.eqb_spec t 0) as [->|Hne].
  - rewrite andb_false_r. reflexivity.
  - rewrite andb_true_r.
    replace (Z.max (t + 1) 1 - 1) with t by lia.
    replace (Z.max t 1 - 1) with (t - 1) by lia.
    destruct (Z.eqb_spec (t mod 200) 0) as [Hm|Hm];
      Z.to_euclidean_division_equations; lia.
Qed.

Lemma retry_logs_nonneg (t : Z) : 0 <= retry_logs t.
Proof. unfold retry_logs. apply Z.div_pos; lia. Qed.

Lemma Connect_retry_run (kMaxTryCount : Z) (a : IPAddr) (failures : nat) :
  forall (t : Z) (tail : list bool),
    0 <= t ->
    (t + Z.of_nat failures < kMaxTryCount /\ exists rest, tail = true :: rest) \/
    t + Z.of_nat failures = Z.max t kMaxTryCount ->
    Sender.Connect_retry kMaxTryCount a (replicate failures false ++ tail) t
    = (replicate (Z.to_nat (retry_logs (t + Z.of_nat failures) - retry_logs t))
         (retry_line a),
       Done (match tail with
             | true :: rest =>
                 if t + Z.of_nat failures <? kMaxTryCount then (true, rest)
                 else (false, tail)
             | _ => (false, tail)
             end)).
Proof.
  induction failures as [|k IH]; intros t tail Ht Hcase.
  - rewrite Z.add_0_r, Z.sub_diag in *. simpl.
    destruct Hcase as [[Hlt [rest ->]]|Heq].
    + simpl. destruct (Z.ltb_spec t kMaxTryCount); [reflexivity | lia].
    + destruct tail as [|[|] rest]; simpl;
        destruct (Z.ltb_spec t kMaxTryCount); try lia; reflexivity.
  - assert (t < kMaxTryCount) as Hlt by (destruct Hcase as [[? _]|?]; lia).
    simpl replicate. simpl app. simpl Sender.Connect_retry.
    destruct (Z.ltb_spec t kMaxTryCount); [|lia].
    rewrite (IH (t + 1) tail);
      [| lia
       | destruct Hcase as [[? ?]|?]; [left; split; [lia | assumption] | right; lia]].
    replace (t + 1 + Z.of_nat k) with (t + Z.of_nat (S k)) by lia.
    pose proof (retry_logs_step t Ht) as Hstep.
    pose proof (retry_logs_nonneg t) as H0.
    assert (retry_logs (t + 1) <= retry_logs (t + Z.of_nat (S k))) as Hmono.
    { unfold retry_logs. apply Z.div_le_mono; lia. }
    destruct ((Z.rem t 200 =? 0) && negb (t =? 0)).
    + unfold bind, emit. simpl fst. simpl snd. cbn iota.
      replace (Z.to_nat (retry_logs (t + Z.of_nat (S k)) - retry_logs t))
        with (S (Z.to_nat (retry_logs (t + Z.of_nat (S k)) - retry_logs (t + 1))))
        by lia.
      reflexivity.
    + unfold bind, ret. simpl fst. simpl snd. cbn iota.
      replace (retry_logs (t + Z.of_nat (S k)) - retry_logs t)
        with (retry_logs (t + Z.of_nat (S k)) - retry_logs (t + 1)) by lia.
      reflexivity.
Qed.

(** X9.  The retry loop of [Connect] for one receiver.  When the
    connection succeeds after fewer than kMaxTryCount failed attempts,
    the loop stops there with success.  When kMaxTryCount attempts have
    failed it gives up without a further attempt (with a budget of 0 or
    less, without any attempt).  In both cases it has logged the line
    "Try to connect to" once for every failed attempt whose number is a
    positive multiple of 200. *)
Theorem Connect_retry_budget (kMaxTryCount : Z) (a : IPAddr) (failures : nat)
    (rest : list bool) :
  (Z.of_nat failures < kMaxTryCount ->
   Sender.Connect_retry kMaxTryCount a (replicate failures false ++ true :: rest) 0
   = (replicate (Z.to_nat (retry_logs (Z.of_nat failures))) (retry_line a),
      Done (true, rest))) /\
  (Z.of_nat failures = Z.max 0 kMaxTryCount ->
   Sender.Connect_retry kMaxTryCount a (replicate failures false ++ rest) 0
   = (replicate (Z.to_nat (retry_logs (Z.of_nat failures))) (retry_line a),
      Done (false, rest))).
Proof.
  split; intros H.
  - rewrite (Connect_retry_run kMaxTryCount a failures 0 (true :: rest));
      [| lia | left; split; [lia | eexists; reflexivity]].
    rewrite Z.add_0_l. change (retry_logs 0) with 0. rewrite Z.sub_0_r.
    destruct (Z.ltb_spec (Z.of_nat failures) kMaxTryCount); [reflexivity | lia].
  - rewrite (Connect_retry_run kMaxTryCount a failures 0 rest);
      [| lia | right; lia].
    rewrite Z.add_0_l. change (retry_logs 0) with 0. rewrite Z.sub_0_r.
    destruct rest as [|[|] rest']; try reflexivity.
    destruct (Z.ltb_spec (Z.of_nat failures) kMaxTryCount); [lia | reflexivity].
Qed.

Lemma Connect_retry_budget_witness :
  Sender.Connect_retry 1024 localhost (replicate 401 false ++ [true; false]) 0
  = ([retry_line localhost; retry_line localhost], Done (true, [false])) /\
  Sender.Connect_retry 3 localhost (replicate 3 false ++ [true]) 0
  = ([], Done (false, [true])).
Proof.
  split.
  - destruct (Connect_retry_budget 1024 localhost 401 [false]) as [Hok _].
    rewrite Hok by lia. reflexivity.
  - destruct (Connect_retry_budget 3 localhost 3 [true]) as [_ Hfail].
    rewrite Hfail by lia. reflexivity.
Defined.

(** ** Connect that fails, and AddReceiver *)

Lemma Connect_sockets_false_nonempty (kMaxTryCount : Z) (new_socket : Z -> TCPSocket)
    (N : Z) (rs : list (Z * IPAddr)) (sockets : list (gmap Z TCPSocket))
    (script : list bool) (tr : list event)
    (x : list (gmap Z TCPSocket) * list bool) :
  Sender.Connect_sockets kMaxTryCount new_socket N rs sockets script
  = (tr, Done (false, x)) ->
  rs <> [].
Proof. destruct rs; [discriminate | intros _; discriminate]. Qed.

(** X10.  A [Connect] that returns false (a receiver could not be
    reached) has created no queue and started no thread, although it has
    set max_thread_count_ to a positive shard count.  A [Send] with valid
    arguments on that sender therefore passes its three checks and then
    indexes the empty msg_queue_ vector: undefined behaviour, not an
    error status.  The first loop of [Finalize] indexes the empty
    vector as well. *)
Theorem Send_after_failed_Connect (kMaxTryCount : Z) (new_socket : Z -> TCPSocket)
    (script : list bool) (s : Sender.SocketSender) (tr : list event)
    (s' : Sender.SocketSender) :
  not_connected s ->
  Sender.Connect kMaxTryCount new_socket script s = (tr, Done (false, s')) ->
  Sender.msg_queue_ s' = [] /\
  Sender.threads_ s' = [] /\
  Sender.receiver_addrs_ s' = Sender.receiver_addrs_ s /\
  0 < Sender.max_thread_count_ s' /\
  (forall msg recv_id,
      is_Some (data msg) -> 0 < size msg -> 0 <= recv_id ->
      Sender.Send msg recv_id s' = ([], Undefined "msg_queue_[i] past the end")) /\
  Sender.Finalize_queues (Z.to_nat (Sender.max_thread_count_ s')) 0
    (Sender.msg_queue_ s')
  = Undefined "msg_queue_[i] past the end".
Proof.
  intros [_ [Hmq Hth]] H.
  pose proof (Connect_done kMaxTryCount new_socket script s tr false s' H)
    as [HN HN0].
  unfold Sender.Connect in H.
  destruct (vector_resize _ ∅ (Sender.sockets_ s)) as [sockets0| | | |];
    unfold bind, lift in H; simpl in H; try discriminate.
  destruct (Sender.Connect_sockets kMaxTryCount new_socket _ _ sockets0 script)
    as [tr1 [[bo x]| | | |]] eqn:Hsocks; simpl in H; try discriminate.
  destruct bo; simpl in H.
  { destruct (Sender.Connect_threads _ _ _ _ _ _) as [tr2 [qt| | | |]];
      simpl in H; discriminate. }
  apply Connect_sockets_false_nonempty in Hsocks.
  assert (0 < receiver_count s) as Hcount.
  { unfold receiver_count.
    destruct (decide (base.size (Sender.receiver_addrs_ s) = 0%nat)) as [Hz|Hz]; [|lia].
    exfalso. apply Hsocks. apply map_size_empty_iff in Hz.
    rewrite Hz. apply map_to_list_empty. }
  assert (0 < Sender.max_thread_count_ s') as Hpos.
  { rewrite HN in *. unfold shard_count in *.
    destruct (Z.eqb_spec (Sender.max_thread_count_ s) 0); lia. }
  inversion H; subst tr s'. simpl in *.
  split; [exact Hmq|]. split; [exact Hth|]. split; [reflexivity|].
  split; [exact Hpos|].
  set (N := adjust_thread_count _ _) in *.
  split.
  - intros msg recv_id [buf Hdata] Hsize Hid. unfold Sender.Send.
    rewrite Hdata. simpl.
    destruct (Z.gtb_spec (size msg) 0); [|lia]. simpl.
    destruct (Z.geb_spec recv_id 0); [|lia]. simpl.
    destruct (Z.eqb_spec N 0); [lia|].
    destruct (Z.ltb_spec (Z.rem recv_id N) 0) as [Hneg|_].
    { pose proof (Z.rem_nonneg recv_id N ltac:(lia) Hid). lia. }
    rewrite Hmq. reflexivity.
  - rewrite Hmq. destruct (Z.to_nat N) eqn:HN'; [lia | reflexivity].
Qed.

Lemma Send_after_failed_Connect_witness :
  exists tr s',
    Sender.Connect 2 fresh_socket [false; false] sender1 = (tr, Done (false, s')) /\
    Sender.max_thread_count_ s' = 1 /\
    Sender.Send msg_hi 4 s' = ([], Undefined "msg_queue_[i] past the end").
Proof.
  destruct (Sender.Connect 2 fresh_socket [false; false] sender1)
    as [tr [[[|] s']| | | |]] eqn:Hrun; try (vm_compute in Hrun; discriminate).
  exists tr, s'. split; [reflexivity|].
  destruct (Send_after_failed_Connect 2 fresh_socket [false; false] sender1 tr s'
              ltac:(repeat split) Hrun) as [_ [_ [_ [_ [Hsend _]]]]].
  split.
  - vm_compute in Hrun. inversion Hrun. reflexivity.
  - apply Hsend; [eexists; reflexivity | simpl; lia | lia].
Defined.

(** X11.  Each [AddReceiver] that returns has checked that the id is
    not negative, registers the parsed address under that id (replacing
    an address registered under it before), leaves every other
    registration and the connection state as they were, and adds at most
    one receiver: the ids stay non-negative and the sender stays not
    connected. *)
Theorem AddReceiver_keeps_sender_invariants
    (SplitStringUsing : string -> string -> list string) (addr : option string)
    (recv_id : Z) (s : Sender.SocketSender) (tr : list event)
    (s' : Sender.SocketSender) :
  Sender.AddReceiver SplitStringUsing addr recv_id s = (tr, Done s') ->
  0 <= recv_id /\
  (exists a address,
      addr = Some a /\ snd (parse_address SplitStringUsing a) = Done address /\
      Sender.receiver_addrs_ s' !! recv_id = Some address) /\
  (forall r, r <> recv_id ->
             Sender.receiver_addrs_ s' !! r = Sender.receiver_addrs_ s !! r) /\
  receiver_count s'
  = receiver_count s
    + (if decide (is_Some (Sender.receiver_addrs_ s !! recv_id)) then 0 else 1) /\
  (ids_nonnegative s -> ids_nonnegative s') /\
  (not_connected s -> not_connected s') /\
  Sender.max_thread_count_ s' = Sender.max_thread_count_ s.
Proof.
  unfold Sender.AddReceiver. intros H.
  destruct addr as [a|]; [|discriminate].
  destruct (Z.ltb_spec recv_id 0) as [|Hid]; [discriminate|].
  destruct (parse_address SplitStringUsing a) as [tr0 [address| | | |]] eqn:Hparse;
    unfold bind in H; simpl in H; try discriminate.
  inversion H; subst tr s'. simpl.
  split; [exact Hid|]. split.
  { exists a, address. split; [reflexivity|].
    split; [rewrite Hparse; reflexivity | apply lookup_insert_eq]. }
  split; [intros r Hr; apply lookup_insert_ne; congruence|].
  split.
  { unfold receiver_count. simpl.
    destruct (Sender.receiver_addrs_ s !! recv_id) as [old|] eqn:Hold.
    - rewrite decide_True by (eexists; reflexivity).
      rewrite map_size_insert_Some by (rewrite Hold; eexists; reflexivity). lia.
    - rewrite decide_False by (intros [? ?]; discriminate).
      rewrite map_size_insert_None by exact Hold. lia. }
  split.
  { intros Hids r a0 Hr. simpl in Hr. apply lookup_insert_Some in Hr.
    destruct Hr as [[<- _]|[_ Hr]]; [exact Hid | exact (Hids _ _ Hr)]. }
  split; [intros Hnc; exact Hnc | reflexivity].
Qed.

Lemma AddReceiver_keeps_sender_invariants_witness :
  exists s',
    Sender.AddReceiver split_on_delimiter (Some "socket://127.0.0.1:50051") 9 sender1
    = ([], Done s') /\
    receiver_count s' = 2 /\
    Sender.receiver_addrs_ s' !! 4 = Some localhost /\
    not_connected s'.
Proof.
  destruct (Sender.AddReceiver split_on_delimiter (Some "socket://127.0.0.1:50051") 9
              sender1) as [tr [s'| | | |]] eqn:Hrun;
    try (vm_compute in Hrun; discriminate).
  destruct (AddReceiver_keeps_sender_invariants _ _ _ _ _ _ Hrun)
    as [_ [_ [Hother [Hcount [_ [Hnc _]]]]]].
  exists s'. split.
  - f_equal. vm_compute in Hrun. inversion Hrun. reflexivity.
  - split; [rewrite Hcount; reflexivity|].
    split; [rewrite Hother by lia; reflexivity|].
    apply Hnc. repeat split.
Defined.

(** ** Recv and RecvFrom *)

Lemma Recv_scan_inv (fuel : nat) :
  forall qs it msg code msg' id qs' it',
    Receiver.Recv_scan fuel qs it msg = Done (code, msg', id, (qs', it')) ->
    code <> QUEUE_EMPTY /\
    exists j q q',
      qs !! j = Some (id, q) /\
      Queue_Remove q msg false = Done (code, msg', q') /\
      qs' = <[j := (id, q')]> qs /\ it' = S j.
Proof.
  induction fuel as [|fuel IH]; intros qs it msg code msg' id qs' it' H;
    simpl in H; [discriminate|].
  destruct (qs !! it) as [[id0 q0]|] eqn:Hit; [|exact (IH _ _ _ _ _ _ _ _ H)].
  destruct (Queue_Remove q0 msg false) as [[[c m] q1]| | | |] eqn:Hrem;
    try discriminate.
  destruct (decide (c = QUEUE_EMPTY)) as [->|Hc].
  - apply Queue_Remove_empty_unchanged in Hrem as [-> ->].
    rewrite (list_insert_id _ _ _ Hit) in H. exact (IH _ _ _ _ _ _ _ _ H).
  - inversion H; subst. split; [exact Hc|].
    exists it, q0, q1. repeat split; assumption.
Qed.

Lemma Recv_scan_all_empty (qs : list (Z * MessageQueue)) (msg : Message) :
  (forall i idq, qs !! i = Some idq -> returns_empty msg (snd idq)) ->
  forall fuel it, Receiver.Recv_scan fuel qs it msg = Pending.
Proof.
  intros Hempty. induction fuel as [|fuel IH]; intros it; simpl; [reflexivity|].
  destruct (qs !! it) as [[id0 q0]|] eqn:Hit; [|apply IH].
  destruct (Hempty _ _ Hit) as [m1 [q1 Hq1]]. simpl in Hq1. rewrite Hq1.
  apply Queue_Remove_empty_unchanged in Hq1 as [-> ->].
  rewrite decide_True by reflexivity.
  rewrite (list_insert_id _ _ _ Hit). apply IH.
Qed.

(** X12.  Whatever the number of loop iterations, when [Recv] returns:
    the semaphore count was positive and is one less; the status is
    never QUEUE_EMPTY; the status and the message are those of the
    non-blocking [Remove] on one queue, whose key is the reported sender
    id; only that queue changed, and the iterator stands just after
    it. *)
Theorem Recv_returns_a_removed_message (fuel : nat) (msg : Message)
    (r : Receiver.SocketReceiver) (code : STATUS) (msg' : Message) (id : Z)
    (r' : Receiver.SocketReceiver) :
  Receiver.Recv fuel msg r = Done (code, msg', id, r') ->
  0 < Receiver.queue_sem_ r /\
  Receiver.queue_sem_ r' = Receiver.queue_sem_ r - 1 /\
  code <> QUEUE_EMPTY /\
  exists j q q',
    Receiver.msg_queue_ r !! j = Some (id, q) /\
    Queue_Remove q msg false = Done (code, msg', q') /\
    Receiver.msg_queue_ r' = <[j := (id, q')]> (Receiver.msg_queue_ r) /\
    Receiver.mq_iter_ r' = S j.
Proof.
  unfold Receiver.Recv. intros H.
  destruct (Z.leb_spec (Receiver.queue_sem_ r) 0) as [|Hsem]; [discriminate|].
  destruct (Receiver.Recv_scan fuel (Receiver.msg_queue_ r) (Receiver.mq_iter_ r) msg)
    as [[[[c m] i] [qs it]]| | | |] eqn:Hscan; simpl in H; try discriminate.
  inversion H; subst. simpl.
  destruct (Recv_scan_inv _ _ _ _ _ _ _ _ _ Hscan) as [Hc [j [q [q' [Hj [Hrem [-> ->]]]]]]].
  split; [exact Hsem|]. split; [reflexivity|]. split; [exact Hc|].
  exists j, q, q'. repeat split; assumption.
Qed.

Lemma Recv_returns_a_removed_message_witness :
  exists j q q',
    Receiver.msg_queue_ three_queues !! j = Some (5, q) /\
    Queue_Remove q Message_default false = Done (REMOVE_SUCCESS, msg_hi, q') /\
    Receiver.msg_queue_ overcounted_queues
    = <[j := (5, q')]> (Receiver.msg_queue_ three_queues) /\
    Receiver.mq_iter_ overcounted_queues = S j.
Proof.
  destruct (Recv_returns_a_removed_message 5 Message_default three_queues
              REMOVE_SUCCESS msg_hi 5 overcounted_queues eq_refl)
    as [_ [_ [_ H]]].
  exact H.
Defined.

(** X13.  [Recv] has no exit other than a message: with a semaphore
    count that is not positive it waits, and with a positive count and
    every queue empty it goes round the queues without end, whatever
    number of iterations it is given. *)
Theorem Recv_never_returns_on_empty_queues (msg : Message)
    (r : Receiver.SocketReceiver) :
  Receiver.queue_sem_ r <= 0 \/
  (forall i idq, Receiver.msg_queue_ r !! i = Some idq -> returns_empty msg (snd idq)) ->
  forall fuel, Receiver.Recv fuel msg r = Pending.
Proof.
  intros H fuel. unfold Receiver.Recv.
  destruct (Z.leb_spec (Receiver.queue_sem_ r) 0) as [|Hsem]; [reflexivity|].
  destruct H as [Hle|Hempty]; [lia|].
  rewrite (Recv_scan_all_empty _ _ Hempty). reflexivity.
Qed.

Lemma Recv_never_returns_on_empty_queues_witness :
  0 < Receiver.queue_sem_ overcounted_queues /\
  Receiver.Recv 1000 Message_default overcounted_queues = Pending.
Proof.
  split; [simpl; lia|].
  apply Recv_never_returns_on_empty_queues. right.
  intros i idq Hi.
  destruct i as [|[|[|i]]]; simpl in Hi; inversion Hi; subst;
    eexists _, _; reflexivity.
Defined.

Lemma queue_lookup_store_ne (id id' : Z) (q : MessageQueue)
    (qs : list (Z * MessageQueue)) :
  id' <> id -> queue_lookup id' (queue_store id q qs) = queue_lookup id' qs.
Proof.
  intros Hne. induction qs as [|[k q0] qs IH]; simpl.
  - destruct (Z.eqb_spec id id'); [congruence | reflexivity].
  - destruct (Z.eqb_spec k id) as [->|Hk]; simpl.
    + destruct (Z.eqb_spec id id'); [congruence | reflexivity].
    + destruct (Z.eqb_spec k id'); [reflexivity | exact IH].
Qed.

(** X14.  When [RecvFrom] returns: the semaphore count was positive and
    is one less; the sender id has a queue; the status and the message
    are those of the blocking [Remove] on that queue; every other queue
    and the iterator of [Recv] are as they were. *)
Theorem RecvFrom_takes_from_that_queue_only (msg : Message) (send_id : Z)
    (r : Receiver.SocketReceiver) (code : STATUS) (msg' : Message)
    (r' : Receiver.SocketReceiver) :
  Receiver.RecvFrom msg send_id r = Done (code, msg', r') ->
  0 < Receiver.queue_sem_ r /\
  Receiver.queue_sem_ r' = Receiver.queue_sem_ r - 1 /\
  Receiver.mq_iter_ r' = Receiver.mq_iter_ r /\
  (exists q q',
      queue_lookup send_id (Receiver.msg_queue_ r) = Some q /\
      Queue_Remove q msg true = Done (code, msg', q') /\
      queue_lookup send_id (Receiver.msg_queue_ r') = Some q') /\
  forall other,
    other <> send_id ->
    queue_lookup other (Receiver.msg_queue_ r')
    = queue_lookup other (Receiver.msg_queue_ r).
Proof.
  unfold Receiver.RecvFrom. intros H.
  destruct (Z.leb_spec (Receiver.queue_sem_ r) 0) as [|Hsem]; [discriminate|].
  destruct (queue_lookup send_id (Receiver.msg_queue_ r)) as [q|] eqn:Hq;
    [|discriminate].
  destruct (Queue_Remove q msg true) as [[[c m] q']| | | |] eqn:Hrem;
    simpl in H; try discriminate.
  inversion H; subst. simpl.
  split; [exact Hsem|]. split; [reflexivity|]. split; [reflexivity|].
  split.
  - exists q, q'. split; [reflexivity|]. split; [exact Hrem|].
    apply queue_lookup_store.
  - intros other Hne. apply queue_lookup_store_ne. exact Hne.
Qed.

Lemma RecvFrom_takes_from_that_queue_only_witness :
  exists r',
    Receiver.RecvFrom Message_default 5 three_queues
    = Done (REMOVE_SUCCESS, msg_hi, r') /\
    Receiver.mq_iter_ r' = 2%nat /\
    queue_lookup 4 (Receiver.msg_queue_ r') = Some (MessageQueue_new 0).
Proof.
  destruct (Receiver.RecvFrom Message_default 5 three_queues)
    as [[[c m] r']| | | |] eqn:Hrun; try (vm_compute in Hrun; discriminate).
  destruct (RecvFrom_takes_from_that_queue_only _ _ _ _ _ _ Hrun)
    as [_ [_ [Hit [_ Hother]]]].
  exists r'. split.
  - vm_compute in Hrun. inversion Hrun; subst. reflexivity.
  - split; [exact Hit|]. rewrite Hother by lia. reflexivity.
Defined.

(** ** What Wait leaves for the threads and the consumer *)

Lemma Wait_accept_queues (N queue_size : Z) :
  forall n i acc sockets msg_queue tr sockets' msg_queue',
    Receiver.Wait_accept n i N queue_size acc sockets msg_queue
    = (tr, Done (true, (sockets', msg_queue'))) ->
    forall id,
      queue_lookup id msg_queue'
      = if decide (i <= id < i + Z.of_nat n)
        then Some (MessageQueue_new queue_size) else queue_lookup id msg_queue.
Proof.
  induction n as [|n IH]; intros i acc sockets msg_queue tr sockets' msg_queue' H id.
  - simpl in H. inversion H; subst. rewrite decide_False by lia. reflexivity.
  - simpl in H.
    destruct (N =? 0); [discriminate|].
    destruct (Z.rem i N <? 0); [discriminate|].
    destruct (sockets !! Z.to_nat (Z.rem i N)) as [m|]; [|discriminate].
    destruct acc as [|[socket|] acc]; [discriminate | | discriminate].
    rewrite (IH _ _ _ _ _ _ _ H id).
    destruct (decide (i + 1 <= id < i + 1 + Z.of_nat n)) as [Hid|Hid].
    + rewrite decide_True by lia. reflexivity.
    + destruct (decide (id = i)) as [->|Hne].
      * rewrite decide_True by lia. apply queue_lookup_store.
      * rewrite decide_False by lia. apply queue_lookup_store_ne. exact Hne.
Qed.

Lemma Wait_threads_spec (sockets : list (gmap Z TCPSocket)) :
  forall n t threads,
    (t + n <= length sockets)%nat ->
    Receiver.Wait_threads n (Z.of_nat t) sockets threads
    = ([], Done (threads ++ take n (drop t sockets))).
Proof.
  induction n as [|n IH]; intros t threads Hlen; simpl.
  - rewrite app_nil_r. reflexivity.
  - rewrite Nat2Z.id.
    destruct (lookup_lt_is_Some_2 sockets t ltac:(lia)) as [m Hm]. rewrite Hm.
    replace (Z.of_nat t + 1) with (Z.of_nat (S t)) by lia.
    rewrite IH by lia. rewrite (drop_S _ _ _ Hm). simpl.
    rewrite <- app_assoc. reflexivity.
Qed.

(** X15.  A [Wait] that returns true on a receiver without sockets.
    It has recorded the number of senders, put the iterator of [Recv] on
    the first queue and not touched the semaphore.  Every sender id from
    0 to num_sender - 1 has a new, empty queue of the configured
    capacity, and no other queue was created.  It has started one thread
    per shard, each with the socket map of its shard; and every socket
    in the map of shard t belongs to a sender id in range with
    id mod shard count = t that has a queue, so the lookups
    queues[sender_id] of that thread's [RecvLoop] find a queue. *)
Theorem Wait_leaves_a_queue_for_every_socket (USE_EPOLL : bool)
    (SplitStringUsing : string -> string -> list string)
    (env : Receiver.WaitEnv) (addr : option string) (num_sender : Z)
    (r : Receiver.SocketReceiver) (tr : list event) (r' : Receiver.SocketReceiver) :
  Receiver.sockets_ r = [] ->
  Receiver.Wait USE_EPOLL SplitStringUsing env addr num_sender r = (tr, Done (true, r')) ->
  Receiver.num_sender_ r' = num_sender /\
  Receiver.mq_iter_ r' = 0%nat /\
  Receiver.queue_sem_ r' = Receiver.queue_sem_ r /\
  Receiver.threads_ r' = Receiver.threads_ r ++ Receiver.sockets_ r' /\
  length (Receiver.sockets_ r') = Z.to_nat (Receiver.max_thread_count_ r') /\
  (forall id,
      queue_lookup id (Receiver.msg_queue_ r')
      = if decide (0 <= id < num_sender)
        then Some (MessageQueue_new (Receiver.queue_size_ r))
        else queue_lookup id (Receiver.msg_queue_ r)) /\
  (forall t m id s,
      Receiver.sockets_ r' !! t = Some m -> m !! id = Some s ->
      0 <= id < num_sender /\
      t = Z.to_nat (id mod Receiver.max_thread_count_ r') /\
      queue_lookup id (Receiver.msg_queue_ r')
      = Some (MessageQueue_new (Receiver.queue_size_ r))).
Proof.
  intros Hs H.
  pose proof (Wait_success _ _ _ _ _ _ _ _ Hs H) as [_ [HNpos Hat]].
  unfold Receiver.Wait in H.
  destruct addr as [a|]; [|discriminate].
  destruct (Z.gtb_spec num_sender 0) as [Hnum|]; [|discriminate]. simpl in H.
  destruct (parse_address SplitStringUsing a) as [tr0 [address| | | |]];
    unfold bind in H; simpl in H; try discriminate.
  destruct (Receiver.bind_ok env); simpl in H; [|discriminate].
  destruct (Receiver.listen_ok env); simpl in H; [|discriminate].
  rewrite Hs in H.
  set (N := if USE_EPOLL
            then adjust_thread_count (Receiver.max_thread_count_ r) num_sender
            else num_sender) in *.
  unfold vector_resize, lift in H.
  destruct (Z.ltb_spec N 0) as [|HN]; simpl in H; [discriminate|].
  rewrite take_nil, Nat.sub_0_r in H. simpl in H.
  destruct (Receiver.Wait_accept (Z.to_nat num_sender) 0 N (Receiver.queue_size_ r)
              (Receiver.accepts env) (replicate (Z.to_nat N) ∅) (Receiver.msg_queue_ r))
    as [tr1 [[bo [sockets1 mq1]]| | | |]] eqn:Hacc; simpl in H; try discriminate.
  destruct bo; simpl in H; [|discriminate].
  pose proof (Wait_accept_queues _ _ _ _ _ _ _ _ _ _ Hacc) as Hqueues.
  apply Wait_accept_spec in Hacc; [| lia | assumption | apply length_replicate].
  destruct Hacc as [Hlen _].
  pose proof (Wait_threads_spec sockets1 (Z.to_nat N) 0 (Receiver.threads_ r)
                ltac:(lia)) as Hth.
  change (Z.of_nat 0) with 0 in Hth. rewrite Hth in H.
  simpl in H. inversion H; subst tr r'. simpl in *.
  assert (forall id,
             queue_lookup id mq1
             = if decide (0 <= id < num_sender)
               then Some (MessageQueue_new (Receiver.queue_size_ r))
               else queue_lookup id (Receiver.msg_queue_ r)) as Hq.
  { intros id. rewrite Hqueues.
    destruct (decide (0 <= id < 0 + Z.of_nat (Z.to_nat num_sender))) as [Hid|Hid].
    - rewrite decide_True by lia. reflexivity.
    - rewrite decide_False by lia. reflexivity. }
  split; [reflexivity|]. split; [reflexivity|]. split; [reflexivity|].
  split; [rewrite drop_0, take_ge by lia; reflexivity|].
  split; [exact Hlen|]. split; [exact Hq|].
  intros t m id s Ht Hm.
  specialize (Hat t id). unfold socket_at in Hat. rewrite Ht, Hm in Hat.
  destruct (decide (0 <= id < num_sender /\ t = Z.to_nat (id mod N))) as [[Hid Htid]|];
    [|discriminate].
  split; [exact Hid|]. split; [exact Htid|].
  rewrite Hq, decide_True by exact Hid. reflexivity.
Qed.

Lemma Wait_leaves_a_queue_for_every_socket_witness :
  Receiver.threads_ waited2 = Receiver.sockets_ waited2 /\
  length (Receiver.sockets_ waited2) = 1%nat /\
  queue_lookup 1 (Receiver.msg_queue_ waited2) = Some (MessageQueue_new 0) /\
  queue_lookup 2 (Receiver.msg_queue_ waited2) = None.
Proof.
  assert (exists tr, wait2 = (tr, Done (true, waited2))) as [tr Hrun].
  { eexists. vm_compute. reflexivity. }
  unfold wait2 in Hrun.
  destruct (Wait_leaves_a_queue_for_every_socket true split_on_delimiter friendly_env
              (Some "socket://127.0.0.1:50051") 2 receiver2 tr waited2 eq_refl Hrun)
    as [_ [_ [_ [Hthreads [Hlen [Hq _]]]]]].
  split; [exact Hthreads|]. split.
  - rewrite Hlen. vm_compute. reflexivity.
  - split; [rewrite Hq; reflexivity | rewrite Hq; reflexivity].
Defined.

(** ** RecvLoop stays within its buffers *)

Lemma RecvDataSize_loop_well_defined (ready : list Z) :
  forall wire k repr, well_defined (RecvDataSize_loop wire ready k repr).
Proof.
  induction ready as [|r ready IH]; intros wire k repr; simpl.
  - destruct (to_size_t k <? 8); exact I.
  - destruct (to_size_t k <? 8); [|exact I].
    destruct (Receive_result r (8 - k) (Z.of_nat (length wire)) =? -1); [|apply IH].
    destruct (k >? 0); [apply IH | exact I].
Qed.

Lemma RecvDataSize_well_defined (socket : TCPSocket) :
  well_defined (RecvDataSize socket).
Proof.
  unfold RecvDataSize.
  pose proof (RecvDataSize_loop_well_defined (recv_ready socket) (inbound socket) 0
                (int64_bytes 0)) as H.
  destruct (RecvDataSize_loop (inbound socket) (recv_ready socket) 0 (int64_bytes 0))
    as [[n [wire ready]]| | | |]; simpl; exact H.
Qed.

Lemma Queue_Add_well_defined (q : MessageQueue) (msg : Message) :
  well_defined (Queue_Add q msg).
Proof.
  unfold Queue_Add. destruct (queue_finished q); [exact I|].
  destruct ((0 <? capacity q) && (capacity q <=? Z.of_nat (length (items q))));
    exact I.
Qed.

Lemma RecvData_safe (socket : TCPSocket) (buf : list Byte.byte)
    (data_size received_bytes : Z) :
  0 <= received_bytes <= data_size ->
  data_size <= Z.of_nat (length buf) ->
  is_done (RecvData socket (Some buf) data_size received_bytes) \/
  RecvData socket (Some buf) data_size received_bytes = Pending.
Proof.
  intros Hr Hfit. unfold RecvData.
  destruct (RecvData_loop_safe data_size (recv_ready socket) (inbound socket) buf
              received_bytes Hr Hfit) as [Hd|Hp].
  - left. destruct (RecvData_loop _ _ _ _ _) as [[[? ?] ?]| | | |];
      try destruct Hd. exact I.
  - right. rewrite Hp. reflexivity.
Qed.

(** [RecvData] on a context that is in order, or whose size is already
    reached: it returns or waits, and the context stays in order. *)
Lemma RecvData_keeps_context (socket : TCPSocket) (buffer : option (list Byte.byte))
    (data_size received_bytes : Z) :
  0 <= received_bytes ->
  (data_size <= received_bytes \/
   exists buf, buffer = Some buf /\ received_bytes <= data_size /\
               data_size <= Z.of_nat (length buf)) ->
  match RecvData socket buffer data_size received_bytes with
  | Done (_, (out, received')) =>
      0 <= received' /\
      (data_size <= received' \/
       exists buf', out = Some buf' /\ received' <= data_size /\
                    data_size <= Z.of_nat (length buf'))
  | Pending => True
  | _ => False
  end.
Proof.
  intros Hr [Hdone|[buf [-> [Hle Hfit]]]].
  - rewrite RecvData_complete by exact Hdone. split; [exact Hr | left; exact Hdone].
  - destruct (RecvData_safe socket buf data_size received_bytes ltac:(lia) Hfit)
      as [Hd|Hp]; [|rewrite Hp; exact I].
    destruct (RecvData socket (Some buf) data_size received_bytes)
      as [[socket' [out r']]| | | |] eqn:Hrun; try destruct Hd.
    apply RecvData_done in Hrun.
    apply RecvData_loop_spec in Hrun; [|lia|exact Hfit].
    destruct Hrun as [bytes [_ [Hr' [Hle' Hout]]]].
    split; [lia|]. right. eexists. split; [exact Hout|]. split; [exact Hle'|].
    rewrite !length_app, length_take, length_drop. lia.
Qed.

Lemma RecvLoop_payload_keeps_world (sender_id : Z) (socket : TCPSocket)
    (ctx : Receiver.RecvContext) (pool : gset Z) (q : MessageQueue)
    (w : Receiver.RecvWorld) :
  world_ok w -> sender_id ∈ dom (Receiver.w_sockets w) ->
  0 <= Receiver.received_bytes ctx ->
  (Receiver.data_size ctx <= Receiver.received_bytes ctx \/
   exists buf, Receiver.buffer ctx = Some buf /\
               Receiver.received_bytes ctx <= Receiver.data_size ctx /\
               Receiver.data_size ctx <= Z.of_nat (length buf)) ->
  match snd (Receiver.RecvLoop_payload sender_id socket ctx pool q w) with
  | Done w' => world_ok w'
  | Pending | Fatal _ => True
  | _ => False
  end.
Proof.
  intros [Hlook Hctxs] Hin Hr Hctx.
  pose proof (RecvData_keeps_context socket _ _ _ Hr Hctx) as Hrd.
  unfold Receiver.RecvLoop_payload.
  destruct (RecvData socket (Receiver.buffer ctx) (Receiver.data_size ctx)
              (Receiver.received_bytes ctx)) as [[socket' [out r']]| | | |];
    [| destruct Hrd | destruct Hrd | exact I | destruct Hrd].
  rewrite bind_lift_done. simpl fst. simpl snd. destruct Hrd as [Hr' Hctx'].
  assert (forall c,
             context_ok c ->
             forall qs sem,
               (forall id, is_Some (queue_lookup id (Receiver.w_queues w)) ->
                           is_Some (queue_lookup id qs)) ->
               world_ok {| Receiver.w_sockets := <[sender_id := socket']> (Receiver.w_sockets w);
                           Receiver.w_queues := qs;
                           Receiver.w_sem := sem;
                           Receiver.w_contexts := <[sender_id := c]> (Receiver.w_contexts w);
                           Receiver.w_pool := pool |}) as Hok.
  { intros c Hc qs sem Hqs. split; simpl.
    - intros id Hid. rewrite dom_insert_L in Hid.
      assert (id ∈ dom (Receiver.w_sockets w)) as Hid'.
      { apply elem_of_union in Hid as [Hid|Hid]; [|exact Hid].
        apply elem_of_singleton in Hid. subst id. exact Hin. }
      destruct (Hlook id Hid') as [Hc' Hq']. split; [|apply Hqs; exact Hq'].
      destruct (decide (id = sender_id)) as [->|Hne].
      + rewrite lookup_insert_eq. eexists. reflexivity.
      + rewrite lookup_insert_ne by congruence. exact Hc'.
    - intros id c' Hc'. apply lookup_insert_Some in Hc'.
      destruct Hc' as [[_ <-]|[_ Hc']]; [exact Hc | exact (Hctxs _ _ Hc')]. }
  destruct (Z.geb_spec r' (Receiver.data_size ctx)) as [Hge|Hlt].
  - rewrite bind_emit. simpl snd.
    pose proof (Queue_Add_well_defined q
                  {| data := out; size := Receiver.data_size ctx;
                     receiver_id := receiver_id Message_default;
                     deallocator := Some "DefaultMessageDeleter" |}) as Hadd.
    destruct (Queue_Add q _) as [[code q']| | | |];
      unfold bind, lift; simpl; try exact I; try destruct Hadd.
    apply Hok; [split; [exact Hr' | left; reflexivity]|].
    intros id Hq. destruct (decide (id = sender_id)) as [->|Hne].
    + rewrite queue_lookup_store. eexists. reflexivity.
    + rewrite queue_lookup_store_ne by exact Hne. exact Hq.
  - simpl. apply Hok; [|intros id Hq; exact Hq].
    split; [exact Hr'|]. right. destruct Hctx' as [Hfull|Hbuf]; [lia | exact Hbuf].
Qed.

Lemma bind_ret {A B : Type} (a : A) (k : A -> run B) : bind (ret a) k = k a.
Proof. unfold bind, ret. simpl. destruct (k a). reflexivity. Qed.

Lemma RecvLoop_body_keeps_world (max_alloc sender_id : Z) (w : Receiver.RecvWorld) :
  world_ok w -> sender_id ∈ dom (Receiver.w_sockets w) ->
  match snd (Receiver.RecvLoop_body max_alloc sender_id w) with
  | Done (Receiver.Continue w') => world_ok w'
  | Done (Receiver.Return _) | Pending | Fatal _ => True
  | _ => False
  end.
Proof.
  intros Hw Hin. pose proof Hw as [Hlook Hctxs].
  apply elem_of_dom in Hin as Hsock. destruct Hsock as [socket Hsock].
  destruct (Hlook _ Hin) as [[ctx Hctx] [q Hq]].
  destruct (Hctxs _ _ Hctx) as [Hr Hshape].
  unfold Receiver.RecvLoop_body. rewrite Hsock, Hq, Hctx.
  destruct (Queue_EmptyAndNoMoreAdd q).
  { unfold Receiver.SocketPool_RemoveSocket. simpl fst. simpl snd.
    destruct (_ =? 0); simpl; [exact I|]. split; [exact Hlook | exact Hctxs]. }
  assert (forall socket1 ctx1 pool1,
             0 <= Receiver.received_bytes ctx1 ->
             (Receiver.data_size ctx1 <= Receiver.received_bytes ctx1 \/
              exists buf, Receiver.buffer ctx1 = Some buf /\
                          Receiver.received_bytes ctx1 <= Receiver.data_size ctx1 /\
                          Receiver.data_size ctx1 <= Z.of_nat (length buf)) ->
             match snd (w' <- Receiver.RecvLoop_payload sender_id socket1 ctx1 pool1 q w ;;
                        ret (Receiver.Continue w')) with
             | Done (Receiver.Continue w') => world_ok w'
             | Done (Receiver.Return _) | Pending | Fatal _ => True
             | _ => False
             end) as Hpayload.
  { intros socket1 ctx1 pool1 Hr1 Hshape1.
    pose proof (RecvLoop_payload_keeps_world sender_id socket1 ctx1 pool1 q w
                  Hw Hin Hr1 Hshape1) as Hp.
    destruct (Receiver.RecvLoop_payload sender_id socket1 ctx1 pool1 q w)
      as [trp [w1| | | |]]; unfold bind; simpl in *; exact Hp. }
  unfold Receiver.RecvLoop_header.
  destruct (Z.eqb_spec (Receiver.data_size ctx) (-1)) as [Hfresh|Hmid].
  - pose proof (RecvDataSize_well_defined socket) as Hds.
    destruct (RecvDataSize socket) as [[n socket1]| | | |];
      [| exact I | destruct Hds | exact I | destruct Hds].
    rewrite bind_lift_done. simpl fst. simpl snd.
    destruct (Z.gtb_spec n 0) as [Hpos|Hnonpos].
    + destruct (Z.gtb_spec n max_alloc); [exact I|].
      rewrite bind_ret.
      apply Hpayload; simpl; [lia|]. right. eexists. split; [reflexivity|].
      split; [lia|]. rewrite length_replicate. lia.
    + destruct (Z.eqb_spec n 0) as [Hzero|Hneg].
      * unfold Receiver.SocketPool_RemoveSocket. simpl fst. simpl snd.
        destruct (_ =? 0).
        -- exact I.
        -- rewrite bind_ret.
           apply Hpayload; simpl; [exact Hr | left; lia].
      * rewrite bind_ret.
        apply Hpayload; simpl; [exact Hr | left; lia].
  - rewrite bind_ret.
    apply Hpayload; [exact Hr|]. right.
    destruct Hshape as [Hfresh|Hbuf]; [contradiction | exact Hbuf].
Qed.

Lemma RecvLoop_main_well_defined (max_alloc : Z) (schedule : list Z) :
  forall w,
    world_ok w ->
    Forall (fun id => id ∈ dom (Receiver.w_sockets w)) schedule ->
    well_defined (snd (Receiver.RecvLoop_main max_alloc schedule w)).
Proof.
  induction schedule as [|sender_id schedule IH]; intros w Hw Hsched; simpl;
    [exact I|].
  inversion Hsched as [|? ? Hin Hrest]; subst.
  pose proof (RecvLoop_body_keeps_world max_alloc sender_id w Hw Hin) as Hbody.
  destruct (Receiver.RecvLoop_body max_alloc sender_id w) as [tr1 [s| | | |]] eqn:Hrun;
    unfold bind; simpl in *; try exact I; try destruct Hbody.
  destruct s as [w1|w1]; simpl; [|exact I].
  pose proof (RecvLoop_body_inv _ _ _ _ _ Hrun) as [_ [_ [Hdom _]]]. simpl in Hdom.
  apply IH; [exact Hbody|]. rewrite Hdom. exact Hrest.
Qed.

(** X16.  A [RecvLoop] thread whose sockets all have a queue, and whose
    multiplexer reports only sockets of the thread's map, never
    dereferences a null socket, queue or context and never writes
    outside a receive buffer, whatever arrives on the sockets and in
    whatever pieces: the run returns, is still waiting, or stops in the
    fatal error on memory allocation. *)
Theorem RecvLoop_stays_within_its_buffers (max_alloc : Z) (schedule : list Z)
    (sockets : gmap Z TCPSocket) (queues : list (Z * MessageQueue)) (queue_sem : Z) :
  (forall id, id ∈ dom sockets -> is_Some (queue_lookup id queues)) ->
  Forall (fun id => id ∈ dom sockets) schedule ->
  well_defined (snd (Receiver.RecvLoop max_alloc schedule sockets queues queue_sem)).
Proof.
  intros Hq Hsched. unfold Receiver.RecvLoop.
  apply RecvLoop_main_well_defined; [|exact Hsched].
  split; simpl.
  - intros id Hid. split; [|exact (Hq id Hid)].
    apply elem_of_dom in Hid as [s Hs]. rewrite lookup_fmap, Hs. eexists. reflexivity.
  - intros id ctx Hctx. rewrite lookup_fmap in Hctx.
    destruct (sockets !! id); inversion Hctx; subst.
    split; [simpl; lia | left; reflexivity].
Qed.

Lemma RecvLoop_stays_within_its_buffers_witness :
  well_defined
    (snd (Receiver.RecvLoop 4096 [0; 1; 0; 0]
            (<[0 := trickling_socket]> (<[1 := idle_socket]> ∅))
            [(0, MessageQueue_new 0); (1, MessageQueue_new 0)] 0)).
Proof.
  apply RecvLoop_stays_within_its_buffers.
  - intros id Hid. apply elem_of_dom in Hid as [s Hs].
    lookup_cases Hs; eexists; reflexivity.
  - repeat constructor; apply elem_of_dom; eexists; reflexivity.
Defined.

(** ** From Send to the socket *)

(** X17.  After a [Connect] that returned true on a sender that was not
    connected, the first [Send] with valid arguments to a registered
    receiver returns ADD_SUCCESS: the message, tagged with the receiver
    id, is the one item of queue number id mod N.  The thread that
    reads that queue was given the socket map that holds the socket of
    that receiver, so the lookup sockets[msg.receiver_id] of its
    [SendLoop] finds the connected socket: the loop runs [SendCore] on it
    and goes on with the socket in place. *)
Theorem Send_reaches_the_thread_that_owns_the_socket (kMaxTryCount : Z)
    (new_socket : Z -> TCPSocket) (script : list bool) (s : Sender.SocketSender)
    (tr : list event) (s' : Sender.SocketSender) (msg : Message) (recv_id : Z) :
  not_connected s -> ids_nonnegative s ->
  Sender.Connect kMaxTryCount new_socket script s = (tr, Done (true, s')) ->
  is_Some (Sender.receiver_addrs_ s !! recv_id) ->
  is_Some (data msg) -> 0 < size msg ->
  let i := Z.to_nat (recv_id mod Sender.max_thread_count_ s') in
  let tagged := set_receiver_id msg recv_id in
  exists s'' m,
    Sender.Send msg recv_id s' = ([], Done (ADD_SUCCESS, s'')) /\
    Sender.msg_queue_ s'' !! i
    = Some (set_items (MessageQueue_new (Sender.queue_size_ s)) [tagged]) /\
    Sender.threads_ s'' !! i = Some (m, i) /\
    m !! recv_id = Some (new_socket recv_id) /\
    forall removes,
      Sender.SendLoop m ((REMOVE_SUCCESS, tagged) :: removes)
      = (socket' <- SendCore tagged (new_socket recv_id) ;;
         Sender.SendLoop (<[recv_id := socket']> m) removes).
Proof.
  intros Hnc Hids Hrun [a Hreg] Hdata Hsize i tagged.
  pose proof (Connect_done _ _ _ _ _ _ _ Hrun) as [HN HN0].
  pose proof (Connect_success _ _ _ _ _ _ Hnc Hids Hrun) as Hok. simpl in Hok.
  destruct Hok as [Hlen [Hmq [Hth Hat]]].
  set (N := Sender.max_thread_count_ s') in *.
  assert (0 <= recv_id) as Hid by exact (Hids _ _ Hreg).
  assert (0 < receiver_count s) as Hcount.
  { unfold receiver_count.
    destruct (decide (base.size (Sender.receiver_addrs_ s) = 0%nat)) as [Hz|Hz]; [|lia].
    apply map_size_empty_iff in Hz. rewrite Hz, lookup_empty in Hreg. discriminate. }
  assert (0 < N) as Hpos.
  { unfold shard_count in HN. destruct (Z.eqb_spec (Sender.max_thread_count_ s) 0); lia. }
  pose proof (Z.mod_pos_bound recv_id N Hpos) as Hbound.
  assert (i < Z.to_nat N)%nat as Hi by (unfold i; lia).
  assert (Sender.msg_queue_ s' !! i = Some (MessageQueue_new (Sender.queue_size_ s)))
    as Hq by (rewrite Hmq; apply lookup_replicate_2; exact Hi).
  specialize (Hat i recv_id).
  rewrite decide_True in Hat by (split; [eexists; exact Hreg | reflexivity]).
  unfold socket_at in Hat.
  destruct (Sender.sockets_ s' !! i) as [m|] eqn:Hm; [|discriminate].
  exists (with_msg_queue s'
            (<[i := set_items (MessageQueue_new (Sender.queue_size_ s)) [tagged]]>
               (Sender.msg_queue_ s'))), m.
  split.
  { apply (Send_enqueues msg recv_id s' (MessageQueue_new (Sender.queue_size_ s)));
      [exact Hdata | exact Hsize | exact Hid | exact Hpos | exact Hq |].
    apply Queue_Add_new. }
  split.
  { simpl. apply list_lookup_insert_eq. apply lookup_lt_Some in Hq. exact Hq. }
  split.
  { simpl. rewrite Hth, list_lookup_fmap, lookup_seq_lt by exact Hi.
    simpl. rewrite Hm. reflexivity. }
  split; [exact Hat|].
  intros removes. simpl. rewrite Hat. reflexivity.
Qed.

Lemma Send_reaches_the_thread_that_owns_the_socket_witness :
  exists s'' m,
    Sender.Send msg_hi 2 connected3 = ([], Done (ADD_SUCCESS, s'')) /\
    Sender.threads_ s'' !! 0%nat = Some (m, 0%nat) /\
    m !! 2 = Some (fresh_socket 2).
Proof.
  assert (Sender.Connect 1024 fresh_socket [false; true; true; true] sender3
          = (fst connect3, Done (true, connected3))) as Hrun
    by (vm_compute; reflexivity).
  destruct (Send_reaches_the_thread_that_owns_the_socket 1024 fresh_socket
              [false; true; true; true] sender3 (fst connect3) connected3 msg_hi 2)
    as [s'' [m [Hsend [_ [Hth [Hm _]]]]]].
  - repeat split.
  - intros r a Hr. unfold sender3 in Hr. simpl in Hr. lookup_cases Hr; lia.
  - exact Hrun.
  - eexists. reflexivity.
  - eexists. reflexivity.
  - simpl. lia.
  - exists s'', m. split; [exact Hsend|]. split; [exact Hth | exact Hm].
Defined.

(** ** Finalize *)

Lemma queue_finished_SignalFinished (q : MessageQueue) (producer_id : Z) :
  single_producer q -> queue_finished (Queue_SignalFinished q producer_id) = true.
Proof.
  unfold single_producer, queue_finished. simpl. intros H. apply Z.leb_le.
  assert (1 <= base.size ({[producer_id]} ∪ finished_producers q))%nat; [|lia].
  rewrite <- (size_singleton (C := gset Z) producer_id).
  apply subseteq_size. apply union_subseteq_l.
Qed.

(** A queue that was empty when its producer signalled the end gives a
    blocking [Remove] nothing but [QUEUE_CLOSE]. *)
Lemma drain_SignalFinished (q : MessageQueue) (producer_id : Z) :
  single_producer q -> Queue_Empty q = true ->
  Sender.drain (Queue_SignalFinished q producer_id) = [(QUEUE_CLOSE, Message_default)].
Proof.
  intros Hone Hempty. unfold Sender.drain.
  rewrite (queue_finished_SignalFinished q producer_id Hone). simpl.
  unfold Queue_Empty in Hempty. destruct (items q); [reflexivity | discriminate].
Qed.

Lemma Sender_Finalize_queues_spec (n : nat) :
  forall (i : nat) (msg_queue : list MessageQueue),
    (i + n <= length msg_queue)%nat ->
    (forall j q, (i <= j < i + n)%nat -> msg_queue !! j = Some q -> Queue_Empty q = true) ->
    exists msg_queue',
      Sender.Finalize_queues n (Z.of_nat i) msg_queue = Done msg_queue' /\
      length msg_queue' = length msg_queue /\
      forall j,
        msg_queue' !! j
        = if decide (i <= j < i + n)%nat
          then (fun q => Queue_SignalFinished q 0) <$> msg_queue !! j
          else msg_queue !! j.
Proof.
  induction n as [|n IH]; intros i msg_queue Hlen Hempty; simpl.
  - exists msg_queue. split; [reflexivity|]. split; [reflexivity|].
    intros j. rewrite decide_False by lia. reflexivity.
  - rewrite Nat2Z.id.
    destruct (lookup_lt_is_Some_2 msg_queue i ltac:(lia)) as [q Hq]. rewrite Hq.
    rewrite (Hempty i q ltac:(lia) Hq).
    replace (Z.of_nat i + 1) with (Z.of_nat (S i)) by lia.
    destruct (IH (S i) (<[i := Queue_SignalFinished q 0]> msg_queue)) as [mq' [Hrun [Hl Hat]]].
    + rewrite length_insert. lia.
    + intros j q0 Hj Hq0. rewrite list_lookup_insert_ne in Hq0 by lia.
      exact (Hempty j q0 ltac:(lia) Hq0).
    + exists mq'. split; [exact Hrun|]. split; [rewrite Hl; apply length_insert|].
      intros j. rewrite Hat.
      destruct (decide (S i <= j < S i + n)%nat) as [Hj|Hj].
      * rewrite decide_True by lia. rewrite list_lookup_insert_ne by lia. reflexivity.
      * destruct (decide (j = i)) as [->|Hne].
        -- rewrite decide_True by lia.
           rewrite list_lookup_insert_eq by lia. rewrite Hq. reflexivity.
        -- rewrite decide_False by lia. rewrite list_lookup_insert_ne by lia.
           reflexivity.
Qed.

(** X18.  The first loop of [SocketSender::Finalize] on a sender with one
    queue per shard, all of them empty and with a single producer.  It
    ends, and it has signalled the end on every queue and changed
    nothing else.  Each [SendLoop] thread then gets QUEUE_CLOSE from its
    queue at once: it sends nothing but the frame of size 0, once on
    every socket of its shard. *)
Theorem Sender_Finalize_closes_every_stream (s : Sender.SocketSender) :
  length (Sender.msg_queue_ s) = Z.to_nat (Sender.max_thread_count_ s) ->
  Forall (fun q => Queue_Empty q = true /\ single_producer q) (Sender.msg_queue_ s) ->
  exists msg_queue',
    Sender.Finalize_queues (Z.to_nat (Sender.max_thread_count_ s)) 0 (Sender.msg_queue_ s)
    = Done msg_queue' /\
    msg_queue' = (fun q => Queue_SignalFinished q 0) <$> Sender.msg_queue_ s /\
    forall i q' m tr m',
      msg_queue' !! i = Some q' ->
      distinct_fds m ->
      Sender.SendLoop m (Sender.drain q') = (tr, Done m') ->
      forall id socket, m !! id = Some socket -> bytes_on (fd socket) tr = int64_bytes 0.
Proof.
  intros Hlen Hall.
  destruct (Sender_Finalize_queues_spec (Z.to_nat (Sender.max_thread_count_ s)) 0
              (Sender.msg_queue_ s)) as [mq' [Hrun [Hl Hat]]].
  - lia.
  - intros j q _ Hq. rewrite Forall_lookup in Hall. exact (proj1 (Hall j q Hq)).
  - assert (mq' = (fun q => Queue_SignalFinished q 0) <$> Sender.msg_queue_ s) as Heq.
    { apply list_eq. intros j. rewrite Hat, list_lookup_fmap.
      destruct (decide (0 <= j < 0 + Z.to_nat (Sender.max_thread_count_ s))%nat)
        as [Hj|Hj]; [reflexivity|].
      rewrite lookup_ge_None_2 by lia. reflexivity. }
    exists mq'. split; [exact Hrun|]. split; [exact Heq|].
    intros i q' m tr m' Hq' Hfds Hloop id socket Hsock.
    rewrite Heq, list_lookup_fmap in Hq'.
    destruct (Sender.msg_queue_ s !! i) as [q|] eqn:Hq; [|discriminate].
    inversion Hq'; subst q'.
    rewrite Forall_lookup in Hall. destruct (Hall i q Hq) as [Hempty Hone].
    rewrite (drain_SignalFinished q 0 Hone Hempty) in Hloop. simpl in Hloop.
    rewrite (SendLoop_close_bytes (set_size Message_default 0) (map_to_list m) eq_refl)
      with (sockets := m) (sockets' := m'); [| | exact Hloop].
    + rewrite decide_True; [reflexivity|].
      apply list_elem_of_fmap. exists (id, socket). split; [reflexivity|].
      apply elem_of_map_to_list. exact Hsock.
    + apply NoDup_fmap_2_strong; [|apply NoDup_map_to_list].
      intros [a sa] [b sb] Ha Hb Hab. simpl in Hab.
      apply elem_of_map_to_list in Ha. apply elem_of_map_to_list in Hb.
      assert (a = b) as -> by exact (Hfds _ _ _ _ Ha Hb Hab).
      rewrite Ha in Hb. inversion Hb. reflexivity.
Qed.

Lemma Sender_Finalize_closes_every_stream_witness :
  exists msg_queue' tr m',
    Sender.Finalize_queues 2 0 (Sender.msg_queue_ idle_sender) = Done msg_queue' /\
    Sender.SendLoop shard_sockets
      (Sender.drain (default (MessageQueue_new 0) (msg_queue' !! 0%nat)))
    = (tr, Done m') /\
    bytes_on 5 tr = int64_bytes 0 /\ bytes_on 8 tr = int64_bytes 0.
Proof.
  destruct (Sender_Finalize_closes_every_stream idle_sender eq_refl)
    as [mq' [Hrun [Heq Hbytes]]].
  { repeat constructor; unfold single_producer; simpl; lia. }
  subst mq'.
  assert (distinct_fds shard_sockets) as Hfds.
  { intros i j si sj Hi Hj Hfd. unfold shard_sockets in Hi, Hj.
    lookup_cases Hi; lookup_cases Hj; simpl in Hfd; congruence. }
  destruct (Sender.SendLoop shard_sockets
              (Sender.drain (Queue_SignalFinished (MessageQueue_new 0) 0)))
    as [tr [m'| | | |]] eqn:Hloop; try (vm_compute in Hloop; discriminate).
  exists ((fun q => Queue_SignalFinished q 0) <$> Sender.msg_queue_ idle_sender), tr, m'.
  split; [exact Hrun|]. split; [exact Hloop|].
  split.
  - exact (Hbytes 0%nat _ shard_sockets tr m' eq_refl Hfds Hloop 7 _ eq_refl).
  - exact (Hbytes 0%nat _ shard_sockets tr m' eq_refl Hfds Hloop 9 _ eq_refl).
Defined.


Lemma Receiver_Finalize_queues_spec (msg_queue : list (Z * MessageQueue)) :
  Forall (fun p => Queue_Empty (snd p) = true) msg_queue ->
  Receiver.Finalize_queues msg_queue
  = Done ((fun p => (fst p, Queue_SignalFinished (snd p) (fst p))) <$> msg_queue).
Proof.
  induction msg_queue as [|[id q] qs IH]; intros Hall; simpl; [reflexivity|].
  inversion Hall as [|? ? Hq Hrest]; subst. simpl in Hq. rewrite Hq.
  rewrite (IH Hrest). reflexivity.
Qed.

Lemma queue_lookup_fmap (f : Z -> MessageQueue -> MessageQueue) (id : Z)
    (qs : list (Z * MessageQueue)) :
  queue_lookup id ((fun p => (fst p, f (fst p) (snd p))) <$> qs)
  = f id <$> queue_lookup id qs.
Proof.
  induction qs as [|[k q] qs IH]; simpl; [reflexivity|].
  destruct (Z.eqb_spec k id) as [->|_]; [reflexivity | exact IH].
Qed.

(** A thread whose reported sockets all have a queue that is empty and
    finished: each report deregisters the socket, nothing is read, and
    the thread returns once the pool is empty. *)
Lemma RecvLoop_main_stops (max_alloc : Z) (schedule : list Z) :
  forall w,
    schedule <> [] ->
    (forall id, id ∈ schedule ->
                is_Some (Receiver.w_sockets w !! id) /\
                is_Some (Receiver.w_contexts w !! id) /\
                exists q, queue_lookup id (Receiver.w_queues w) = Some q /\
                          Queue_EmptyAndNoMoreAdd q = true) ->
    (forall id, id ∈ Receiver.w_pool w -> id ∈ schedule) ->
    Receiver.RecvLoop_main max_alloc schedule w
    = ([], Done {| Receiver.w_sockets := Receiver.w_sockets w;
                   Receiver.w_queues := Receiver.w_queues w;
                   Receiver.w_sem := Receiver.w_sem w;
                   Receiver.w_contexts := Receiver.w_contexts w;
                   Receiver.w_pool := ∅ |}).
Proof.
  induction schedule as [|sender_id schedule IH]; intros w Hne Hall Hpool;
    [contradiction|].
  destruct (Hall sender_id ltac:(left)) as [[socket Hs] [[ctx Hc] [q [Hq Hfin]]]].
  simpl. unfold Receiver.RecvLoop_body at 1. rewrite Hs, Hq, Hc, Hfin.
  unfold Receiver.SocketPool_RemoveSocket. simpl fst. simpl snd.
  destruct (Z.eqb_spec (Z.of_nat (base.size (Receiver.w_pool w ∖ {[sender_id]}))) 0)
    as [Hsz|Hsz]; rewrite bind_ret.
  - assert (Receiver.w_pool w ∖ {[sender_id]} = ∅) as ->
      by (apply leibniz_equiv; apply size_empty_iff; lia).
    reflexivity.
  - assert (forall id, id ∈ Receiver.w_pool w ∖ {[sender_id]} -> id ∈ schedule) as Hpool'.
    { intros id Hid. apply elem_of_difference in Hid as [Hin Hnot].
      specialize (Hpool id Hin). apply elem_of_cons in Hpool as [->|Hin']; [|exact Hin'].
      exfalso. apply Hnot. apply elem_of_singleton. reflexivity. }
    rewrite IH; [reflexivity | | | exact Hpool'].
    + intros ->. apply Hsz.
      assert (Receiver.w_pool w ∖ {[sender_id]} = ∅) as ->; [|reflexivity].
      apply leibniz_equiv. apply elem_of_equiv_empty. intros id Hid.
      specialize (Hpool' id Hid). apply elem_of_nil in Hpool'. exact Hpool'.
    + intros id Hid. apply (Hall id). right. exact Hid.
Qed.

(** X19.  The first loop of [SocketReceiver::Finalize] on empty queues
    with a single producer each ends and leaves every queue finished and
    empty.  A [RecvLoop] thread that runs on these queues reads nothing
    more: every socket the multiplexer reports is deregistered, and once
    each socket of the thread has been reported the thread returns,
    without a message added or a semaphore post, and with the bytes
    still on the wire untouched. *)
Theorem Receiver_Finalize_stops_the_threads (max_alloc : Z) (schedule : list Z)
    (sockets : gmap Z TCPSocket) (msg_queue : list (Z * MessageQueue))
    (queue_sem : Z) :
  Forall (fun p => Queue_Empty (snd p) = true /\ single_producer (snd p)) msg_queue ->
  (forall id, id ∈ dom sockets -> is_Some (queue_lookup id msg_queue)) ->
  schedule <> [] ->
  (forall id, id ∈ dom sockets <-> id ∈ schedule) ->
  exists msg_queue',
    Receiver.Finalize_queues msg_queue = Done msg_queue' /\
    Forall (fun p => Queue_EmptyAndNoMoreAdd (snd p) = true) msg_queue' /\
    exists w,
      Receiver.RecvLoop max_alloc schedule sockets msg_queue' queue_sem = ([], Done w) /\
      Receiver.w_sockets w = sockets /\
      Receiver.w_sem w = queue_sem /\
      Receiver.w_queues w = msg_queue'.
Proof.
  intros Hall Hqs Hne Hsched.
  set (f := fun (id : Z) (q : MessageQueue) => Queue_SignalFinished q id).
  exists ((fun p => (fst p, f (fst p) (snd p))) <$> msg_queue).
  assert (forall q id, Queue_Empty q = true -> single_producer q ->
                       Queue_EmptyAndNoMoreAdd (f id q) = true) as Hfin.
  { intros q id Hempty Hone. unfold Queue_EmptyAndNoMoreAdd, f.
    rewrite (queue_finished_SignalFinished q id Hone), andb_true_r.
    exact Hempty. }
  split.
  { apply Receiver_Finalize_queues_spec.
    eapply Forall_impl; [exact Hall|]. intros p [Hp _]. exact Hp. }
  split.
  { apply Forall_fmap. eapply Forall_impl; [exact Hall|].
    intros [id q] [Hempty Hone]. simpl. apply Hfin; assumption. }
  eexists. split.
  - unfold Receiver.RecvLoop. apply RecvLoop_main_stops; [exact Hne| |].
    + intros id Hid. apply Hsched in Hid. simpl.
      apply elem_of_dom in Hid as Hs. destruct Hs as [s Hs].
      split; [eexists; exact Hs|].
      split; [rewrite lookup_fmap, Hs; eexists; reflexivity|].
      destruct (Hqs id Hid) as [q Hq].
      exists (f id q). split; [rewrite queue_lookup_fmap, Hq; reflexivity|].
      assert (exists i, msg_queue !! i = Some (id, q)) as [i Hi].
      { clear -Hq. induction msg_queue as [|[k q0] qs IH]; simpl in Hq; [discriminate|].
        destruct (Z.eqb_spec k id) as [->|_].
        - inversion Hq; subst. exists 0%nat. reflexivity.
        - destruct (IH Hq) as [i Hi]. exists (S i). exact Hi. }
      rewrite Forall_lookup in Hall. destruct (Hall i _ Hi) as [Hempty Hone].
      apply Hfin; assumption.
    + intros id Hid. simpl in Hid. apply Hsched. exact Hid.
  - simpl. repeat split.
Qed.

Lemma Receiver_Finalize_stops_the_threads_witness :
  exists msg_queue' w,
    Receiver.Finalize_queues two_empty_queues = Done msg_queue' /\
    Receiver.RecvLoop 4096 [1; 0] two_sockets msg_queue' 0 = ([], Done w) /\
    Receiver.w_sockets w = two_sockets.
Proof.
  destruct (Receiver_Finalize_stops_the_threads 4096 [1; 0] two_sockets
              two_empty_queues 0)
    as [mq' [Hrun [_ [w [Hloop [Hsocks _]]]]]].
  - repeat constructor; unfold single_producer; simpl; lia.
  - intros id Hid. apply elem_of_dom in Hid as [s Hs]. unfold two_sockets in Hs.
    lookup_cases Hs; eexists; reflexivity.
  - discriminate.
  - intros id. split.
    + intros Hid. apply elem_of_dom in Hid as [s Hs]. unfold two_sockets in Hs.
      lookup_cases Hs; [right; left | left].
    + intros Hid. apply elem_of_dom.
      apply elem_of_cons in Hid as [->|Hid]; [eexists; reflexivity|].
      apply elem_of_cons in Hid as [->|Hid]; [eexists; reflexivity|].
      apply elem_of_nil in Hid. destruct Hid.
  - exists mq', w. split; [exact Hrun|]. split; [exact Hloop | exact Hsocks].
Defined.
